(** * Shared randomness and onion-service introduction: a shallow embedding

    The development follows the C sources of the repository:

    - [Trunnel]: the generated codec of the ESTABLISH_INTRO and
      INTRO_ESTABLISHED cells (cell_establish_intro.c);
    - [SRDraft]: the SRV computation of the prop-250 draft revision of
      shared-random.c ([compute_shared_random_value], [generate_srv],
      [generate_srv_disaster]);
    - [SR]: the merged revision: [sr_parse_srv] of shared-random.c and the
      state engine of shared-random-state.c (validation, loading, the
      single [state_query] entry point);
    - [HsCircuit]: the service side of hs_circuit.c (intro circuit opened,
      INTRODUCE2 handling).

    Functions of the tree that are not part of these files (the circuit
    map, the configuration parser, the cryptographic primitives, ...) are
    interfaces: type classes whose operations the embedded code calls. *)

From Stdlib Require Import ZArith NArith List String Ascii Strings.Byte Lia Bool.
From Stdlib Require Import Sorting.Sorted Sorting.Permutation Sorting.Mergesort.
From Stdlib Require Import DecimalString.
From stdpp Require Import gmap strings list.

Local Open Scope Z_scope.

(** ** Bytes *)

(** [uint8_t] values are [Byte.byte]; multi-byte integers are [N] with the
    byte order written out. *)

#[global] Instance byte_eq_dec : EqDecision byte := Byte.byte_eq_dec.

#[global] Program Instance byte_countable : Countable byte :=
  inj_countable Byte.to_N Byte.of_N _.
Next Obligation. intros b. apply Byte.of_to_N. Qed.

(** The byte holding [n] when [n < 256] (the value of a [uint8_t] cast). *)
Definition byte_of_N (n : N) : byte :=
  match Byte.of_N (n mod 256) with
  | Some b => b
  | None => x00
  end.

(** The content of a [uint8_t x[n]] (or [char x[n]]) member of a zeroed
    object whose bytes were set from [l]. *)
Definition array_view (n : nat) (l : list byte) : list byte :=
  take n (l ++ replicate n x00).

(** [memcpy(buf + off, data, len)] on a buffer large enough. *)
Definition memcpy_at (buf : list byte) (off : nat) (data : list byte)
  : list byte :=
  take off buf ++ data ++ drop (off + length data) buf.

(** A C string as the bytes before its terminating NUL. *)
Definition bytes_of_string (s : string) : list byte := list_byte_of_string s.

(** ** Outcomes of C functions that may abort

    [tor_assert] aborts the process when its condition is false, and a read
    through a NULL pointer is a crash; both are kept apart from a normal
    return. *)
Inductive outcome (A : Type) : Type :=
| Returns (a : A)
| Assertion_failure (what : string)
| Null_dereference (what : string).
Arguments Returns {A} a.
Arguments Assertion_failure {A} what.
Arguments Null_dereference {A} what.

Definition obind {A B} (o : outcome A) (f : A -> outcome B) : outcome B :=
  match o with
  | Returns a => f a
  | Assertion_failure w => Assertion_failure w
  | Null_dereference w => Null_dereference w
  end.

Definition tor_assert (cond : bool) (what : string) : outcome unit :=
  if cond then Returns tt else Assertion_failure what.

Declare Scope outcome_scope.
Delimit Scope outcome_scope with outcome.
Notation "x <- o ;; k" := (obind o (fun x => k))
  (at level 100, o at next level, right associativity) : outcome_scope.
Notation "o ;;; k" := (obind o (fun _ => k))
  (at level 100, right associativity) : outcome_scope.

(** [digest_algorithm_t] of crypto.h. *)
Inductive digest_algorithm_t : Type :=
| DIGEST_SHA1
| DIGEST_SHA256
| DIGEST_SHA512
| DIGEST_SHA3_256
| DIGEST_SHA3_512.

(** * The trunnel codec of ESTABLISH_INTRO and INTRO_ESTABLISHED *)

Module Trunnel.

(** A trunnel function returns a count of bytes ([>= 0]), a negative error
    code ([-1] invalid, [-2] truncated), or stops in [trunnel_assert]. *)
Inductive ret (A : Type) : Type :=
| Ok (a : A)
| Err (code : Z)
| Abort.
Arguments Ok {A} a.
Arguments Err {A} code.
Arguments Abort {A}.

Definition TRUNNEL_SHA3_256_LEN : nat := 32.

(** *** The parsing cursor

    [ptr] and [remaining] of the generated parsers are the not yet consumed
    suffix of the input. *)
Definition parser (A : Type) : Type := list byte -> ret (A * list byte).

Definition pret {A} (a : A) : parser A := fun i => Ok (a, i).

Definition pbind {A B} (p : parser A) (f : A -> parser B) : parser B :=
  fun i =>
    match p i with
    | Ok (a, r) => f a r
    | Err c => Err c
    | Abort => Abort
    end.

(** [goto fail] / [goto truncated] with the value returned there. *)
Definition pfail {A} (code : Z) : parser A := fun _ => Err code.

Declare Scope parser_scope.
Delimit Scope parser_scope with parser.
Notation "x <- p ;; k" := (pbind p (fun x => k))
  (at level 100, p at next level, right associativity) : parser_scope.

(** [CHECK_REMAINING(1, truncated); trunnel_get_uint8(ptr);
     remaining -= 1; ptr += 1]. *)
Definition get_u8 : parser byte :=
  fun i =>
    match i with
    | b :: r => Ok (b, r)
    | [] => Err (-2)
    end.

(** [trunnel_ntohs(trunnel_get_uint16(ptr))]: big-endian on the wire. *)
Definition trunnel_ntohs (b0 b1 : byte) : N :=
  (Byte.to_N b0 * 256 + Byte.to_N b1)%N.

(** [trunnel_set_uint16(ptr, trunnel_htons(v))] for a [uint16_t] v. *)
Definition trunnel_htons (v : N) : list byte :=
  [byte_of_N (v / 256); byte_of_N (v mod 256)].

(** [CHECK_REMAINING(2, truncated); ... ; remaining -= 2; ptr += 2]. *)
Definition get_u16 : parser N :=
  fun i =>
    match i with
    | b0 :: b1 :: r => Ok (trunnel_ntohs b0 b1, r)
    | _ => Err (-2)
    end.

(** [CHECK_REMAINING(n, truncated); memcpy(dst, ptr, n); ptr += n;
     remaining -= n]. *)
Definition get_bytes (n : nat) : parser (list byte) :=
  fun i =>
    if (length i <? n)%nat then Err (-2) else Ok (take n i, drop n i).

(** A nested [x_parse(&obj->x, ptr, remaining)]: a negative result is
    relayed ([goto relay_fail]), [trunnel_assert((size_t)result <=
    remaining)], then [remaining -= result; ptr += result]. The value
    carries the count the nested parser returned. *)
Definition nested {A} (parse : list byte -> ret (A * nat)) : parser (A * nat) :=
  fun i =>
    match parse i with
    | Ok (a, n) =>
        if (n <=? length i)%nat then Ok ((a, n), drop n i) else Abort
    | Err c => Err c
    | Abort => Abort
    end.

(** [return len_in - remaining]. *)
Definition consumed_count {A} (p : parser A) (input : list byte)
  : ret (A * nat) :=
  match p input with
  | Ok (a, r) => Ok (a, (length input - length r)%nat)
  | Err c => Err c
  | Abort => Abort
  end.

(** *** The nested cell_extension codec

    cell_establish_intro.c only declares the functions of cell_common.c;
    they are the interface [CellExtension]. *)
Class CellExtension : Type := {
  cell_extension_t : Type;
  (* ssize_t cell_extension_parse(cell_extension_t **output,
                                  const uint8_t *input, const size_t len_in) *)
  cell_extension_parse : list byte -> ret (cell_extension_t * nat);
  (* ssize_t cell_extension_encode(uint8_t *output, size_t avail,
                                   const cell_extension_t *input):
     the bytes written to output *)
  cell_extension_encode : nat -> cell_extension_t -> ret (list byte);
  (* const char *cell_extension_check(const cell_extension_t *obj):
     NULL or a message *)
  cell_extension_check : cell_extension_t -> option string;
}.

(** *** What a generated parser guarantees

    [consumes p c a]: on an input that starts with [c] the parser returns
    [a] and leaves exactly what follows [c]. *)
Definition consumes {A} (p : parser A) (c : list byte) (a : A) : Prop :=
  forall r, p (c ++ r) = Ok (a, r).

(** A parser is lawful when it reads a prefix of its input, depends on
    nothing after that prefix, and answers [-2] (truncated) on every
    proper prefix of an input it accepts. *)
Record lawful {A} (p : parser A) : Prop := {
  lawful_split :
    forall i a r, p i = Ok (a, r) -> exists c, i = c ++ r /\ consumes p c a;
  lawful_trunc :
    forall c a, consumes p c a ->
    forall k, (k < length c)%nat -> p (take k c) = Err (-2);
}.

Class CellExtensionLaws `{CellExtension} : Prop := {
  cell_extension_lawful : lawful (nested cell_extension_parse);
  cell_extension_roundtrip :
    forall c e n, consumes (nested cell_extension_parse) c (e, n) ->
      cell_extension_check e = None /\
      forall avail, (length c <= avail)%nat ->
        cell_extension_encode avail e = Ok c;
}.

(** *** Encoding helpers *)

Definition rbind {A B} (o : ret A) (f : A -> ret B) : ret B :=
  match o with
  | Ok a => f a
  | Err c => Err c
  | Abort => Abort
  end.

Declare Scope ret_scope.
Delimit Scope ret_scope with ret.
Notation "x <- o ;; k" := (rbind o (fun x => k))
  (at level 100, o at next level, right associativity) : ret_scope.

(** [trunnel_assert(written <= avail); if (avail - written < n) goto
     truncated; memcpy(ptr, data, n); written += n; ptr += n]. *)
Definition put (avail : nat) (written data : list byte) : ret (list byte) :=
  if (avail <? length written)%nat then Abort
  else if (avail - length written <? length data)%nat then Err (-2)
  else Ok (written ++ data).

Section Cells.
Context `{CellExtension}.

(** *** ESTABLISH_INTRO *)

Record hs_cell_establish_intro_t : Type := {
  start_mac_data : nat;          (* const uint8_t *, as an offset in the input *)
  auth_key_type : byte;          (* uint8_t *)
  auth_key_len : N;              (* uint16_t *)
  auth_key : list byte;          (* TRUNNEL_DYNARRAY_HEAD(, uint8_t) *)
  extensions : option cell_extension_t;  (* struct cell_extension_st * *)
  end_mac_data : nat;
  handshake_mac : list byte;     (* uint8_t [TRUNNEL_SHA3_256_LEN] *)
  sig_len : N;                   (* uint16_t *)
  end_sig_fields : nat;
  sig : list byte;
  trunnel_error_code_ : bool;
}.

(** [val == 0 || val == 1 || val == 2]. *)
Definition auth_key_type_in_range (t : byte) : bool :=
  match t with
  | x00 | x01 | x02 => true
  | _ => false
  end.

(** [cell_extension_check(obj->extensions)] on a pointer. *)
Definition check_extensions (e : option cell_extension_t) : option string :=
  match e with
  | None => Some "Object was NULL"%string
  | Some e => cell_extension_check e
  end.

Definition hs_cell_establish_intro_check (obj : hs_cell_establish_intro_t)
  : option string :=
  if trunnel_error_code_ obj then
    Some "A set function failed on this object"%string
  else if negb (auth_key_type_in_range (auth_key_type obj)) then
    Some "Integer out of bounds"%string
  else if negb (N.of_nat (length (auth_key obj)) =? auth_key_len obj)%N then
    Some "Length mismatch for auth_key"%string
  else match check_extensions (extensions obj) with
  | Some msg => Some msg
  | None =>
      if negb (N.of_nat (length (sig obj)) =? sig_len obj)%N then
        Some "Length mismatch for sig"%string
      else None
  end.

(** [cell_extension_encode(ptr, avail - written, obj->extensions)];
    [written += result]. *)
Definition put_extensions (avail : nat) (written : list byte)
    (e : option cell_extension_t) : ret (list byte) :=
  if (avail <? length written)%nat then Abort
  else match e with
  | None => Err (-1)
  | Some e =>
      (bytes <- cell_extension_encode (avail - length written) e ;;
       Ok (written ++ bytes))%ret
  end.

Definition hs_cell_establish_intro_encode (avail : nat)
    (obj : hs_cell_establish_intro_t) : ret (list byte) :=
  match hs_cell_establish_intro_check obj with
  | Some _ => Err (-1)                                  (* check_failed *)
  | None =>
    (* Encode u8 auth_key_type IN [0, 1, 2] *)
    (w <- put avail [] [auth_key_type obj] ;;
     (* Encode u16 auth_key_len *)
     w <- put avail w (trunnel_htons (auth_key_len obj)) ;;
     (* Encode u8 auth_key[auth_key_len] *)
     w <- (if (auth_key_len obj =? N.of_nat (length (auth_key obj)))%N
           then put avail w (auth_key obj) else Abort) ;;
     (* Encode struct cell_extension extensions *)
     w <- put_extensions avail w (extensions obj) ;;
     (* Encode u8 handshake_mac[TRUNNEL_SHA3_256_LEN] *)
     w <- put avail w (array_view TRUNNEL_SHA3_256_LEN (handshake_mac obj)) ;;
     (* Encode u16 sig_len *)
     w <- put avail w (trunnel_htons (sig_len obj)) ;;
     (* Encode u8 sig[sig_len] *)
     w <- (if (sig_len obj =? N.of_nat (length (sig obj)))%N
           then put avail w (sig obj) else Abort) ;;
     Ok w)%ret
  end.

Definition hs_cell_establish_intro_parse_into
  : parser hs_cell_establish_intro_t :=
  ((* Parse u8 auth_key_type IN [0, 1, 2] *)
   t <- get_u8 ;;
   if negb (auth_key_type_in_range t) then pfail (-1)   (* goto fail *)
   else
   (* Parse u16 auth_key_len *)
   klen <- get_u16 ;;
   (* Parse u8 auth_key[auth_key_len] *)
   key <- get_bytes (N.to_nat klen) ;;
   (* Parse struct cell_extension extensions *)
   ext <- nested cell_extension_parse ;;
   (* Parse u8 handshake_mac[TRUNNEL_SHA3_256_LEN] *)
   mac <- get_bytes TRUNNEL_SHA3_256_LEN ;;
   (* Parse u16 sig_len *)
   slen <- get_u16 ;;
   (* Parse u8 sig[sig_len] *)
   sg <- get_bytes (N.to_nat slen) ;;
   pret {| start_mac_data := 0;
           auth_key_type := t;
           auth_key_len := klen;
           auth_key := key;
           extensions := Some ext.1;
           end_mac_data := 1 + 2 + length key + ext.2;
           handshake_mac := mac;
           sig_len := slen;
           end_sig_fields :=
             1 + 2 + length key + ext.2 + TRUNNEL_SHA3_256_LEN + 2;
           sig := sg;
           trunnel_error_code_ := false |})%parser.

(** The object returned through [*output] with the function's result. The
    allocation of the object is taken to succeed. *)
Definition hs_cell_establish_intro_parse (input : list byte)
  : ret (hs_cell_establish_intro_t * nat) :=
  consumed_count hs_cell_establish_intro_parse_into input.

(** *** INTRO_ESTABLISHED *)

Record hs_cell_intro_established_t : Type := {
  ie_extensions : option cell_extension_t;
  ie_trunnel_error_code_ : bool;
}.

Definition hs_cell_intro_established_check
    (obj : hs_cell_intro_established_t) : option string :=
  if ie_trunnel_error_code_ obj then
    Some "A set function failed on this object"%string
  else check_extensions (ie_extensions obj).

Definition hs_cell_intro_established_encode (avail : nat)
    (obj : hs_cell_intro_established_t) : ret (list byte) :=
  match hs_cell_intro_established_check obj with
  | Some _ => Err (-1)
  | None =>
    (* Encode struct cell_extension extensions *)
    (w <- put_extensions avail [] (ie_extensions obj) ;;
     Ok w)%ret
  end.

Definition hs_cell_intro_established_parse_into
  : parser hs_cell_intro_established_t :=
  ((* Parse struct cell_extension extensions *)
   ext <- nested cell_extension_parse ;;
   pret {| ie_extensions := Some ext.1;
           ie_trunnel_error_code_ := false |})%parser.

Definition hs_cell_intro_established_parse (input : list byte)
  : ret (hs_cell_intro_established_t * nat) :=
  consumed_count hs_cell_intro_established_parse_into input.

End Cells.

End Trunnel.

(** * A concrete cell_extension codec *)

Module CellCommon.
Import Trunnel.

(** Modelled from the spec: cell_common.c, which implements
    [cell_extension_parse], [cell_extension_encode] and
    [cell_extension_check], is not among the sources, and the spec only
    names the field [extensions : cell_extension] of a length-prefixed
    cell. This codec is the length-prefixed layout of that file, written
    the way trunnel generates it: a count [num : u8] followed by [num]
    fields [field_type : u8; field_len : u8; field : u8[field_len]].
    The results about the two cells hold for every codec that satisfies
    [CellExtensionLaws]; this one runs them on concrete bytes. *)
Record cell_extension_fields_t : Type := {
  field_type : byte;
  field_len : byte;
  field : list byte;
}.

Record cell_extension_st : Type := {
  num : byte;
  fields : list cell_extension_fields_t;
}.

Definition cell_extension_fields_parse_into : parser cell_extension_fields_t :=
  (ty <- get_u8 ;;
   ln <- get_u8 ;;
   body <- get_bytes (N.to_nat (Byte.to_N ln)) ;;
   pret {| field_type := ty; field_len := ln; field := body |})%parser.

Definition cell_extension_fields_parse (input : list byte)
  : ret (cell_extension_fields_t * nat) :=
  consumed_count cell_extension_fields_parse_into input.

(** [for (idx = 0; idx < obj->num; ++idx)
       result = cell_extension_fields_parse(&elt, ptr, remaining); ...] *)
Fixpoint parse_fields (count : nat) : parser (list cell_extension_fields_t) :=
  match count with
  | O => pret []
  | S k =>
      (f <- nested cell_extension_fields_parse ;;
       fs <- parse_fields k ;;
       pret (f.1 :: fs))%parser
  end.

Definition cell_extension_parse_into : parser cell_extension_st :=
  (n <- get_u8 ;;
   fs <- parse_fields (N.to_nat (Byte.to_N n)) ;;
   pret {| num := n; fields := fs |})%parser.

Definition cell_extension_parse (input : list byte)
  : ret (cell_extension_st * nat) :=
  consumed_count cell_extension_parse_into input.

Definition cell_extension_fields_check (obj : cell_extension_fields_t)
  : option string :=
  if negb (N.of_nat (length (field obj)) =? Byte.to_N (field_len obj))%N then
    Some "Length mismatch for field"%string
  else None.

Fixpoint check_fields (fs : list cell_extension_fields_t) : option string :=
  match fs with
  | [] => None
  | f :: fs =>
      match cell_extension_fields_check f with
      | Some msg => Some msg
      | None => check_fields fs
      end
  end.

Definition cell_extension_check (obj : cell_extension_st) : option string :=
  match check_fields (fields obj) with
  | Some msg => Some msg
  | None =>
      if negb (N.of_nat (length (fields obj)) =? Byte.to_N (num obj))%N then
        Some "Length mismatch for fields"%string
      else None
  end.

Definition cell_extension_fields_encode (avail : nat)
    (obj : cell_extension_fields_t) : ret (list byte) :=
  match cell_extension_fields_check obj with
  | Some _ => Err (-1)
  | None =>
    (w <- put avail [] [field_type obj] ;;
     w <- put avail w [field_len obj] ;;
     w <- put avail w (field obj) ;;
     Ok w)%ret
  end.

Fixpoint encode_fields (avail : nat) (written : list byte)
    (fs : list cell_extension_fields_t) : ret (list byte) :=
  match fs with
  | [] => Ok written
  | f :: fs =>
      if (avail <? length written)%nat then Abort
      else
        (bytes <- cell_extension_fields_encode (avail - length written) f ;;
         encode_fields avail (written ++ bytes) fs)%ret
  end.

Definition cell_extension_encode (avail : nat) (obj : cell_extension_st)
  : ret (list byte) :=
  match cell_extension_check obj with
  | Some _ => Err (-1)
  | None =>
    (w <- put avail [] [num obj] ;;
     encode_fields avail w (fields obj))%ret
  end.

#[export] Instance cell_common : CellExtension := {|
  Trunnel.cell_extension_t := cell_extension_st;
  Trunnel.cell_extension_parse := cell_extension_parse;
  Trunnel.cell_extension_encode := cell_extension_encode;
  Trunnel.cell_extension_check := cell_extension_check;
|}.

(** A well-formed ESTABLISH_INTRO cell: an ed25519 key type, a two-byte
    key, no extension, the MAC, and a one-byte signature. *)
Definition sample_cell : list byte :=
  [x02; x00; x02; xa1; xa2; x00] ++ replicate 32 x11 ++ [x00; x01; xee].

End CellCommon.

(** * The object interface of cell_establish_intro.c *)

Module TrunnelApi.
Import Trunnel.

(** What the encoder of a nested codec guarantees to the encoders that
    call it: it writes within the room it is given, what it writes does
    not depend on the room left over, it answers [-2] when the room is too
    small, and its parser reads back what it wrote. *)
Class CellExtensionEncodeLaws `{CellExtension} : Prop := {
  cell_extension_encode_fits :
    forall avail e c, cell_extension_encode avail e = Ok c ->
      (length c <= avail)%nat /\
      forall avail', (length c <= avail')%nat ->
        cell_extension_encode avail' e = Ok c;
  cell_extension_encode_short :
    forall avail e c avail', cell_extension_encode avail e = Ok c ->
      (avail' < length c)%nat -> cell_extension_encode avail' e = Err (-2);
  cell_extension_encode_parse :
    forall avail e c r, cell_extension_encode avail e = Ok c ->
      cell_extension_parse (c ++ r) = Ok (e, length c);
}.

Definition UINT16_MAX : N := 65535.

Section Objects.
Context `{CellExtension}.

(** The bytes of an object that passes the check, around the encoding
    [ce] of its extensions. *)
Definition layout (obj : hs_cell_establish_intro_t) (ce : list byte)
  : list byte :=
  [auth_key_type obj] ++ trunnel_htons (auth_key_len obj) ++ auth_key obj
    ++ ce ++ array_view TRUNNEL_SHA3_256_LEN (handshake_mac obj)
    ++ trunnel_htons (sig_len obj) ++ sig obj.

(** [trunnel_calloc(1, sizeof(hs_cell_establish_intro_t))]. *)
Definition hs_cell_establish_intro_new : hs_cell_establish_intro_t :=
  {| start_mac_data := 0;
     auth_key_type := x00;
     auth_key_len := 0;
     auth_key := [];
     extensions := None;
     end_mac_data := 0;
     handshake_mac := replicate TRUNNEL_SHA3_256_LEN x00;
     sig_len := 0;
     end_sig_fields := 0;
     sig := [];
     trunnel_error_code_ := false |}.

(** [TRUNNEL_SET_ERROR_CODE(obj)] and the assignment of the error code. *)
Definition set_trunnel_error_code_ (obj : hs_cell_establish_intro_t)
    (code : bool) : hs_cell_establish_intro_t :=
  {| start_mac_data := start_mac_data obj;
     auth_key_type := auth_key_type obj;
     auth_key_len := auth_key_len obj;
     auth_key := auth_key obj;
     extensions := extensions obj;
     end_mac_data := end_mac_data obj;
     handshake_mac := handshake_mac obj;
     sig_len := sig_len obj;
     end_sig_fields := end_sig_fields obj;
     sig := sig obj;
     trunnel_error_code_ := code |}.

(** The setters return their result and the object after the call. *)
Definition hs_cell_establish_intro_set_auth_key_type
    (inp : hs_cell_establish_intro_t) (val : byte)
  : Z * hs_cell_establish_intro_t :=
  if negb (auth_key_type_in_range val) then
    (-1, set_trunnel_error_code_ inp true)
  else
    (0, {| start_mac_data := start_mac_data inp;
           auth_key_type := val;
           auth_key_len := auth_key_len inp;
           auth_key := auth_key inp;
           extensions := extensions inp;
           end_mac_data := end_mac_data inp;
           handshake_mac := handshake_mac inp;
           sig_len := sig_len inp;
           end_sig_fields := end_sig_fields inp;
           sig := sig inp;
           trunnel_error_code_ := trunnel_error_code_ inp |}).

(** [val] is a [uint16_t]. *)
Definition hs_cell_establish_intro_set_auth_key_len
    (inp : hs_cell_establish_intro_t) (val : N)
  : Z * hs_cell_establish_intro_t :=
  (0, {| start_mac_data := start_mac_data inp;
         auth_key_type := auth_key_type inp;
         auth_key_len := val;
         auth_key := auth_key inp;
         extensions := extensions inp;
         end_mac_data := end_mac_data inp;
         handshake_mac := handshake_mac inp;
         sig_len := sig_len inp;
         end_sig_fields := end_sig_fields inp;
         sig := sig inp;
         trunnel_error_code_ := trunnel_error_code_ inp |}).

(** The growth of the array is taken to succeed. *)
Definition hs_cell_establish_intro_add_auth_key
    (inp : hs_cell_establish_intro_t) (elt : byte)
  : Z * hs_cell_establish_intro_t :=
  if (N.of_nat (length (auth_key inp)) =? UINT16_MAX)%N then
    (-1, set_trunnel_error_code_ inp true)
  else
    (0, {| start_mac_data := start_mac_data inp;
           auth_key_type := auth_key_type inp;
           auth_key_len := auth_key_len inp;
           auth_key := auth_key inp ++ [elt];
           extensions := extensions inp;
           end_mac_data := end_mac_data inp;
           handshake_mac := handshake_mac inp;
           sig_len := sig_len inp;
           end_sig_fields := end_sig_fields inp;
           sig := sig inp;
           trunnel_error_code_ := trunnel_error_code_ inp |}).

Definition hs_cell_establish_intro_set_sig_len
    (inp : hs_cell_establish_intro_t) (val : N)
  : Z * hs_cell_establish_intro_t :=
  (0, {| start_mac_data := start_mac_data inp;
         auth_key_type := auth_key_type inp;
         auth_key_len := auth_key_len inp;
         auth_key := auth_key inp;
         extensions := extensions inp;
         end_mac_data := end_mac_data inp;
         handshake_mac := handshake_mac inp;
         sig_len := val;
         end_sig_fields := end_sig_fields inp;
         sig := sig inp;
         trunnel_error_code_ := trunnel_error_code_ inp |}).

Definition hs_cell_establish_intro_add_sig
    (inp : hs_cell_establish_intro_t) (elt : byte)
  : Z * hs_cell_establish_intro_t :=
  if (N.of_nat (length (sig inp)) =? UINT16_MAX)%N then
    (-1, set_trunnel_error_code_ inp true)
  else
    (0, {| start_mac_data := start_mac_data inp;
           auth_key_type := auth_key_type inp;
           auth_key_len := auth_key_len inp;
           auth_key := auth_key inp;
           extensions := extensions inp;
           end_mac_data := end_mac_data inp;
           handshake_mac := handshake_mac inp;
           sig_len := sig_len inp;
           end_sig_fields := end_sig_fields inp;
           sig := sig inp ++ [elt];
           trunnel_error_code_ := trunnel_error_code_ inp |}).

(** [hs_cell_establish_intro_set0_extensions], which
    [hs_cell_establish_intro_set_extensions] calls after it has freed the
    extensions it replaces. *)
Definition hs_cell_establish_intro_set_extensions
    (inp : hs_cell_establish_intro_t) (val : option cell_extension_t)
  : Z * hs_cell_establish_intro_t :=
  (0, {| start_mac_data := start_mac_data inp;
         auth_key_type := auth_key_type inp;
         auth_key_len := auth_key_len inp;
         auth_key := auth_key inp;
         extensions := val;
         end_mac_data := end_mac_data inp;
         handshake_mac := handshake_mac inp;
         sig_len := sig_len inp;
         end_sig_fields := end_sig_fields inp;
         sig := sig inp;
         trunnel_error_code_ := trunnel_error_code_ inp |}).

(** [int r = obj->trunnel_error_code_; obj->trunnel_error_code_ = 0;
     return r]. *)
Definition hs_cell_establish_intro_clear_errors
    (obj : hs_cell_establish_intro_t) : Z * hs_cell_establish_intro_t :=
  (if trunnel_error_code_ obj then 1 else 0, set_trunnel_error_code_ obj false).

(** The calls a user of the object makes between its allocation and its
    encoding. *)
Inductive setter : Type :=
| Set_auth_key_type (val : byte)
| Set_auth_key_len (val : N)
| Add_auth_key (elt : byte)
| Set_extensions (val : option cell_extension_t)
| Set_sig_len (val : N)
| Add_sig (elt : byte).

Definition call_setter (obj : hs_cell_establish_intro_t) (s : setter)
  : Z * hs_cell_establish_intro_t :=
  match s with
  | Set_auth_key_type val => hs_cell_establish_intro_set_auth_key_type obj val
  | Set_auth_key_len val => hs_cell_establish_intro_set_auth_key_len obj val
  | Add_auth_key elt => hs_cell_establish_intro_add_auth_key obj elt
  | Set_extensions val => hs_cell_establish_intro_set_extensions obj val
  | Set_sig_len val => hs_cell_establish_intro_set_sig_len obj val
  | Add_sig elt => hs_cell_establish_intro_add_sig obj elt
  end.

(** The object after the calls, their results being ignored. *)
Definition call_setters (obj : hs_cell_establish_intro_t) (l : list setter)
  : hs_cell_establish_intro_t :=
  fold_left (fun o s => (call_setter o s).2) l obj.

End Objects.

End TrunnelApi.

(** * The SRV computation of the draft revision of shared-random.c *)

Module SRDraft.

(** The primitives of crypto.h the computation calls. *)
Class Crypto : Type := {
  (* int crypto_digest256(char *digest, const char *m, size_t len,
                          digest_algorithm_t algorithm):
     the digest written, or None for a negative return value *)
  crypto_digest256 : list byte -> digest_algorithm_t -> option (list byte);
  (* void crypto_hmac_sha256(char *hmac_out, const char *key, size_t key_len,
                             const char *msg, size_t msg_len) *)
  crypto_hmac_sha256 : list byte -> list byte -> list byte;
}.

Definition DIGEST256_LEN : nat := 32.
Definition UINT8_MAX : nat := 255.

(* #define SR_PROTO_VERSION  1 *)
Definition SR_PROTO_VERSION : N := 1.
(* #define SR_SRV_TOKEN "shared-random" *)
Definition SR_SRV_TOKEN : string := "shared-random".
(* #define SR_SRV_TOKEN_LEN (sizeof(SR_SRV_TOKEN) - 1) *)
Definition SR_SRV_TOKEN_LEN : nat := String.length SR_SRV_TOKEN.

(** Modelled from the spec: the header of this revision, which defines
    SR_SRV_HMAC_MSG_LEN, is not among the sources. The spec gives the
    message as ["shared-random" || u8 || u8 || 32 bytes]. *)
Definition SR_SRV_HMAC_MSG_LEN : nat := SR_SRV_TOKEN_LEN + 1 + 1 + DIGEST256_LEN.

(** Modelled from the spec: SR_SRV_MIN_REVEAL is defined in the same
    missing header. The spec gives the protocol floor as 3, which is also
    what [generate_srv] asserts. *)
Definition SR_SRV_MIN_REVEAL : nat := 3.

Inductive sr_phase_t : Type :=
| SR_PHASE_COMMIT
| SR_PHASE_REVEAL.

Inductive sr_srv_status_t : Type :=
| SR_SRV_STATUS_FRESH
| SR_SRV_STATUS_NONFRESH.

(** The fields of [sr_srv_t] this revision reads and writes. *)
Record sr_srv_t : Type := {
  status : sr_srv_status_t;
  value : list byte;             (* uint8_t value[DIGEST256_LEN] *)
}.

(** The fields of [sr_commit_t] this revision reads and writes. *)
Record sr_commit_t : Type := {
  auth_identity : list byte;     (* ed25519_public_key_t *)
  auth_fingerprint : string;     (* base64 of auth_identity *)
  commit_ts : Z;
  encoded_commit : string;
  reveal_ts : Z;
  encoded_reveal : string;       (* all zero (empty) until the reveal is known *)
  is_authoritative : bool;
  has_majority : bool;
}.

Record sr_state_t : Type := {
  phase : sr_phase_t;
  commitments : gmap (list byte) sr_commit_t;  (* digest256map_t *)
  previous_srv : option sr_srv_t;
  current_srv : option sr_srv_t;
  n_commit_rounds : nat;
  n_reveal_rounds : nat;
  n_protocol_runs : nat;
}.

Definition set_current_srv (st : sr_state_t) (srv : option sr_srv_t)
  : sr_state_t :=
  {| phase := phase st;
     commitments := commitments st;
     previous_srv := previous_srv st;
     current_srv := srv;
     n_commit_rounds := n_commit_rounds st;
     n_reveal_rounds := n_reveal_rounds st;
     n_protocol_runs := n_protocol_runs st |}.

Definition sr_phase_eqb (a b : sr_phase_t) : bool :=
  match a, b with
  | SR_PHASE_COMMIT, SR_PHASE_COMMIT | SR_PHASE_REVEAL, SR_PHASE_REVEAL => true
  | _, _ => false
  end.

(** The sign of [strcmp]: bytes compared as unsigned values, a proper
    prefix first. *)
Definition strcmp (a b : string) : Z :=
  match String.compare a b with
  | Lt => -1
  | Eq => 0
  | Gt => 1
  end.

(* return strcmp(a->auth_fingerprint, b->auth_fingerprint); *)
Definition compare_commit_identity_ (a b : sr_commit_t) : Z :=
  strcmp (auth_fingerprint a) (auth_fingerprint b).

(** [smartlist_sort(commits, compare_commit_identity_)]: the list in
    ascending order of the comparison function. *)
Module CommitOrder <: Orders.TotalLeBool.
Definition t := sr_commit_t.
Definition leb (a b : t) : bool := (compare_commit_identity_ a b <=? 0)%Z.
Theorem leb_total : forall a b, leb a b = true \/ leb b a = true.
Proof.
  intros a b. unfold leb, compare_commit_identity_, strcmp.
  rewrite (String.compare_antisym (auth_fingerprint a)).
  destruct (String.compare (auth_fingerprint b) (auth_fingerprint a));
    simpl; auto.
Qed.
End CommitOrder.

Module CommitSort := Sort CommitOrder.

Definition smartlist_sort (commits : list sr_commit_t) : list sr_commit_t :=
  CommitSort.sort commits.

(* tor_asprintf(&element, <fingerprint><reveal>, commit->auth_fingerprint,
                commit->encoded_reveal); *)
Definition get_srv_element_from_commit (commit : sr_commit_t) : string :=
  (auth_fingerprint commit ++ encoded_reveal commit)%string.

(** [smartlist_join_strings] with the empty separator. *)
Definition smartlist_join_strings (chunks : list string) : string :=
  String.concat EmptyString chunks.

Section Engine.
Context `{Crypto}.

Local Open Scope outcome_scope.

Definition generate_srv (st : sr_state_t) (hashed_reveals : list byte)
    (reveal_num : N) : outcome sr_srv_t :=
  (* Specification requires at least 3 authorities are needed. *)
  tor_assert (3 <=? reveal_num)%N "reveal_num >= 3" ;;;
  (* memset(msg, 0, sizeof(msg)); *)
  let msg := replicate SR_SRV_HMAC_MSG_LEN x00 in
  let offset := 0%nat in
  (* Add the invariant token. *)
  let msg := memcpy_at msg offset (bytes_of_string SR_SRV_TOKEN) in
  let offset := (offset + SR_SRV_TOKEN_LEN)%nat in
  let msg := memcpy_at msg offset [byte_of_N reveal_num] in
  let offset := (offset + 1)%nat in
  let msg := memcpy_at msg offset [byte_of_N SR_PROTO_VERSION] in
  let offset := (offset + 1)%nat in
  let msg :=
    match previous_srv st with
    | Some prev => memcpy_at msg offset (array_view DIGEST256_LEN (value prev))
    | None => msg
    end in
  Returns {| value :=
               crypto_hmac_sha256 (array_view DIGEST256_LEN hashed_reveals) msg;
             status := SR_SRV_STATUS_FRESH |}.

Definition generate_srv_disaster (st : sr_state_t) : outcome sr_srv_t :=
  let invariant := "shared-random-disaster"%string in
  match previous_srv st with
  | None => Null_dereference "sr_state->previous_srv"
  | Some prev =>
      Returns {| value :=
                   crypto_hmac_sha256 (array_view DIGEST256_LEN (value prev))
                                      (bytes_of_string invariant);
                 status := SR_SRV_STATUS_NONFRESH |}
  end.

Definition compute_shared_random_value (st : sr_state_t)
  : outcome sr_state_t :=
  tor_assert (sr_phase_eqb (phase st) SR_PHASE_REVEAL)
             "sr_state->phase == SR_PHASE_REVEAL" ;;;
  let reveal_num := size (commitments st) in
  tor_assert (reveal_num <? UINT8_MAX)%nat "reveal_num < UINT8_MAX" ;;;
  (* No reveal values means that we are booting up in the reveal phase thus
     we shouldn't try to compute a shared random value. *)
  if (reveal_num =? 0)%nat then Returns st
  (* Make sure we have enough reveal values and if not, generate the
     disaster srv value and stop right away. *)
  else if (reveal_num <? SR_SRV_MIN_REVEAL)%nat then
    srv <- generate_srv_disaster st ;;
    Returns (set_current_srv st (Some srv))
  else
    (* DIGEST256MAP_FOREACH ... smartlist_add(commits, c) *)
    let commits := (map_to_list (commitments st)).*2 in
    let commits := smartlist_sort commits in
    let chunks := map get_srv_element_from_commit commits in
    let reveals := smartlist_join_strings chunks in
    match crypto_digest256 (bytes_of_string reveals) DIGEST_SHA256 with
    | None => Returns st     (* Unable to hash the reveals. Stopping. *)
    | Some hashed_reveals =>
        srv <- generate_srv st hashed_reveals (N.of_nat reveal_num mod 256) ;;
        Returns (set_current_srv st (Some srv))
    end.

End Engine.

(** ** The computation in the words of the specification *)

(** A commit has a reveal when [encoded_reveal] is not all zero. *)
Definition commit_has_reveal_value (c : sr_commit_t) : bool :=
  negb (String.eqb (encoded_reveal c) EmptyString).

(** The set C of the specification, as the commits of the state that
    carry a reveal. *)
Definition revealed_commits (st : sr_state_t) : list sr_commit_t :=
  filter (fun c => commit_has_reveal_value c = true)
         (map_to_list (commitments st)).*2.

(** [R]: the concatenation of [auth_fingerprint || encoded_reveal]. *)
Definition reveals_buffer (l : list sr_commit_t) : list byte :=
  bytes_of_string
    (String.concat EmptyString (map get_srv_element_from_commit l)).

(** [previous_srv.value], or 32 zero bytes. *)
Definition previous_value_or_zeros (st : sr_state_t) : list byte :=
  match previous_srv st with
  | Some prev => value prev
  | None => replicate 32 x00
  end.

(** [M = "shared-random" || u8(n) || u8(PROTO_VERSION) || previous]. *)
Definition srv_message (n : nat) (st : sr_state_t) : list byte :=
  bytes_of_string "shared-random" ++ [byte_of_N (N.of_nat n)]
    ++ [byte_of_N SR_PROTO_VERSION] ++ previous_value_or_zeros st.

(** The value of the specification's steps 1 to 5, with SHA3-256. *)
Definition spec_srv_value `{Crypto} (st : sr_state_t) : option (list byte) :=
  let c := smartlist_sort (revealed_commits st) in
  match crypto_digest256 (reveals_buffer c) DIGEST_SHA3_256 with
  | Some hashed_reveals =>
      Some (crypto_hmac_sha256 hashed_reveals (srv_message (length c) st))
  | None => None
  end.

(** Primitives that keep their arguments readable in their result: the
    digest starts with a byte naming the algorithm, the MAC is the key
    followed by the message. They stand for any primitives for which
    different calls give different results. *)
Definition digest_algorithm_tag (a : digest_algorithm_t) : byte :=
  match a with
  | DIGEST_SHA1 => x01
  | DIGEST_SHA256 => x02
  | DIGEST_SHA512 => x03
  | DIGEST_SHA3_256 => x04
  | DIGEST_SHA3_512 => x05
  end.

(** Sample data: commits of three authorities and states of a run in its
    reveal phase. *)
Definition sample_commit (id : byte) (fingerprint reveal : string)
  : sr_commit_t :=
  {| auth_identity := [id];
     auth_fingerprint := fingerprint;
     commit_ts := 1460502000;
     encoded_commit := "commit";
     reveal_ts := 1460502000;
     encoded_reveal := reveal;
     is_authoritative := false;
     has_majority := true |}.

Definition sample_srv : sr_srv_t :=
  {| status := SR_SRV_STATUS_FRESH; value := replicate 32 x11 |}.

Definition sample_state (l : list sr_commit_t) (prev : option sr_srv_t)
  : sr_state_t :=
  {| phase := SR_PHASE_REVEAL;
     commitments := list_to_map (map (fun c => (auth_identity c, c)) l);
     previous_srv := prev;
     current_srv := None;
     n_commit_rounds := 12;
     n_reveal_rounds := 12;
     n_protocol_runs := 1 |}.

Definition three_commits : list sr_commit_t :=
  [sample_commit x0b "Bfingerprint" "Breveal";
   sample_commit x0a "Afingerprint" "Areveal";
   sample_commit x0c "Cfingerprint" "Creveal"].

Definition readable_crypto : Crypto := {|
  crypto_digest256 m a :=
    Some (array_view DIGEST256_LEN (digest_algorithm_tag a :: m));
  crypto_hmac_sha256 key msg := key ++ msg;
|}.

End SRDraft.

(** * The merged revision: shared-random.c and shared-random-state.c *)

Module SR.

Local Open Scope outcome_scope.

(** ** Constants *)

(* #define SR_PROTO_VERSION  1 *)
Definition SR_PROTO_VERSION : Z := 1.
(* #define SR_DIGEST_ALG DIGEST_SHA3_256 *)
Definition SR_DIGEST_ALG : digest_algorithm_t := DIGEST_SHA3_256.
Definition DIGEST_LEN : nat := 20.
Definition DIGEST256_LEN : nat := 32.
Definition HEX_DIGEST256_LEN : nat := 64.
Definition FINGERPRINT_LEN : nat := 40.
(* #define SR_COMMIT_LEN (DIGEST256_LEN + 8) *)
Definition SR_COMMIT_LEN : nat := DIGEST256_LEN + 8.
(* #define SR_REVEAL_LEN (8 + DIGEST256_LEN) *)
Definition SR_REVEAL_LEN : nat := 8 + DIGEST256_LEN.
(* #define SR_COMMIT_BASE64_LEN (((SR_COMMIT_LEN - 1) / 3) * 4 + 4) *)
Definition SR_COMMIT_BASE64_LEN : nat := ((SR_COMMIT_LEN - 1) / 3) * 4 + 4.
(* #define SR_REVEAL_BASE64_LEN (((SR_REVEAL_LEN - 1) / 3) * 4 + 4) *)
Definition SR_REVEAL_BASE64_LEN : nat := ((SR_REVEAL_LEN - 1) / 3) * 4 + 4.
Definition INT32_MAX : Z := 2147483647.
(* #define SR_DISK_STATE_MAGIC 0x98AB1254 *)
Definition SR_DISK_STATE_MAGIC : Z := 0x98AB1254.
(* #define SHARED_RANDOM_N_ROUNDS 12 *)
Definition SHARED_RANDOM_N_ROUNDS : Z := 12.
(* #define SHARED_RANDOM_N_PHASES 2 *)
Definition SHARED_RANDOM_N_PHASES : Z := 2.
Definition EINVAL : Z := 22.
Definition ENOENT : Z := 2.

Definition default_fname : string := "sr-state".
Definition dstate_commit_key : string := "Commit".
Definition dstate_prev_srv_key : string := "SharedRandPreviousValue".
Definition dstate_cur_srv_key : string := "SharedRandCurrentValue".

(** ** Data *)

Inductive sr_phase_t : Type :=
| SR_PHASE_COMMIT
| SR_PHASE_REVEAL.

Record sr_srv_t : Type := {
  num_reveals : Z;               (* int *)
  value : list byte;             (* uint8_t value[DIGEST256_LEN] *)
}.

Record sr_commit_t : Type := {
  alg : digest_algorithm_t;
  auth_identity : list byte;     (* ed25519_public_key_t *)
  auth_fingerprint : string;
  rsa_identity_fpr : string;     (* char [FINGERPRINT_LEN + 1] *)
  reveal_ts : Z;                 (* time_t *)
  hashed_reveal : list byte;     (* char [DIGEST256_LEN] *)
  encoded_commit : string;       (* char [SR_COMMIT_BASE64_LEN + 1] *)
  random_number : list byte;     (* char [DIGEST256_LEN] *)
  commit_ts : Z;                 (* time_t *)
  encoded_reveal : string;       (* char [SR_REVEAL_BASE64_LEN + 1] *)
}.

Record sr_state_t : Type := {
  fname : string;
  version : Z;
  phase : sr_phase_t;
  valid_after : Z;               (* time_t *)
  valid_until : Z;               (* time_t *)
  commits : gmap (list byte) sr_commit_t;      (* digestmap_t *)
  previous_srv : option sr_srv_t;
  current_srv : option sr_srv_t;
  n_commit_rounds : Z;
  n_reveal_rounds : Z;
  n_protocol_runs : Z;
  is_srv_fresh : bool;
}.

Record config_line_t : Type := {
  cl_key : string;
  cl_value : option string;      (* char *, may be NULL *)
}.

Record sr_disk_state_t : Type := {
  magic_ : Z;
  Version : Z;
  ValidUntil : Z;                (* time_t *)
  ValidAfter : Z;                (* time_t *)
  Commits : list config_line_t;
  SharedRandValues : list config_line_t;
  ExtraLines : list config_line_t;
}.

(** [file_status()] of util.h. *)
Inductive file_status_t : Type :=
| FN_ERROR
| FN_NOENT
| FN_FILE
| FN_DIR
| FN_EMPTY.

(** What the data directory holds under the name of the state file. A
    regular file that cannot be read has no content. *)
Inductive fs_node : Type :=
| Absent
| EmptyFile
| RegularFile (content : option string)
| Directory
| StatError.

Definition file_status (node : fs_node) : file_status_t :=
  match node with
  | Absent => FN_NOENT
  | EmptyFile => FN_EMPTY
  | RegularFile _ => FN_FILE
  | Directory => FN_DIR
  | StatError => FN_ERROR
  end.

(** The two globals of shared-random-state.c and the file they are saved
    to; [fs_writable] tells whether [write_str_to_file] succeeds. *)
Record world : Type := {
  sr_state : option sr_state_t;
  sr_disk_state : option sr_disk_state_t;
  sr_file : fs_node;
  fs_writable : bool;
}.

(** ** Interfaces of the rest of the tree *)

(** util.c, util_format.c, crypto.c, crypto_ed25519.c, container.c. *)
Class Text : Type := {
  (* long tor_parse_long(s, base, min, max, &ok, NULL): the result and ok *)
  tor_parse_long : string -> Z -> Z -> Z -> Z * bool;
  (* int base16_decode(dest, destlen, src, srclen): the result and the
     bytes of dest afterwards, given the bytes of dest before *)
  base16_decode : list byte -> string -> nat -> Z * list byte;
  (* base16_encode of a byte array *)
  base16_encode : list byte -> string;
  (* int base64_decode(dest, destlen, src, srclen): the result and the
     decoded bytes *)
  base64_decode : nat -> string -> Z * list byte;
  (* smartlist_split_string(sl, str, " ",
                            SPLIT_SKIP_SPACE|SPLIT_IGNORE_BLANK, 0) *)
  smartlist_split_string : string -> list string;
  (* crypto_digest_algorithm_parse_name: None for -1 *)
  crypto_digest_algorithm_parse_name : string -> option digest_algorithm_t;
  crypto_digest_algorithm_get_name : digest_algorithm_t -> string;
  (* ed25519_public_from_base64: None for a negative result *)
  ed25519_public_from_base64 : string -> option (list byte);
  ed25519_public_to_base64 : list byte -> string;
}.

(** config.c and dirvote.c. *)
Class Voting : Type := {
  (* get_options()->V3AuthVotingInterval *)
  V3AuthVotingInterval : Z;
  (* get_options()->TestingV3AuthVotingStartOffset *)
  TestingV3AuthVotingStartOffset : Z;
  (* get_voting_schedule(options, now, LOG_INFO)->interval_starts *)
  voting_schedule_interval_starts : Z -> Z;
  (* dirvote_get_start_of_next_interval(now, interval, offset) *)
  dirvote_get_start_of_next_interval : Z -> Z -> Z -> Z;
  (* get_next_valid_after_time(now) *)
  get_next_valid_after_time : Z -> Z;
}.

(** confparse.c, over the format [state_format] of the state file. *)
Class ConfParse : Type := {
  (* config_get_lines(content, &lines, 0) then
     config_assign(&state_format, disk_state, lines, 0, 0, &errmsg):
     the assigned disk state, or None when either reports an error *)
  config_read : sr_disk_state_t -> string -> option sr_disk_state_t;
  (* config_dump(&state_format, NULL, sr_disk_state, 0, 0) *)
  config_dump : sr_disk_state_t -> string;
  (* format_local_iso_time(tbuf, now) *)
  format_local_iso_time : Z -> string;
}.

(** ** String helpers *)

Definition tolower (c : ascii) : ascii :=
  let n := N_of_ascii c in
  if ((65 <=? n) && (n <=? 90))%N then ascii_of_N (n + 32) else c.

Fixpoint string_tolower (s : string) : string :=
  match s with
  | EmptyString => EmptyString
  | String c s => String (tolower c) (string_tolower s)
  end.

(** [!strcasecmp(a, b)]. *)
Definition strcasecmp_eq (a b : string) : bool :=
  String.eqb (string_tolower a) (string_tolower b).

(** [smartlist_get(args, i)] for an index in range. *)
Definition smartlist_get (args : list string) (i : nat) : string :=
  nth i args EmptyString.

(** [strlcpy] / [strncpy] into a zeroed [char dst[n + 1]]. *)
Definition strlcpy (n : nat) (src : string) : string :=
  substring 0 n src.

(** [tor_ntohll(get_uint64(p))] cast to [time_t]. *)
Definition be_uint64 (l : list byte) : Z :=
  fold_left (fun acc b => acc * 256 + Z.of_N (Byte.to_N b)) (take 8 l) 0.

Definition time_t_of_uint64 (v : Z) : Z :=
  if (v <? 2 ^ 63) then v else v - 2 ^ 64.

(** The value of an [int] expression as the machine computes it: the
    mathematical value wrapped to 32 bits, two's complement. *)
Definition int_of (z : Z) : Z := (z + 2 ^ 31) mod 2 ^ 32 - 2 ^ 31.

(** The [%d] of [tor_asprintf]. *)
Definition format_int (z : Z) : string := NilZero.string_of_int (Z.to_int z).

(** The key a [digestmap_t] reads at a [char *]: DIGEST_LEN bytes. *)
Definition digestmap_key (s : string) : list byte :=
  array_view DIGEST_LEN (bytes_of_string s).

(** ** shared-random.c *)

Section SharedRandom.
Context `{Text}.

Definition commit_new (identity : list byte) (rsa_fpr : string)
  : sr_commit_t :=
  {| alg := SR_DIGEST_ALG;
     auth_identity := identity;
     auth_fingerprint := ed25519_public_to_base64 identity;
     rsa_identity_fpr := strlcpy FINGERPRINT_LEN rsa_fpr;
     reveal_ts := 0;
     hashed_reveal := replicate DIGEST256_LEN x00;
     encoded_commit := EmptyString;
     random_number := replicate DIGEST256_LEN x00;
     commit_ts := 0;
     encoded_reveal := EmptyString |}.

(** [None] stands for the return value -1. *)
Definition commit_decode (encoded : string) (commit : sr_commit_t)
  : option sr_commit_t :=
  if (SR_COMMIT_BASE64_LEN <? String.length encoded)%nat then None
  else
    let '(decoded_len, decoded) := base64_decode (SR_COMMIT_LEN + 2) encoded in
    let b64_decoded := array_view (SR_COMMIT_LEN + 2) decoded in
    if decoded_len <? 0 then None
    else if decoded_len <? Z.of_nat SR_COMMIT_LEN then None
    else
      Some {| alg := alg commit;
              auth_identity := auth_identity commit;
              auth_fingerprint := auth_fingerprint commit;
              rsa_identity_fpr := rsa_identity_fpr commit;
              reveal_ts := reveal_ts commit;
              (* First is the hashed reveal. *)
              hashed_reveal := take DIGEST256_LEN b64_decoded;
              (* Copy the base64 blob to the commit. *)
              encoded_commit := strlcpy (SR_COMMIT_BASE64_LEN + 1) encoded;
              random_number := random_number commit;
              (* Next is timestamp. *)
              commit_ts :=
                time_t_of_uint64 (be_uint64 (drop DIGEST256_LEN b64_decoded));
              encoded_reveal := encoded_reveal commit |}.

Definition reveal_decode (encoded : string) (commit : sr_commit_t)
  : option sr_commit_t :=
  if (SR_REVEAL_BASE64_LEN <? String.length encoded)%nat then None
  else
    let '(decoded_len, decoded) := base64_decode (SR_REVEAL_LEN + 2) encoded in
    let b64_decoded := array_view (SR_REVEAL_LEN + 2) decoded in
    if decoded_len <? 0 then None
    else if decoded_len <? Z.of_nat SR_REVEAL_LEN then None
    else
      Some {| alg := alg commit;
              auth_identity := auth_identity commit;
              auth_fingerprint := auth_fingerprint commit;
              rsa_identity_fpr := rsa_identity_fpr commit;
              reveal_ts := time_t_of_uint64 (be_uint64 b64_decoded);
              hashed_reveal := hashed_reveal commit;
              encoded_commit := encoded_commit commit;
              (* Copy the last part, the random value. *)
              random_number := take DIGEST256_LEN (drop 8 b64_decoded);
              commit_ts := commit_ts commit;
              (* Also copy the whole message to use during verification *)
              encoded_reveal := strlcpy (SR_REVEAL_BASE64_LEN + 1) encoded |}.

(** [None] stands for NULL. The arguments' order: num_reveals, value. *)
Definition sr_parse_srv (args : list string) : option sr_srv_t :=
  if (length args <? 2)%nat then None
  else
    (* First argument is the number of reveal values *)
    let '(parsed, ok) :=
      tor_parse_long (smartlist_get args 0) 10 0 INT32_MAX in
    if negb ok then None
    else
      (* srv = tor_malloc_zero(sizeof( *srv)); srv->num_reveals = ... *)
      (* Second and last argument is the shared random value it self:
         the result of base16_decode is not looked at. *)
      let '(_, decoded) :=
        base16_decode (replicate DIGEST256_LEN x00) (smartlist_get args 1)
                      HEX_DIGEST256_LEN in
      Some {| num_reveals := parsed; value := decoded |}.

(** The commit's data: algname, ed25519 identity, RSA fingerprint, commit
    value[, reveal value]. *)
Definition sr_parse_commit (args : list string) : option sr_commit_t :=
  if (length args <? 4)%nat then None
  else
    (* First argument is the algorithm. *)
    match crypto_digest_algorithm_parse_name (smartlist_get args 0) with
    | Some DIGEST_SHA3_256 =>
      (* Second arg is the authority ed25519 identity. *)
      match ed25519_public_from_base64 (smartlist_get args 1) with
      | None => None
      | Some pubkey =>
        (* Third argument is the RSA fingerprint of the auth *)
        let commit := commit_new pubkey (smartlist_get args 2) in
        (* Fourth argument is the commitment value base64-encoded. *)
        match commit_decode (smartlist_get args 3) commit with
        | None => None
        | Some commit =>
          (* (Optional) Fifth argument is the revealed value. *)
          if (4 <? length args)%nat then
            reveal_decode (smartlist_get args 4) commit
          else Some commit
        end
      end
    | _ => None
    end.

End SharedRandom.

(** ** shared-random-state.c *)

Section State.
Context `{Text} `{Voting} `{ConfParse}.

Definition get_voting_interval : Z := V3AuthVotingInterval.

Definition get_start_time_of_current_round (now : Z) : Z :=
  let voting_interval := get_voting_interval in
  (* First, get the start time of the next round *)
  let next_start := voting_schedule_interval_starts now in
  (* Now roll back next_start by a voting interval *)
  dirvote_get_start_of_next_interval
    (next_start - voting_interval - 1) voting_interval
    TestingV3AuthVotingStartOffset.

Definition get_state_valid_until_time (now : Z) : Z :=
  let total_rounds := SHARED_RANDOM_N_ROUNDS * SHARED_RANDOM_N_PHASES in
  let voting_interval := get_voting_interval in
  let beginning_of_current_round := get_start_time_of_current_round now in
  let current_round := Z.rem (Z.quot now voting_interval) total_rounds in
  let rounds_left := total_rounds - current_round in
  (* the product of two ints is an int *)
  beginning_of_current_round + int_of (rounds_left * voting_interval).

Definition get_sr_protocol_phase (valid_after : Z) : sr_phase_t :=
  let total_periods := SHARED_RANDOM_N_ROUNDS * SHARED_RANDOM_N_PHASES in
  let current_slot :=
    Z.rem (Z.quot valid_after get_voting_interval) total_periods in
  if current_slot <? SHARED_RANDOM_N_ROUNDS then SR_PHASE_COMMIT
  else SR_PHASE_REVEAL.

Definition set_commits (st : sr_state_t) (m : gmap (list byte) sr_commit_t)
  : sr_state_t :=
  {| fname := fname st; version := version st; phase := phase st;
     valid_after := valid_after st; valid_until := valid_until st;
     commits := m;
     previous_srv := previous_srv st; current_srv := current_srv st;
     n_commit_rounds := n_commit_rounds st;
     n_reveal_rounds := n_reveal_rounds st;
     n_protocol_runs := n_protocol_runs st;
     is_srv_fresh := is_srv_fresh st |}.

Definition set_previous_srv (st : sr_state_t) (srv : option sr_srv_t)
  : sr_state_t :=
  {| fname := fname st; version := version st; phase := phase st;
     valid_after := valid_after st; valid_until := valid_until st;
     commits := commits st;
     previous_srv := srv; current_srv := current_srv st;
     n_commit_rounds := n_commit_rounds st;
     n_reveal_rounds := n_reveal_rounds st;
     n_protocol_runs := n_protocol_runs st;
     is_srv_fresh := is_srv_fresh st |}.

Definition set_current_srv (st : sr_state_t) (srv : option sr_srv_t)
  : sr_state_t :=
  {| fname := fname st; version := version st; phase := phase st;
     valid_after := valid_after st; valid_until := valid_until st;
     commits := commits st;
     previous_srv := previous_srv st; current_srv := srv;
     n_commit_rounds := n_commit_rounds st;
     n_reveal_rounds := n_reveal_rounds st;
     n_protocol_runs := n_protocol_runs st;
     is_srv_fresh := is_srv_fresh st |}.

Definition set_valid_after (st : sr_state_t) (t : Z) : sr_state_t :=
  {| fname := fname st; version := version st; phase := phase st;
     valid_after := t; valid_until := valid_until st;
     commits := commits st;
     previous_srv := previous_srv st; current_srv := current_srv st;
     n_commit_rounds := n_commit_rounds st;
     n_reveal_rounds := n_reveal_rounds st;
     n_protocol_runs := n_protocol_runs st;
     is_srv_fresh := is_srv_fresh st |}.

(** It MUST be a valid commit and there shouldn't be a commit from the
    same authority in the state already else verification hasn't been
    done prior. *)
Definition commit_add_to_state (commit : sr_commit_t) (state : sr_state_t)
  : outcome sr_state_t :=
  let key := digestmap_key (rsa_identity_fpr commit) in
  (* saved_commit = digestmap_set(state->commits, ..., commit); *)
  let saved_commit := commits state !! key in
  let state := set_commits state (<[key := commit]> (commits state)) in
  tor_assert (bool_decide (saved_commit = None)) "saved_commit == NULL" ;;;
  Returns state.

Definition state_new (file : option string) (now : Z) : sr_state_t :=
  let valid_after := get_next_valid_after_time now in
  {| fname := match file with Some f => f | None => default_fname end;
     version := SR_PROTO_VERSION;
     phase := get_sr_protocol_phase valid_after;
     valid_after := 0;
     valid_until := get_state_valid_until_time valid_after;
     commits := ∅;
     previous_srv := None;
     current_srv := None;
     n_commit_rounds := 0;
     n_reveal_rounds := 0;
     n_protocol_runs := 0;
     is_srv_fresh := false |}.

Definition disk_state_new (now : Z) : sr_disk_state_t :=
  {| magic_ := SR_DISK_STATE_MAGIC;
     Version := SR_PROTO_VERSION;
     ValidUntil := get_state_valid_until_time now;
     ValidAfter := now;
     Commits := [];
     SharedRandValues := [];
     ExtraLines := [] |}.

(** Return -1 if the disk state is invalid. Return 0 if everything checks
    out. [now] is [time(NULL)]. *)
Definition disk_state_validate (now : Z) (state : sr_disk_state_t) : Z :=
  (* Do we support the protocol version in the state? *)
  if SR_PROTO_VERSION <? Version state then -1
  (* If the valid until time is before now, we shouldn't use that state. *)
  else if ValidUntil state <? now then -1
  (* Make sure we don't have a valid after time that is earlier than a
     valid until time which would make things not work well. *)
  else if ValidUntil state <=? ValidAfter state then -1
  else 0.

(** Return the state with the commits of the lines added, or None for
    the return value -1. *)
Fixpoint disk_state_parse_commits (lines : list config_line_t)
    (state : sr_state_t) : outcome (option sr_state_t) :=
  match lines with
  | [] => Returns (Some state)
  | line :: rest =>
      match cl_value line with
      | Some v =>
          if negb (strcasecmp_eq (cl_key line) dstate_commit_key) then
            (* Ignore any lines that are not commits. *)
            disk_state_parse_commits rest state
          else
            let args := smartlist_split_string v in
            if (length args <? 3)%nat then Returns None
            else match sr_parse_commit args with
            | None => Returns None
            | Some commit =>
                (* Add commit to our state pointer. *)
                state <- commit_add_to_state commit state ;;
                disk_state_parse_commits rest state
            end
      | None => disk_state_parse_commits rest state
      end
  end.

(** Return the parsed SRV, or None for the return value -1. *)
Definition disk_state_parse_srv (v : string) : option sr_srv_t :=
  let args := smartlist_split_string v in
  if (length args <? 2)%nat then None
  else match sr_parse_srv args with
  | None => None
  | Some srv => Some {| num_reveals := num_reveals srv;
                        value := array_view DIGEST256_LEN (value srv) |}
  end.

Fixpoint disk_state_parse_sr_values (lines : list config_line_t)
    (state : sr_state_t) : option sr_state_t :=
  match lines with
  | [] => Some state
  | line :: rest =>
      match cl_value line with
      | None => disk_state_parse_sr_values rest state
      | Some v =>
          match disk_state_parse_srv v with
          | None => None                  (* Broken current SRV line *)
          | Some srv =>
              if strcasecmp_eq (cl_key line) dstate_prev_srv_key then
                disk_state_parse_sr_values rest (set_previous_srv state (Some srv))
              else if strcasecmp_eq (cl_key line) dstate_cur_srv_key then
                disk_state_parse_sr_values rest (set_current_srv state (Some srv))
              else
                (* Unknown key. Ignoring. *)
                disk_state_parse_sr_values rest state
          end
      end
  end.

(** On success, return that state else NULL. *)
Definition disk_state_parse (now : Z) (new_disk_state : sr_disk_state_t)
  : outcome (option sr_state_t) :=
  let new_state := state_new (Some default_fname) now in
  let new_state :=
    {| fname := fname new_state;
       version := Version new_disk_state;
       phase := phase new_state;
       valid_after := ValidAfter new_disk_state;
       valid_until := ValidUntil new_disk_state;
       commits := commits new_state;
       previous_srv := previous_srv new_state;
       current_srv := current_srv new_state;
       n_commit_rounds := n_commit_rounds new_state;
       n_reveal_rounds := n_reveal_rounds new_state;
       n_protocol_runs := n_protocol_runs new_state;
       is_srv_fresh := is_srv_fresh new_state |} in
  (* Parse the shared random values. *)
  match disk_state_parse_sr_values (SharedRandValues new_disk_state) new_state
  with
  | None => Returns None
  | Some new_state =>
      (* Parse the commits. *)
      disk_state_parse_commits (Commits new_disk_state) new_state
  end.

Definition disk_state_put_commit_line (commit : sr_commit_t) : string :=
  let reveal_str :=
    if String.eqb (encoded_reveal commit) EmptyString then EmptyString
    else (" " ++ encoded_reveal commit)%string in
  (crypto_digest_algorithm_get_name (alg commit) ++ " "
   ++ rsa_identity_fpr commit ++ " " ++ encoded_commit commit
   ++ reveal_str)%string.

Definition disk_state_put_srv_line (srv : sr_srv_t) : string :=
  (format_int (num_reveals srv) ++ " "
   ++ base16_encode (array_view DIGEST256_LEN (value srv)))%string.

(** [disk_state_reset] then the copy of the memory state. *)
Definition disk_state_update (state : sr_state_t) : sr_disk_state_t :=
  {| magic_ := SR_DISK_STATE_MAGIC;
     Version := version state;
     ValidUntil := valid_until state;
     ValidAfter := valid_after state;
     Commits :=
       map (fun kc => {| cl_key := dstate_commit_key;
                         cl_value := Some (disk_state_put_commit_line kc.2) |})
           (map_to_list (commits state));
     SharedRandValues :=
       match previous_srv state with
       | Some srv =>
           [{| cl_key := dstate_prev_srv_key;
               cl_value := Some (disk_state_put_srv_line srv) |}]
       | None => []
       end ++
       match current_srv state with
       | Some srv =>
           [{| cl_key := dstate_cur_srv_key;
               cl_value := Some (disk_state_put_srv_line srv) |}]
       | None => []
       end;
     ExtraLines := [] |}.

Definition state_file_content (now : Z) (disk_state : sr_disk_state_t)
  : string :=
  ("# Tor shared random state file last generated on "
   ++ format_local_iso_time now ++ " local time" ++ String "010" EmptyString
   ++ "# Other times below are in UTC" ++ String "010" EmptyString
   ++ "# Please *do not* edit this file." ++ String "010" EmptyString
   ++ String "010" EmptyString
   ++ config_dump disk_state)%string.

(** Return 0 on success else -1. *)
Definition disk_state_save_to_disk (now : Z) (w : world)
  : outcome (Z * world) :=
  match sr_disk_state w with
  | None => Returns (0, w)
  | Some _ =>
      (* disk_state_update(): tor_assert(sr_disk_state); tor_assert(sr_state) *)
      match sr_state w with
      | None => Assertion_failure "sr_state"
      | Some state =>
          let disk_state := disk_state_update state in
          let w := {| sr_state := sr_state w;
                      sr_disk_state := Some disk_state;
                      sr_file := sr_file w;
                      fs_writable := fs_writable w |} in
          if fs_writable w then
            Returns (0, {| sr_state := sr_state w;
                           sr_disk_state := sr_disk_state w;
                           sr_file :=
                             RegularFile
                               (Some (state_file_content now disk_state));
                           fs_writable := fs_writable w |})
          else Returns (-1, w)
      end
  end.

(** The result and the world after the call. *)
Definition disk_state_load_from_disk_impl (now : Z) (w : world)
  : outcome (Z * world) :=
  match file_status (sr_file w), sr_file w with
  | FN_FILE, RegularFile content =>
      let disk_state := disk_state_new now in
      match content with
      | None => Returns (- EINVAL, w)     (* Unable to read SR state file *)
      | Some content =>
          match config_read disk_state content with
          | None => Returns (- EINVAL, w)
          | Some disk_state =>
              if disk_state_validate now disk_state <? 0 then
                Returns (- EINVAL, w)
              else
                parsed_state <- disk_state_parse now disk_state ;;
                match parsed_state with
                | None => Returns (- EINVAL, w)
                | Some parsed_state =>
                    Returns (0, {| sr_state := Some parsed_state;
                                   sr_disk_state := Some disk_state;
                                   sr_file := sr_file w;
                                   fs_writable := fs_writable w |})
                end
          end
      end
  | FN_NOENT, _ | FN_EMPTY, _ => Returns (- ENOENT, w)
  | _, _ => Returns (- EINVAL, w)
  end.

(** *** The single entry point to the memory state *)

Inductive sr_state_action_t : Type :=
| SR_STATE_ACTION_GET
| SR_STATE_ACTION_PUT
| SR_STATE_ACTION_DEL_ALL
| SR_STATE_ACTION_SAVE.

Inductive sr_state_object_t : Type :=
| SR_STATE_OBJ_COMMIT
| SR_STATE_OBJ_COMMITS
| SR_STATE_OBJ_CURSRV
| SR_STATE_OBJ_PREVSRV
| SR_STATE_OBJ_PHASE
| SR_STATE_OBJ_VALID_AFTER.

(** What [void *data] points to, and what is stored through [void **out]. *)
Inductive query_data : Type :=
| NoData
| FingerprintData (rsa_fpr : string)
| CommitData (commit : sr_commit_t)
| SrvData (srv : option sr_srv_t)
| TimeData (t : Z).

Inductive query_out : Type :=
| NoOut
| CommitOut (commit : option sr_commit_t)
| CommitsOut (m : gmap (list byte) sr_commit_t)
| SrvOut (srv : option sr_srv_t)
| PhaseOut (p : sr_phase_t).

Definition with_state {A} (w : world) (f : sr_state_t -> outcome A)
  : outcome A :=
  match sr_state w with
  | Some state => f state
  | None => Null_dereference "sr_state"
  end.

Definition put_state (w : world) (state : sr_state_t) : world :=
  {| sr_state := Some state;
     sr_disk_state := sr_disk_state w;
     sr_file := sr_file w;
     fs_writable := fs_writable w |}.

Definition state_query_get_ (obj_type : sr_state_object_t) (data : query_data)
    (w : world) : outcome query_out :=
  with_state w (fun state =>
    match obj_type, data with
    | SR_STATE_OBJ_COMMIT, FingerprintData rsa_fpr =>
        Returns (CommitOut (commits state !! digestmap_key rsa_fpr))
    | SR_STATE_OBJ_COMMIT, _ => Assertion_failure "rsa_fpr"
    | SR_STATE_OBJ_COMMITS, _ => Returns (CommitsOut (commits state))
    | SR_STATE_OBJ_CURSRV, _ => Returns (SrvOut (current_srv state))
    | SR_STATE_OBJ_PREVSRV, _ => Returns (SrvOut (previous_srv state))
    | SR_STATE_OBJ_PHASE, _ => Returns (PhaseOut (phase state))
    | SR_STATE_OBJ_VALID_AFTER, _ => Assertion_failure "0"
    end).

Definition state_query_put_ (obj_type : sr_state_object_t) (data : query_data)
    (w : world) : outcome world :=
  match obj_type, data with
  | SR_STATE_OBJ_COMMIT, CommitData commit =>
      with_state w (fun state =>
        state <- commit_add_to_state commit state ;;
        Returns (put_state w state))
  | SR_STATE_OBJ_COMMIT, _ => Assertion_failure "commit"
  | SR_STATE_OBJ_CURSRV, SrvData srv =>
      with_state w (fun state => Returns (put_state w (set_current_srv state srv)))
  | SR_STATE_OBJ_PREVSRV, SrvData srv =>
      with_state w (fun state => Returns (put_state w (set_previous_srv state srv)))
  | SR_STATE_OBJ_VALID_AFTER, TimeData t =>
      with_state w (fun state => Returns (put_state w (set_valid_after state t)))
  (* It's not allowed to change the phase nor the full commitments map. *)
  | _, _ => Assertion_failure "0"
  end.

Definition state_query_del_all_ (obj_type : sr_state_object_t) (w : world)
  : outcome world :=
  match obj_type with
  | SR_STATE_OBJ_COMMIT =>
      with_state w (fun state => Returns (put_state w (set_commits state ∅)))
  | _ => Assertion_failure "0"
  end.

(** If the action actually changes the state, immediately save it to
    disk. *)
Definition state_query (now : Z) (action : sr_state_action_t)
    (obj_type : sr_state_object_t) (data : query_data) (w : world)
  : outcome (query_out * world) :=
  r <- match action with
       | SR_STATE_ACTION_GET =>
           out <- state_query_get_ obj_type data w ;; Returns (out, w)
       | SR_STATE_ACTION_PUT =>
           w <- state_query_put_ obj_type data w ;; Returns (NoOut, w)
       | SR_STATE_ACTION_DEL_ALL =>
           w <- state_query_del_all_ obj_type w ;; Returns (NoOut, w)
       | SR_STATE_ACTION_SAVE => Returns (NoOut, w)
       end ;;
  match action with
  | SR_STATE_ACTION_GET => Returns r
  | _ =>
      saved <- disk_state_save_to_disk now r.2 ;;
      Returns (r.1, saved.2)
  end.

(** Add [commit] to the permanent state. *)
Definition sr_state_add_commit (now : Z) (commit : sr_commit_t) (w : world)
  : outcome world :=
  r <- state_query now SR_STATE_ACTION_PUT SR_STATE_OBJ_COMMIT
         (CommitData commit) w ;;
  Returns r.2.

Definition sr_state_get_commit (now : Z) (rsa_fpr : string) (w : world)
  : outcome (option sr_commit_t) :=
  r <- state_query now SR_STATE_ACTION_GET SR_STATE_OBJ_COMMIT
         (FingerprintData rsa_fpr) w ;;
  match r.1 with
  | CommitOut c => Returns c
  | _ => Returns None
  end.

(** Initialize the disk and memory state. Return 0 on success else a
    negative value on error. *)
Definition sr_state_init (save_to_disk read_from_disk : bool) (now : Z)
    (w : world) : outcome (Z * world) :=
  (* We shouldn't have those assigned. *)
  tor_assert (bool_decide (sr_disk_state w = None)) "sr_disk_state == NULL" ;;;
  tor_assert (bool_decide (sr_state w = None)) "sr_state == NULL" ;;;
  (* First, try to load the state from disk. *)
  loaded <- (if read_from_disk then disk_state_load_from_disk_impl now w
             else Returns (- ENOENT, w)) ;;
  let '(ret, w) := loaded in
  if ret <? 0 then
    if (- ret =? EINVAL) || (- ret =? ENOENT) then
      (* allocate our states for the first time *)
      let w := {| sr_state := Some (state_new (Some default_fname) now);
                  sr_disk_state := Some (disk_state_new now);
                  sr_file := sr_file w;
                  fs_writable := fs_writable w |} in
      if save_to_disk then
        saved <- disk_state_save_to_disk now w ;;
        if saved.1 <? 0 then Returns (-1, saved.2) else Returns (0, saved.2)
      else Returns (0, w)
    else Assertion_failure "0"
  else Returns (0, w).

End State.

(** ** The load conditions in the words of the specification *)

Section Rejection.
Context `{Text}.





End Rejection.

(** ** Sample collaborators

    Small stand-ins for the interfaces, to run the state engine on
    concrete data: decimal numbers, hexadecimal values, tokens separated
    by spaces, and a state file that only holds its version. The base64
    and key encodings are the identity. *)

Definition digit_value (c : ascii) : option Z :=
  let n := N_of_ascii c in
  if ((48 <=? n) && (n <=? 57))%N then Some (Z.of_N (n - 48)) else None.

Fixpoint parse_digits (s : string) (acc : Z) : option Z :=
  match s with
  | EmptyString => Some acc
  | String c s =>
      match digit_value c with
      | Some d => parse_digits s (10 * acc + d)
      | None => None
      end
  end.

Definition sample_parse_long (s : string) (base min max : Z) : Z * bool :=
  match s with
  | EmptyString => (0, false)
  | _ =>
      match parse_digits s 0 with
      | Some v => if (min <=? v) && (v <=? max) then (v, true) else (0, false)
      | None => (0, false)
      end
  end.

Definition hex_decode_digit_ (c : ascii) : option N :=
  let n := N_of_ascii c in
  if ((48 <=? n) && (n <=? 57))%N then Some (n - 48)%N
  else if ((65 <=? n) && (n <=? 70))%N then Some (n - 55)%N
  else if ((97 <=? n) && (n <=? 102))%N then Some (n - 87)%N
  else None.

(** The bytes decoded before the first invalid digit, and whether all
    [pairs] pairs were valid. *)
Fixpoint hex_pairs (pairs : nat) (s : string) : list byte * bool :=
  match pairs with
  | O => ([], true)
  | S k =>
      match s with
      | String a (String b rest) =>
          match hex_decode_digit_ a, hex_decode_digit_ b with
          | Some v1, Some v2 =>
              let '(l, ok) := hex_pairs k rest in
              (byte_of_N (v1 * 16 + v2) :: l, ok)
          | _, _ => ([], false)
          end
      | _ => ([], false)
      end
  end.

Definition sample_base16_decode (dest : list byte) (src : string)
    (srclen : nat) : Z * list byte :=
  if negb (srclen mod 2 =? 0)%nat then (-1, dest)
  else if (length dest <? srclen / 2)%nat then (-1, dest)
  else
    let '(l, ok) := hex_pairs (srclen / 2) src in
    (if ok then 0 else -1, array_view (length dest) l).

Definition hex_digit (n : N) : ascii :=
  if (n <? 10)%N then ascii_of_N (48 + n) else ascii_of_N (55 + n).

Fixpoint sample_base16_encode (l : list byte) : string :=
  match l with
  | [] => EmptyString
  | b :: l =>
      String (hex_digit (Byte.to_N b / 16))
        (String (hex_digit (Byte.to_N b mod 16)) (sample_base16_encode l))
  end.

Fixpoint split_spaces (s : string) (token : string) : list string :=
  let flush := match token with
               | EmptyString => []
               | _ => [token]
               end in
  match s with
  | EmptyString => flush
  | String c s =>
      if Ascii.eqb c " " then flush ++ split_spaces s EmptyString
      else split_spaces s (token ++ String c EmptyString)
  end.

#[export] Instance sample_text : Text := {|
  tor_parse_long := sample_parse_long;
  base16_decode := sample_base16_decode;
  base16_encode := sample_base16_encode;
  base64_decode destlen src :=
    if (destlen <? String.length src)%nat then (-1, [])
    else (Z.of_nat (String.length src), bytes_of_string src);
  smartlist_split_string s := split_spaces s EmptyString;
  crypto_digest_algorithm_parse_name name :=
    if String.eqb name "sha1" then Some DIGEST_SHA1
    else if String.eqb name "sha256" then Some DIGEST_SHA256
    else if String.eqb name "sha512" then Some DIGEST_SHA512
    else if String.eqb name "sha3-256" then Some DIGEST_SHA3_256
    else if String.eqb name "sha3-512" then Some DIGEST_SHA3_512
    else None;
  crypto_digest_algorithm_get_name a :=
    match a with
    | DIGEST_SHA1 => "sha1"
    | DIGEST_SHA256 => "sha256"
    | DIGEST_SHA512 => "sha512"
    | DIGEST_SHA3_256 => "sha3-256"
    | DIGEST_SHA3_512 => "sha3-512"
    end;
  ed25519_public_from_base64 s :=
    match s with
    | EmptyString => None
    | _ => Some (bytes_of_string s)
    end;
  ed25519_public_to_base64 := string_of_list_byte;
|}.

#[export] Instance sample_voting : Voting := {|
  V3AuthVotingInterval := 3600;
  TestingV3AuthVotingStartOffset := 0;
  voting_schedule_interval_starts now := (Z.quot now 3600 + 1) * 3600;
  dirvote_get_start_of_next_interval now interval offset :=
    (Z.quot now interval + 1) * interval;
  get_next_valid_after_time now := (Z.quot now 3600 + 1) * 3600;
|}.

(** A schedule with a voting interval of more than three years. *)
Definition slow_voting : Voting := {|
  V3AuthVotingInterval := 100000000;
  TestingV3AuthVotingStartOffset := 0;
  voting_schedule_interval_starts now :=
    (Z.quot now 100000000 + 1) * 100000000;
  dirvote_get_start_of_next_interval now interval offset :=
    (Z.quot now interval + 1) * interval;
  get_next_valid_after_time now := (Z.quot now 100000000 + 1) * 100000000;
|}.

Definition set_Version (ds : sr_disk_state_t) (v : Z) : sr_disk_state_t :=
  {| magic_ := magic_ ds; Version := v; ValidUntil := ValidUntil ds;
     ValidAfter := ValidAfter ds; Commits := Commits ds;
     SharedRandValues := SharedRandValues ds; ExtraLines := ExtraLines ds |}.

#[export] Instance sample_confparse : ConfParse := {|
  config_read defaults content :=
    if String.prefix "Version " content then
      match parse_digits (substring 8 (String.length content - 8) content) 0
      with
      | Some v => Some (set_Version defaults v)
      | None => None
      end
    else Some defaults;
  config_dump ds := ("Version " ++ format_int (Version ds))%string;
  format_local_iso_time now := format_int now;
|}.

(** A commit of an authority, and worlds before and after start-up. *)
Definition sample_commit : sr_commit_t :=
  {| alg := SR_DIGEST_ALG;
     auth_identity := bytes_of_string "ed25519-identity-of-authority-A";
     auth_fingerprint := "ed25519-identity-of-authority-A";
     rsa_identity_fpr := "AAAAAAAAAAAAAAAAAAAAAAAAAAAAAAAAAAAAAAAA";
     reveal_ts := 0;
     hashed_reveal := replicate 32 x22;
     encoded_commit := "commit-of-A";
     random_number := replicate 32 x00;
     commit_ts := 1460502000;
     encoded_reveal := EmptyString |}.

Definition sample_now : Z := 1460502000.

Definition world_at_boot (file : fs_node) (writable : bool) : world :=
  {| sr_state := None; sr_disk_state := None;
     sr_file := file; fs_writable := writable |}.

Definition world_with_commit : world :=
  {| sr_state :=
       Some (set_commits (state_new None sample_now)
               {[ digestmap_key (rsa_identity_fpr sample_commit)
                    := sample_commit ]});
     sr_disk_state := Some (disk_state_new sample_now);
     sr_file := Absent;
     fs_writable := true |}.

End SR.

(** * The accessors of shared-random-state.c *)

Module SRApi.
Import SR.

Local Open Scope outcome_scope.

Section Accessors.
Context `{Text} `{Voting} `{ConfParse}.

(** Set valid after time in the our state. *)
Definition sr_state_set_valid_after (now valid_after : Z) (w : world)
  : outcome world :=
  r <- state_query now SR_STATE_ACTION_PUT SR_STATE_OBJ_VALID_AFTER
         (TimeData valid_after) w ;;
  Returns r.2.

(** Return the phase we are currently in according to our state. *)
Definition sr_state_get_phase (now : Z) (w : world) : outcome sr_phase_t :=
  r <- state_query now SR_STATE_ACTION_GET SR_STATE_OBJ_PHASE NoData w ;;
  match r.1 with
  | PhaseOut p => Returns p
  | _ => Null_dereference "ptr"
  end.

(** Return the previous SRV value from our state. Value CAN be NULL. *)
Definition sr_state_get_previous_srv (now : Z) (w : world)
  : outcome (option sr_srv_t) :=
  r <- state_query now SR_STATE_ACTION_GET SR_STATE_OBJ_PREVSRV NoData w ;;
  match r.1 with
  | SrvOut srv => Returns srv
  | _ => Returns None
  end.

Definition sr_state_set_previous_srv (now : Z) (srv : option sr_srv_t)
    (w : world) : outcome world :=
  r <- state_query now SR_STATE_ACTION_PUT SR_STATE_OBJ_PREVSRV
         (SrvData srv) w ;;
  Returns r.2.

(** Return the current SRV value from our state. Value CAN be NULL. *)
Definition sr_state_get_current_srv (now : Z) (w : world)
  : outcome (option sr_srv_t) :=
  r <- state_query now SR_STATE_ACTION_GET SR_STATE_OBJ_CURSRV NoData w ;;
  match r.1 with
  | SrvOut srv => Returns srv
  | _ => Returns None
  end.

Definition sr_state_set_current_srv (now : Z) (srv : option sr_srv_t)
    (w : world) : outcome world :=
  r <- state_query now SR_STATE_ACTION_PUT SR_STATE_OBJ_CURSRV
         (SrvData srv) w ;;
  Returns r.2.

(** Remove all commits from our state. *)
Definition sr_state_delete_commits (now : Z) (w : world) : outcome world :=
  r <- state_query now SR_STATE_ACTION_DEL_ALL SR_STATE_OBJ_COMMIT NoData w ;;
  Returns r.2.

Definition set_is_srv_fresh (st : sr_state_t) (b : bool) : sr_state_t :=
  {| fname := fname st; version := version st; phase := phase st;
     valid_after := valid_after st; valid_until := valid_until st;
     commits := commits st;
     previous_srv := previous_srv st; current_srv := current_srv st;
     n_commit_rounds := n_commit_rounds st;
     n_reveal_rounds := n_reveal_rounds st;
     n_protocol_runs := n_protocol_runs st;
     is_srv_fresh := b |}.

(** Set the fresh SRV flag from our state. This doesn't need to trigger a
    disk state synchronization so we directly change the state. *)
Definition sr_state_set_fresh_srv (w : world) : outcome world :=
  with_state w (fun state => Returns (put_state w (set_is_srv_fresh state true))).

Definition sr_state_unset_fresh_srv (w : world) : outcome world :=
  with_state w (fun state => Returns (put_state w (set_is_srv_fresh state false))).

Definition sr_state_srv_is_fresh (w : world) : outcome bool :=
  with_state w (fun state => Returns (is_srv_fresh state)).








End Accessors.

(** A state with both SRVs and no commit. *)
Definition sample_srv (n : Z) (b : byte) : sr_srv_t :=
  {| num_reveals := n; value := replicate 32 b |}.




End SRApi.

(** * The service side of hs_circuit.c *)

Module HsCircuit.

Local Open Scope outcome_scope.

(** The circuit purposes and states of or.h that the service side names. *)
Inductive circuit_purpose_t : Type :=
| CIRCUIT_PURPOSE_OR
| CIRCUIT_PURPOSE_C_GENERAL
| CIRCUIT_PURPOSE_C_REND_READY
| CIRCUIT_PURPOSE_C_REND_READY_INTRO_ACKED
| CIRCUIT_PURPOSE_C_REND_JOINED
| CIRCUIT_PURPOSE_S_ESTABLISH_INTRO
| CIRCUIT_PURPOSE_S_INTRO
| CIRCUIT_PURPOSE_S_CONNECT_REND
| CIRCUIT_PURPOSE_S_REND_JOINED.

Inductive circuit_state_t : Type :=
| CIRCUIT_STATE_BUILDING
| CIRCUIT_STATE_ONIONSKIN_PENDING
| CIRCUIT_STATE_CHAN_WAIT
| CIRCUIT_STATE_OPEN.

#[export] Instance circuit_purpose_eq_dec : EqDecision circuit_purpose_t.
Proof. solve_decision. Defined.
#[export] Instance circuit_state_eq_dec : EqDecision circuit_state_t.
Proof. solve_decision. Defined.

(** The fields of [hs_ident_circuit_t] the service side reads. *)
Record hs_ident_circuit_t : Type := {
  identity_pk : list byte;       (* ed25519_public_key_t *)
}.

(** The fields of [origin_circuit_t] (and of its [circuit_t] base and
    [build_state]) the service side reads and writes. *)
Record origin_circuit_t : Type := {
  purpose : circuit_purpose_t;
  state : circuit_state_t;
  marked_for_close : bool;
  hs_ident : option hs_ident_circuit_t;
  is_internal : bool;            (* build_state->is_internal *)
}.

Record hs_service_intro_point_t : Type := {
  is_only_legacy : bool;         (* base.is_only_legacy *)
  auth_key_pubkey : list byte;   (* auth_key_kp.pubkey *)
  enc_key_kp : list byte;
  (* crypto_pk_get_digest(legacy_key, digest): None when it fails *)
  legacy_key_digest : option (list byte);
  introduce2_count : Z;          (* uint64_t *)
  introduce2_max : Z;            (* uint64_t *)
  circuit_established : bool;
  replay_cache : list (list byte);   (* replaycache_t * *)
}.

Record hs_service_descriptor_t : Type := {
  (* intro_points.map, indexed by authentication key *)
  intro_points : gmap (list byte) hs_service_intro_point_t;
}.

Record hs_service_t : Type := {
  service_identity_pk : list byte;   (* keys.identity_pk *)
  num_intro_points : nat;            (* config.num_intro_points *)
}.

(** Modelled from the spec: hs_circuitmap.c and circuitlist.c are not
    among the sources. The spec describes the circuit-id map as owned by
    the circuit subsystem, keyed by the intro authentication key (the
    digest of the RSA key for a legacy intro point), through which the
    core registers, looks up and unregisters circuits. Circuits are named
    by a number; the map sends a key to the circuit registered under it. *)
Record circuits_t : Type := {
  circuits : gmap nat origin_circuit_t;
  circuitmap_v2 : gmap (list byte) nat;
  circuitmap_v3 : gmap (list byte) nat;
}.

Definition hs_circuitmap_get_intro_circ_v2_service_side (digest : list byte)
    (w : circuits_t) : option origin_circuit_t :=
  match circuitmap_v2 w !! digest with
  | Some id => circuits w !! id
  | None => None
  end.

Definition hs_circuitmap_get_intro_circ_v3_service_side (pk : list byte)
    (w : circuits_t) : option origin_circuit_t :=
  match circuitmap_v3 w !! pk with
  | Some id => circuits w !! id
  | None => None
  end.

Definition hs_circuitmap_remove_circuit (circ : nat) (w : circuits_t)
  : circuits_t :=
  {| circuits := circuits w;
     circuitmap_v2 := filter (fun kv => kv.2 <> circ) (circuitmap_v2 w);
     circuitmap_v3 := filter (fun kv => kv.2 <> circ) (circuitmap_v3 w) |}.

Definition update_circuit (circ : nat) (f : origin_circuit_t -> origin_circuit_t)
    (w : circuits_t) : circuits_t :=
  {| circuits := alter f circ (circuits w);
     circuitmap_v2 := circuitmap_v2 w;
     circuitmap_v3 := circuitmap_v3 w |}.

(** [circuit_mark_for_close]. *)
Definition mark_for_close (c : origin_circuit_t) : origin_circuit_t :=
  {| purpose := purpose c; state := state c; marked_for_close := true;
     hs_ident := hs_ident c; is_internal := is_internal c |}.

(** [tor_free(circ->hs_ident); circ->hs_ident = NULL;
     circuit_change_purpose(TO_CIRCUIT(circ), CIRCUIT_PURPOSE_C_GENERAL)]. *)
Definition repurpose_to_general (c : origin_circuit_t) : origin_circuit_t :=
  {| purpose := CIRCUIT_PURPOSE_C_GENERAL; state := state c;
     marked_for_close := marked_for_close c;
     hs_ident := None; is_internal := is_internal c |}.

(** The circuit subsystem sets the state of a circuit that is done
    building before it reports it opened. *)
Definition set_open (c : origin_circuit_t) : origin_circuit_t :=
  {| purpose := purpose c; state := CIRCUIT_STATE_OPEN;
     marked_for_close := marked_for_close c;
     hs_ident := hs_ident c; is_internal := is_internal c |}.

(** The circuit registered for an intro point, as the loop of
    [count_opened_desc_intro_point_circuits] looks it up. *)
Definition intro_point_circuit (w : circuits_t) (ip : hs_service_intro_point_t)
  : option origin_circuit_t :=
  if is_only_legacy ip then
    match legacy_key_digest ip with
    | None => None                         (* BUG(...): continue *)
    | Some digest => hs_circuitmap_get_intro_circ_v2_service_side digest w
    end
  else hs_circuitmap_get_intro_circ_v3_service_side (auth_key_pubkey ip) w.

(** The body of DIGEST256MAP_FOREACH over the intro points. *)
Fixpoint count_loop (service : hs_service_t) (w : circuits_t)
    (ips : list hs_service_intro_point_t) (count : nat) : outcome nat :=
  match ips with
  | [] => Returns count
  | ip :: ips =>
      match intro_point_circuit w ip with
      | None => count_loop service w ips count
      | Some circ =>
          tor_assert
            (bool_decide (purpose circ = CIRCUIT_PURPOSE_S_ESTABLISH_INTRO)
             || bool_decide (purpose circ = CIRCUIT_PURPOSE_S_INTRO))
            "circ->purpose is an intro purpose" ;;;
          (* Having a circuit not for the requested service is really bad. *)
          ident <- match hs_ident circ with
                   | Some ident => Returns ident
                   | None => Null_dereference "ocirc->hs_ident"
                   end ;;
          tor_assert
            (bool_decide (service_identity_pk service = identity_pk ident))
            "ed25519_pubkey_eq(identity_pk)" ;;;
          (* Only count opened circuit and skip circuit that will be closed. *)
          if negb (marked_for_close circ)
             && bool_decide (state circ = CIRCUIT_STATE_OPEN)
          then count_loop service w ips (S count)
          else count_loop service w ips count
      end
  end.

Definition count_opened_desc_intro_point_circuits (service : hs_service_t)
    (desc : hs_service_descriptor_t) (w : circuits_t) : outcome nat :=
  count_loop service w (map_to_list (intro_points desc)).*2 0.

(** How [send_establish_intro] ends: the cell is sent, its encoding fails
    (the circuit is marked for close), or the relay layer fails to send
    it (which closes the circuit). *)
Inductive send_result : Type :=
| Sent
| EncodeFailed
| SendFailed.

Definition send_establish_intro (circ : nat) (r : send_result) (w : circuits_t)
  : circuits_t :=
  match r with
  | Sent => w
  | EncodeFailed | SendFailed => update_circuit circ mark_for_close w
  end.

(** Return 0 on success. Return 1 if the circuit has been repurposed to
    General because we already have too many opened. *)
Definition hs_circ_service_intro_has_opened (service : hs_service_t)
    (ip : hs_service_intro_point_t) (desc : hs_service_descriptor_t)
    (circ : nat) (sending : send_result) (w : circuits_t)
  : outcome (Z * circuits_t) :=
  c <- match circuits w !! circ with
       | Some c => Returns c
       | None => Assertion_failure "circ"
       end ;;
  num_intro_circ <- count_opened_desc_intro_point_circuits service desc w ;;
  let num_needed_circ := num_intro_points service in
  if (num_needed_circ <? num_intro_circ)%nat then
    (* There are too many opened valid intro circuit for what the service
       needs so repurpose this one. *)
    tor_assert (is_internal c) "circ->build_state->is_internal" ;;;
    (* Remove it from the circuitmap. *)
    let w := hs_circuitmap_remove_circuit circ w in
    (* Cleaning up the hidden service identifier and repurpose. *)
    let w := update_circuit circ repurpose_to_general w in
    (* circuit_has_opened(circ) then dispatches on the general purpose,
       which leaves the intro circuits alone. *)
    Returns (1, w)
  else
    (* Time to send an ESTABLISH_INTRO cell on this circuit. *)
    Returns (0, send_establish_intro circ sending w).

(** The event "an intro circuit of the service is done building": the
    circuit is open and the callback runs. *)
Record intro_opened_event : Type := {
  ev_circ : nat;
  ev_ip : hs_service_intro_point_t;
  ev_sending : send_result;
}.

Definition intro_circ_opened (service : hs_service_t)
    (desc : hs_service_descriptor_t) (ev : intro_opened_event)
    (w : circuits_t) : outcome circuits_t :=
  let w := update_circuit (ev_circ ev) set_open w in
  r <- hs_circ_service_intro_has_opened service (ev_ip ev) desc (ev_circ ev)
         (ev_sending ev) w ;;
  Returns r.2.

Fixpoint intro_circs_opened (service : hs_service_t)
    (desc : hs_service_descriptor_t) (evs : list intro_opened_event)
    (w : circuits_t) : outcome circuits_t :=
  match evs with
  | [] => Returns w
  | ev :: evs =>
      w <- intro_circ_opened service desc ev w ;;
      intro_circs_opened service desc evs w
  end.

(** The number of intro points of the descriptor whose registered circuit
    is open and not marked for close. *)
Definition counted (w : circuits_t) (ip : hs_service_intro_point_t) : bool :=
  match intro_point_circuit w ip with
  | Some circ =>
      negb (marked_for_close circ)
      && bool_decide (state circ = CIRCUIT_STATE_OPEN)
  | None => false
  end.

Definition opened_intro_circuits (desc : hs_service_descriptor_t)
    (w : circuits_t) : nat :=
  length (filter (fun ip => counted w ip = true)
                 (map_to_list (intro_points desc)).*2).

(** The circuit registered for an intro point, by its number. *)
Definition intro_point_circ_id (w : circuits_t) (ip : hs_service_intro_point_t)
  : option nat :=
  if is_only_legacy ip then
    match legacy_key_digest ip with
    | None => None
    | Some digest => circuitmap_v2 w !! digest
    end
  else circuitmap_v3 w !! auth_key_pubkey ip.

(** Every circuit registered for an intro point of the descriptor has an
    intro purpose and the identity of the service. *)
Definition wf_intro_circuits (service : hs_service_t)
    (desc : hs_service_descriptor_t) (w : circuits_t) : Prop :=
  forall ip c,
    ip ∈ (map_to_list (intro_points desc)).*2 ->
    intro_point_circuit w ip = Some c ->
    (purpose c = CIRCUIT_PURPOSE_S_ESTABLISH_INTRO \/
     purpose c = CIRCUIT_PURPOSE_S_INTRO) /\
    exists ident, hs_ident c = Some ident /\
                  service_identity_pk service = identity_pk ident.

(** The circuit of an event exists and was launched as internal. *)
Definition launched (w : circuits_t) (ev : intro_opened_event) : Prop :=
  exists c, circuits w !! ev_circ ev = Some c /\ is_internal c = true.

(** ** INTRODUCE2 *)

Record hs_cell_introduce2_data_t : Type := {
  auth_pk : list byte;
  enc_kp : list byte;
  subcredential : list byte;
  payload : list byte;
  (* set by the parser *)
  onion_pk : list byte;
  rendezvous_cookie : list byte;
}.

(** hs_cell.c: [hs_cell_parse_introduce2(&data, circ, service)] reads the
    data it is given through const pointers; the parsed data, or None for
    a negative result. *)
Class HsCell : Type := {
  hs_cell_parse_introduce2 :
    hs_cell_introduce2_data_t -> origin_circuit_t -> hs_service_t ->
    option hs_cell_introduce2_data_t;
}.

(* XXX: Implement rendezvous launch support. *)
Definition hs_circ_launch_rendezvous_point (service : hs_service_t)
    (onion_key rendezvous_cookie : list byte) : Z := 0.

Definition uint64_incr (n : Z) : Z := (n + 1) mod 2 ^ 64.

Definition set_introduce2_count (ip : hs_service_intro_point_t) (n : Z)
  : hs_service_intro_point_t :=
  {| is_only_legacy := is_only_legacy ip;
     auth_key_pubkey := auth_key_pubkey ip;
     enc_key_kp := enc_key_kp ip;
     legacy_key_digest := legacy_key_digest ip;
     introduce2_count := n;
     introduce2_max := introduce2_max ip;
     circuit_established := circuit_established ip;
     replay_cache := replay_cache ip |}.

(** Return 0 on success else a negative value, with the intro point
    after the call. *)
Definition hs_circ_handle_introduce2 `{HsCell} (service : hs_service_t)
    (circ : origin_circuit_t) (ip : hs_service_intro_point_t)
    (subcred : list byte) (cell : list byte)
  : Z * hs_service_intro_point_t :=
  let data := {| auth_pk := auth_key_pubkey ip;
                 enc_kp := enc_key_kp ip;
                 subcredential := subcred;
                 payload := cell;
                 onion_pk := [];
                 rendezvous_cookie := [] |} in
  match hs_cell_parse_introduce2 data circ service with
  | None => (-1, ip)
  | Some data =>
      (* At this point, we just confirmed that the full INTRODUCE2 cell is
         valid so increment our counter. *)
      let ip := set_introduce2_count ip (uint64_incr (introduce2_count ip)) in
      (* Launch rendezvous circuit with the onion key and rend cookie. *)
      let ret := hs_circ_launch_rendezvous_point service (onion_pk data)
                   (rendezvous_cookie data) in
      if ret <? 0 then (ret, ip) else (0, ip)
  end.

(** Sample data. *)
Definition sample_service : hs_service_t :=
  {| service_identity_pk := replicate 32 x42; num_intro_points := 1 |}.

Definition sample_ip (key : byte) : hs_service_intro_point_t :=
  {| is_only_legacy := false;
     auth_key_pubkey := [key];
     enc_key_kp := [key];
     legacy_key_digest := None;
     introduce2_count := 0;
     introduce2_max := 16384;
     circuit_established := false;
     replay_cache := [] |}.

Definition sample_desc : hs_service_descriptor_t :=
  {| intro_points := {[ [x01] := sample_ip x01; [x02] := sample_ip x02 ]} |}.

Definition building_circuit : origin_circuit_t :=
  {| purpose := CIRCUIT_PURPOSE_S_ESTABLISH_INTRO;
     state := CIRCUIT_STATE_BUILDING;
     marked_for_close := false;
     hs_ident := Some {| identity_pk := replicate 32 x42 |};
     is_internal := true |}.

(** Two intro circuits launched and registered, none open yet. *)
Definition sample_circuits : circuits_t :=
  {| circuits := {[ 1%nat := building_circuit; 2%nat := building_circuit ]};
     circuitmap_v2 := ∅;
     circuitmap_v3 := {[ [x01] := 1%nat; [x02] := 2%nat ]} |}.

Definition sample_events : list intro_opened_event :=
  [ {| ev_circ := 1; ev_ip := sample_ip x01; ev_sending := Sent |};
    {| ev_circ := 2; ev_ip := sample_ip x02; ev_sending := Sent |} ].

(** Both sample circuits open: one more than the sample service needs. *)
Definition both_open : circuits_t :=
  update_circuit 2 set_open (update_circuit 1 set_open sample_circuits).

(** A parser that accepts every non-empty payload. *)
Definition sample_hs_cell : HsCell := {|
  hs_cell_parse_introduce2 data circ service :=
    match payload data with
    | [] => None
    | _ => Some data
    end;
|}.

End HsCircuit.

(** * Launching intro circuits and the cells a service receives *)

Module HsCircuitApi.
Import HsCircuit.

(** The flags of circuituse.h that [hs_circ_launch_intro_point] sets. *)
Record circ_flags_t : Type := {
  CIRCLAUNCH_NEED_UPTIME : bool;
  CIRCLAUNCH_NEED_CAPACITY : bool;
  CIRCLAUNCH_IS_INTERNAL : bool;
  CIRCLAUNCH_ONEHOP_TUNNEL : bool;
}.

(** The fields of [hs_service_t] the launch reads and writes beside the
    identity key. *)
Record hs_service_launch_t : Type := {
  is_single_onion : bool;          (* config.is_single_onion *)
  num_intro_circ_launched : Z;     (* state.num_intro_circ_launched,
                                      an unsigned int *)
}.

Definition uint_incr (n : Z) : Z := (n + 1) mod 2 ^ 32.

(** Modelled from the spec: circuituse.c is not among the sources. The
    spec describes the launch of a circuit as returning an identifier
    immediately and completing asynchronously. [answer] is what the
    circuit subsystem returns: the number of the new circuit, or None for
    NULL. The new circuit has the purpose asked for, is still building,
    and is internal when the flags ask for it. *)
Definition circuit_launch_by_extend_info (purpose : circuit_purpose_t)
    (flags : circ_flags_t) (answer : option nat) (w : circuits_t)
  : circuits_t :=
  match answer with
  | None => w
  | Some circ =>
      {| circuits :=
           <[circ := {| purpose := purpose;
                        state := CIRCUIT_STATE_BUILDING;
                        marked_for_close := false;
                        hs_ident := None;
                        is_internal := CIRCLAUNCH_IS_INTERNAL flags |}]>
             (circuits w);
         circuitmap_v2 := circuitmap_v2 w;
         circuitmap_v3 := circuitmap_v3 w |}
  end.

(** Modelled from the spec: hs_circuitmap.c is not among the sources. The
    spec has the core register circuits in the circuit-id map under the
    intro authentication key; registering sends the key to the circuit. *)
Definition hs_circuitmap_register_intro_circ_v2_service_side (circ : nat)
    (digest : list byte) (w : circuits_t) : circuits_t :=
  {| circuits := circuits w;
     circuitmap_v2 := <[digest := circ]> (circuitmap_v2 w);
     circuitmap_v3 := circuitmap_v3 w |}.

Definition hs_circuitmap_register_intro_circ_v3_service_side (circ : nat)
    (pk : list byte) (w : circuits_t) : circuits_t :=
  {| circuits := circuits w;
     circuitmap_v2 := circuitmap_v2 w;
     circuitmap_v3 := <[pk := circ]> (circuitmap_v3 w) |}.

(** For a given circuit and a service introduction point object, register
    the intro circuit to the circuitmap. This supports legacy intro
    point. *)
Definition register_intro_circ (ip : hs_service_intro_point_t) (circ : nat)
    (w : circuits_t) : circuits_t :=
  if is_only_legacy ip then
    match legacy_key_digest ip with
    | None => w                            (* BUG(...): return *)
    | Some digest =>
        hs_circuitmap_register_intro_circ_v2_service_side circ digest w
    end
  else
    hs_circuitmap_register_intro_circ_v3_service_side circ
      (auth_key_pubkey ip) w.

(** From a given service and service intro point, create an introduction
    point circuit identifier: the field of the identifier that
    hs_circuit.c reads back is the identity key of the service. *)
Definition create_intro_circuit_identifier (service : hs_service_t)
    (ip : hs_service_intro_point_t) : hs_ident_circuit_t :=
  {| identity_pk := service_identity_pk service |}.

Definition set_hs_ident (ident : hs_ident_circuit_t) (c : origin_circuit_t)
  : origin_circuit_t :=
  {| purpose := purpose c; state := state c;
     marked_for_close := marked_for_close c;
     hs_ident := Some ident; is_internal := is_internal c |}.

(** Return 0 if the circuit was successfully launched and tagged with the
    correct identifier. On error, a negative value is returned. The
    launch counter and the circuits after the call come with it. *)
Definition hs_circ_launch_intro_point (service : hs_service_t)
    (sl : hs_service_launch_t) (ip : hs_service_intro_point_t)
    (answer : option nat) (w : circuits_t)
  : Z * hs_service_launch_t * circuits_t :=
  (* Standard flags for introduction circuit; a single onion service
     requires a direct connection. *)
  let circ_flags :=
    {| CIRCLAUNCH_NEED_UPTIME := true;
       CIRCLAUNCH_NEED_CAPACITY := false;
       CIRCLAUNCH_IS_INTERNAL := true;
       CIRCLAUNCH_ONEHOP_TUNNEL := is_single_onion sl |} in
  (* rep_hist_note_used_internal(now, ...) feeds the statistics of
     rephist.c, which are no part of the circuits. *)
  (* Note down the launch for the retry period. Even if the circuit fails
     to be launched, we still want to respect the retry period. *)
  let sl := {| is_single_onion := is_single_onion sl;
               num_intro_circ_launched :=
                 uint_incr (num_intro_circ_launched sl) |} in
  let w := circuit_launch_by_extend_info CIRCUIT_PURPOSE_S_ESTABLISH_INTRO
             circ_flags answer w in
  match answer with
  | None => (-1, sl, w)
  | Some circ =>
      (* Setup the circuit identifier and attach it to it. *)
      let w := update_circuit circ
                 (set_hs_ident (create_intro_circuit_identifier service ip))
                 w in
      (* Register circuit in the global circuitmap. *)
      let w := register_intro_circ ip circ w in
      (0, sl, w)
  end.

(** ** INTRO_ESTABLISHED *)

(** hs_cell.c: [hs_cell_parse_intro_established(payload, payload_len)],
    negative when the payload is not a valid cell. *)
Class HsCellIntroEstablished : Type := {
  hs_cell_parse_intro_established : list byte -> Z;
}.

(** [circuit_change_purpose]. *)
Definition change_purpose (p : circuit_purpose_t) (c : origin_circuit_t)
  : origin_circuit_t :=
  {| purpose := p; state := state c;
     marked_for_close := marked_for_close c;
     hs_ident := hs_ident c; is_internal := is_internal c |}.

(** Return 0 on success else a negative value, with the circuits after
    the call. *)
Definition hs_circ_handle_intro_established `{HsCellIntroEstablished}
    (service : hs_service_t) (ip : hs_service_intro_point_t) (circ : nat)
    (payload : list byte) (w : circuits_t) : Z * circuits_t :=
  (* For a legacy node, it's an empty payload so as long as we have the
     cell, we are good. *)
  if negb (is_only_legacy ip)
     && (hs_cell_parse_intro_established payload <? 0)
  then (-1, w)
  else
    (* Switch the purpose to a fully working intro point. *)
    (0, update_circuit circ (change_purpose CIRCUIT_PURPOSE_S_INTRO) w).

(** ** INTRODUCE2 cells in order of arrival *)

(** The cells that arrive on the circuit of an intro point are handled
    one after the other: the return values, and the intro point after the
    last one. *)
Fixpoint handle_introduce2_cells `{HsCell} (service : hs_service_t)
    (circ : origin_circuit_t) (ip : hs_service_intro_point_t)
    (subcred : list byte) (cells : list (list byte))
  : list Z * hs_service_intro_point_t :=
  match cells with
  | [] => ([], ip)
  | cell :: cells =>
      let '(ret, ip) :=
        hs_circ_handle_introduce2 service circ ip subcred cell in
      let '(rets, ip) :=
        handle_introduce2_cells service circ ip subcred cells in
      (ret :: rets, ip)
  end.

(** Whether the parser accepts a cell at an intro point. *)
Definition introduce2_accepted `{HsCell} (service : hs_service_t)
    (circ : origin_circuit_t) (ip : hs_service_intro_point_t)
    (subcred : list byte) (cell : list byte) : bool :=
  match hs_cell_parse_introduce2
          {| auth_pk := auth_key_pubkey ip; enc_kp := enc_key_kp ip;
             subcredential := subcred; payload := cell;
             onion_pk := []; rendezvous_cookie := [] |} circ service with
  | Some _ => true
  | None => false
  end.

(** A parser of INTRO_ESTABLISHED that accepts the empty payload only. *)
Definition sample_intro_established : HsCellIntroEstablished := {|
  hs_cell_parse_intro_established payload :=
    match payload with
    | [] => 0
    | _ => -1
    end;
|}.

Definition sample_launch : hs_service_launch_t :=
  {| is_single_onion := false; num_intro_circ_launched := 2 |}.

End HsCircuitApi.

(** * The end-to-end rendezvous circuit of hs_circuit.c *)

Module HsCircuitRend.
Import HsCircuit.

Local Open Scope outcome_scope.

(** The states of a hop that hs_circuit.c meets: the zeroed one of a hop
    just allocated, and the open one. *)
Inductive cpath_state_t : Type :=
| CPATH_STATE_CLOSED
| CPATH_STATE_OPEN.

(** The fields of [crypt_path_t] that hs_circuit.c reads and writes, the
    magic number apart. *)
Record crypt_path_t : Type := {
  cpath_state : cpath_state_t;                   (* state *)
  package_window : Z;
  deliver_window : Z;
  crypto : list byte;   (* what circuit_init_cpath_crypto installs *)
  rend_dh_handshake_state : option (list byte);
}.

(** The fields of [origin_circuit_t] that the set-up of a rendezvous
    circuit reads and writes. *)
Record rend_circuit_t : Type := {
  purpose : circuit_purpose_t;
  hs_circ_has_timed_out : bool;
  cpath : list crypt_path_t;
  (* build_state, and its pending_final_cpath *)
  build_state : option (option crypt_path_t);
  (* how often circuit_try_attaching_streams ran on the circuit *)
  attached_streams : nat;
}.

(** hs_ntor.c, circuitbuild.c, circuitlist.c, crypto.c and or.h. *)
Class RendCrypto : Type := {
  (* hs_ntor_circuit_key_expansion: the keys, or None for a negative
     result *)
  hs_ntor_circuit_key_expansion : list byte -> option (list byte);
  (* circuit_init_cpath_crypto(cpath, keys, keys_len, reverse, is_hs_v3):
     the result and the hop afterwards *)
  circuit_init_cpath_crypto :
    crypt_path_t -> list byte -> bool -> bool -> Z * crypt_path_t;
  (* crypto_dh_compute_secret(..., handshake_state, pubkey, DH_KEY_LEN,
     keys, DIGEST_LEN+CPATH_KEY_MATERIAL_LEN): the keys, or None for a
     negative result *)
  crypto_dh_compute_secret : list byte -> list byte -> option (list byte);
  circuit_initial_package_window : Z;
  CIRCWINDOW_START : Z;
  DH_KEY_LEN : nat;
  DIGEST_LEN : nat;
}.

Section Rend.
Context `{RendCrypto}.

(** A circuit is about to become an e2e rendezvous circuit. Check
    [circ_purpose] and ensure that it's properly set. *)
Definition circuit_purpose_is_correct_for_rend
    (circ_purpose : circuit_purpose_t) (is_service_side : bool) : bool :=
  if is_service_side
     && negb (bool_decide (circ_purpose = CIRCUIT_PURPOSE_S_CONNECT_REND))
  then false
  else if negb is_service_side
          && negb (bool_decide (circ_purpose = CIRCUIT_PURPOSE_C_REND_READY))
          && negb (bool_decide
                     (circ_purpose = CIRCUIT_PURPOSE_C_REND_READY_INTRO_ACKED))
  then false
  else true.

(** [tor_malloc_zero(sizeof(crypt_path_t))]. *)
Definition zeroed_cpath : crypt_path_t :=
  {| cpath_state := CPATH_STATE_CLOSED;
     package_window := 0; deliver_window := 0;
     crypto := []; rend_dh_handshake_state := None |}.

(** Create and return a crypt path for the final hop of a v3 rendezvous
    circuit; None stands for NULL. *)
Definition create_rend_cpath (ntor_key_seed : list byte)
    (is_service_side : bool) : option crypt_path_t :=
  (* Do the key expansion *)
  match hs_ntor_circuit_key_expansion ntor_key_seed with
  | None => None
  | Some keys =>
      (* Setup the cpath *)
      let '(r, cpath) :=
        circuit_init_cpath_crypto zeroed_cpath keys is_service_side true in
      if r <? 0 then None            (* tor_free(cpath) *)
      else Some cpath
  end.

Definition set_pending_final_cpath (circ : rend_circuit_t)
    (hop : option crypt_path_t) : rend_circuit_t :=
  {| purpose := purpose circ;
     hs_circ_has_timed_out := hs_circ_has_timed_out circ;
     cpath := cpath circ;
     build_state := match build_state circ with
                    | Some _ => Some hop
                    | None => None
                    end;
     attached_streams := attached_streams circ |}.

(** Append the final [hop] to the cpath of the rend [circ], and mark
    [circ] ready for use to transfer HS relay cells. *)
Definition finalize_rend_circuit (circ : rend_circuit_t) (hop : crypt_path_t)
    (is_service_side : bool) : rend_circuit_t :=
  (* Notify the circuit state machine that we are splicing this circuit *)
  let new_circ_purpose :=
    if is_service_side then CIRCUIT_PURPOSE_S_REND_JOINED
    else CIRCUIT_PURPOSE_C_REND_JOINED in
  (* All is well. Extend the circuit. Set the windows to default. *)
  let hop := {| cpath_state := CPATH_STATE_OPEN;
                package_window := circuit_initial_package_window;
                deliver_window := CIRCWINDOW_START;
                crypto := crypto hop;
                rend_dh_handshake_state := rend_dh_handshake_state hop |} in
  {| purpose := new_circ_purpose;
     hs_circ_has_timed_out := false;
     (* onion_append_to_cpath(&circ->cpath, hop) *)
     cpath := cpath circ ++ [hop];
     (* We set the original pointer to NULL so that we don't double free
        it. *)
     build_state := match build_state circ with
                    | Some _ => Some None
                    | None => None
                    end;
     (* Finally, mark circuit as ready to be used for client streams *)
     attached_streams :=
       if is_service_side then attached_streams circ
       else S (attached_streams circ) |}.

(** Return 0 if the operation went well; in case of error return -1.
    The circuit after the call comes with the result. *)
Definition hs_circuit_setup_e2e_rend_circ (circ : rend_circuit_t)
    (ntor_key_seed : list byte) (is_service_side : bool)
  : Z * rend_circuit_t :=
  if negb (circuit_purpose_is_correct_for_rend (purpose circ) is_service_side)
  then (-1, circ)                                        (* BUG(...) *)
  else
    match create_rend_cpath ntor_key_seed is_service_side with
    | None => (-1, circ)
    | Some hop => (0, finalize_rend_circuit circ hop is_service_side)
    end.

(** We are a v2 legacy HS client: create and return a crypt path for the
    hidden service on the other side of the rendezvous circuit, from the
    body of the RENDEZVOUS1 cell (which must be at least
    DH_KEY_LEN+DIGEST_LEN bytes). The hop is the pending final hop of the
    circuit, which the calls write in place: the circuit after the call
    comes with the result, None standing for NULL. *)
Definition create_rend_cpath_legacy (circ : rend_circuit_t)
    (rend_cell_body : list byte)
  : outcome (option crypt_path_t * rend_circuit_t) :=
  pending <- match build_state circ with
             | Some pending => Returns pending
             | None => Assertion_failure "circ->build_state"
             end ;;
  hop <- match pending with
         | Some hop => Returns hop
         | None => Assertion_failure "circ->build_state->pending_final_cpath"
         end ;;
  dh <- match rend_dh_handshake_state hop with
        | Some dh => Returns dh
        | None => Assertion_failure "hop->rend_dh_handshake_state"
        end ;;
  (* first DH_KEY_LEN bytes are g^y from the service. Finish the dh
     handshake... *)
  match crypto_dh_compute_secret dh (take DH_KEY_LEN rend_cell_body) with
  | None => Returns (None, circ)
  | Some keys =>
      (* ... and set up cpath. *)
      let '(r, hop) :=
        circuit_init_cpath_crypto hop (drop DIGEST_LEN keys) false false in
      let circ := set_pending_final_cpath circ (Some hop) in
      if r <? 0 then Returns (None, circ)
      (* Check whether the digest is right... *)
      else if negb (bool_decide
                      (take DIGEST_LEN keys
                       = take DIGEST_LEN (drop DH_KEY_LEN rend_cell_body)))
      then Returns (None, circ)
      else
        (* clean up the crypto stuff we just made *)
        let hop := {| cpath_state := cpath_state hop;
                      package_window := package_window hop;
                      deliver_window := deliver_window hop;
                      crypto := crypto hop;
                      rend_dh_handshake_state := None |} in
        Returns (Some hop, set_pending_final_cpath circ (Some hop))
  end.

(** We are a v2 legacy HS client and we just received a RENDEZVOUS1 cell
    on [circ]. Finish up the DH key exchange and then extend the crypt
    path of [circ] so that the hidden service is on the other side. *)
Definition hs_circuit_setup_e2e_rend_circ_legacy_client
    (circ : rend_circuit_t) (rend_cell_body : list byte)
  : outcome (Z * rend_circuit_t) :=
  if negb (circuit_purpose_is_correct_for_rend (purpose circ) false)
  then Returns (-1, circ)                                (* BUG(...) *)
  else
    r <- create_rend_cpath_legacy circ rend_cell_body ;;
    match r.1 with
    | None => Returns (-1, r.2)
    | Some hop => Returns (0, finalize_rend_circuit r.2 hop false)
    end.

End Rend.

(** Sample data: key material that is accepted when it has 32 bytes. *)
Definition sample_rend_crypto : RendCrypto := {|
  hs_ntor_circuit_key_expansion seed :=
    if (length seed =? 32)%nat then Some (seed ++ seed) else None;
  circuit_init_cpath_crypto hop keys reverse is_hs_v3 :=
    (0, {| cpath_state := cpath_state hop;
           package_window := package_window hop;
           deliver_window := deliver_window hop;
           crypto := keys;
           rend_dh_handshake_state := rend_dh_handshake_state hop |});
  crypto_dh_compute_secret dh pubkey :=
    if (length pubkey =? 128)%nat then Some (replicate 20 x5a ++ dh)
    else None;
  circuit_initial_package_window := 1000;
  CIRCWINDOW_START := 1000;
  DH_KEY_LEN := 128;
  DIGEST_LEN := 20;
|}.

(** A service-side circuit that waits for the client. *)
Definition sample_rend_circuit : rend_circuit_t :=
  {| purpose := CIRCUIT_PURPOSE_S_CONNECT_REND;
     hs_circ_has_timed_out := true;
     cpath := [];
     build_state := Some None;
     attached_streams := 0 |}.

(** A legacy client circuit whose pending hop waits for RENDEZVOUS1. *)
Definition sample_legacy_circuit : rend_circuit_t :=
  {| purpose := CIRCUIT_PURPOSE_C_REND_READY_INTRO_ACKED;
     hs_circ_has_timed_out := true;
     cpath := [];
     build_state :=
       Some (Some {| cpath_state := CPATH_STATE_CLOSED;
                     package_window := 0; deliver_window := 0;
                     crypto := [];
                     rend_dh_handshake_state := Some [x0d; x0e] |});
     attached_streams := 0 |}.

End HsCircuitRend.

(** * Properties of the trunnel codec *)

Module TrunnelFacts.
Import Trunnel.

Lemma byte_of_to_N (b : byte) : byte_of_N (Byte.to_N b) = b.
Proof.
  unfold byte_of_N.
  rewrite N.mod_small by (pose proof (Byte.to_N_bounded b); lia).
  by rewrite Byte.of_to_N.
Qed.

Lemma to_N_byte_of_N (n : N) : (n < 256)%N -> Byte.to_N (byte_of_N n) = n.
Proof.
  intros Hn. unfold byte_of_N. rewrite N.mod_small by done.
  destruct (Byte.of_N n) as [b|] eqn:E.
  - by apply Byte.to_of_N.
  - apply Byte.of_N_None_iff in E. lia.
Qed.

Lemma htons_ntohs (b0 b1 : byte) :
  trunnel_htons (trunnel_ntohs b0 b1) = [b0; b1].
Proof.
  unfold trunnel_htons, trunnel_ntohs.
  pose proof (Byte.to_N_bounded b0). pose proof (Byte.to_N_bounded b1).
  replace ((Byte.to_N b0 * 256 + Byte.to_N b1) / 256)%N with (Byte.to_N b0)
    by (apply N.div_unique with (r := Byte.to_N b1); lia).
  replace ((Byte.to_N b0 * 256 + Byte.to_N b1) mod 256)%N with (Byte.to_N b1)
    by (apply N.mod_unique with (q := Byte.to_N b0); lia).
  by rewrite !byte_of_to_N.
Qed.

Lemma ntohs_bound (b0 b1 : byte) : (trunnel_ntohs b0 b1 < 65536)%N.
Proof.
  unfold trunnel_ntohs.
  pose proof (Byte.to_N_bounded b0). pose proof (Byte.to_N_bounded b1). lia.
Qed.

(** ** Inversion of the cursor steps *)

Lemma get_u8_inv i b r : get_u8 i = Ok (b, r) -> i = b :: r.
Proof. destruct i; simpl; congruence. Qed.

Lemma get_u16_inv i v r :
  get_u16 i = Ok (v, r) ->
  exists b0 b1, i = b0 :: b1 :: r /\ v = trunnel_ntohs b0 b1.
Proof.
  destruct i as [|b0 [|b1 i]]; simpl; try congruence.
  intros [= <- <-]. eauto.
Qed.

Lemma get_bytes_inv n i l r :
  get_bytes n i = Ok (l, r) -> i = l ++ r /\ length l = n.
Proof.
  unfold get_bytes. destruct (Nat.ltb_spec (length i) n); [congruence|].
  intros [= <- <-]. split; [by rewrite take_drop|].
  rewrite length_take. lia.
Qed.

Lemma pbind_inv {A B} (p : parser A) (f : A -> parser B) i b r :
  pbind p f i = Ok (b, r) ->
  exists a r1, p i = Ok (a, r1) /\ f a r1 = Ok (b, r).
Proof.
  unfold pbind. destruct (p i) as [[a r1]| |]; try congruence. eauto.
Qed.

(** ** Lawful parsers compose *)

Lemma consumes_length {A} (p : parser A) c c' a a' :
  consumes p c a -> consumes p c' a' ->
  (exists r, c' = c ++ r) -> c' = c /\ a' = a.
Proof.
  intros Hc Hc' [r ->].
  specialize (Hc r). specialize (Hc' []). rewrite app_nil_r in Hc'.
  rewrite Hc in Hc'. injection Hc' as -> ->. by rewrite app_nil_r.
Qed.

Lemma lawful_pret {A} (a : A) : lawful (pret a).
Proof.
  split.
  - intros i a' r [= <- <-]. exists []. split; [done|]. by intros r.
  - intros c a' Hc k Hk. specialize (Hc []). rewrite app_nil_r in Hc.
    injection Hc as _ ->. simpl in Hk. lia.
Qed.

Lemma lawful_pfail {A} code : lawful (@pfail A code).
Proof.
  split.
  - intros i a r. discriminate.
  - intros c a Hc. specialize (Hc []). discriminate.
Qed.

Lemma lawful_get_u8 : lawful get_u8.
Proof.
  split.
  - intros i b r ->%get_u8_inv. exists [b]. split; [done|]. by intros r'.
  - intros c b Hc k Hk. specialize (Hc []). rewrite app_nil_r in Hc.
    apply get_u8_inv in Hc as ->. destruct k; [done|]. simpl in Hk. lia.
Qed.

Lemma lawful_get_u16 : lawful get_u16.
Proof.
  split.
  - intros i v r (b0 & b1 & -> & ->)%get_u16_inv.
    exists [b0; b1]. split; [done|]. by intros r'.
  - intros c v Hc k Hk. specialize (Hc []). rewrite app_nil_r in Hc.
    apply get_u16_inv in Hc as (b0 & b1 & -> & _).
    destruct k as [|[|k]]; [done|done|]. simpl in Hk. lia.
Qed.

Lemma get_bytes_app n l r : length l = n -> get_bytes n (l ++ r) = Ok (l, r).
Proof.
  intros <-. unfold get_bytes.
  destruct (Nat.ltb_spec (length (l ++ r)) (length l)) as [Hlt|_].
  - rewrite length_app in Hlt. lia.
  - by rewrite take_app_length, drop_app_length.
Qed.

Lemma lawful_get_bytes n : lawful (get_bytes n).
Proof.
  split.
  - intros i l r [-> Hl]%get_bytes_inv. exists l. split; [done|].
    intros r'. by apply get_bytes_app.
  - intros c l Hc k Hk. specialize (Hc []). rewrite app_nil_r in Hc.
    apply get_bytes_inv in Hc as [Hc Hl]. rewrite app_nil_r in Hc. subst c.
    unfold get_bytes.
    destruct (Nat.ltb_spec (length (take k l)) n) as [_|Hge]; [done|].
    rewrite length_take in Hge. lia.
Qed.

Lemma lawful_pbind {A B} (p : parser A) (f : A -> parser B) :
  lawful p -> (forall a, lawful (f a)) -> lawful (pbind p f).
Proof.
  intros Hp Hf.
  assert (Hsplit : forall i b r, pbind p f i = Ok (b, r) ->
            exists c1 c2 a, i = (c1 ++ c2) ++ r /\
              consumes p c1 a /\ consumes (f a) c2 b).
  { intros i b r (a & r1 & Hpi & Hfi)%pbind_inv.
    apply (lawful_split _ Hp) in Hpi as (c1 & -> & Hc1).
    apply (lawful_split _ (Hf a)) in Hfi as (c2 & -> & Hc2).
    exists c1, c2, a. by rewrite <- app_assoc. }
  assert (Hcons : forall c1 c2 a b,
            consumes p c1 a -> consumes (f a) c2 b ->
            consumes (pbind p f) (c1 ++ c2) b).
  { intros c1 c2 a b Hc1 Hc2 r. unfold pbind.
    rewrite <- app_assoc, Hc1. apply Hc2. }
  split.
  - intros i b r Hi.
    destruct (Hsplit _ _ _ Hi) as (c1 & c2 & a & -> & Hc1 & Hc2).
    exists (c1 ++ c2). eauto.
  - intros c b Hc k Hk.
    pose proof (Hc []) as Hnil. rewrite app_nil_r in Hnil.
    destruct (Hsplit _ _ _ Hnil) as (c1 & c2 & a & Heq & Hc1 & Hc2).
    rewrite app_nil_r in Heq. subst c. unfold pbind.
    destruct (Nat.lt_ge_cases k (length c1)) as [Hlt|Hge].
    + rewrite take_app_le by lia.
      by rewrite (lawful_trunc _ Hp _ _ Hc1 k Hlt).
    + rewrite take_app_ge by lia. rewrite Hc1.
      apply (lawful_trunc _ (Hf a) _ _ Hc2).
      rewrite length_app in Hk. lia.
Qed.

Lemma lawful_if {A} (b : bool) (p q : parser A) :
  lawful p -> lawful q -> lawful (if b then p else q).
Proof. by destruct b. Qed.

Create HintDb lawful.
#[export] Hint Resolve lawful_pret lawful_pfail lawful_get_u8 lawful_get_u16
  lawful_get_bytes lawful_if : lawful.

Ltac lawful_steps :=
  repeat first
    [ apply lawful_pbind; [|intros ?]
    | apply lawful_if
    | solve [eauto with lawful] ].

Lemma consumed_count_lawful {A} (p : parser A) input a n :
  lawful p -> consumed_count p input = Ok (a, n) ->
  (n <= length input)%nat /\ consumes p (take n input) a.
Proof.
  intros Hp. unfold consumed_count.
  destruct (p input) as [[a' r]| |] eqn:E; try congruence.
  intros [= <- <-].
  apply (lawful_split _ Hp) in E as (c & -> & Hc).
  rewrite length_app. split; [lia|].
  replace (length c + length r - length r)%nat with (length c) by lia.
  by rewrite take_app_length.
Qed.

Lemma consumed_count_trunc {A} (p : parser A) input a n k :
  lawful p -> consumed_count p input = Ok (a, n) -> (k < n)%nat ->
  consumed_count p (take k input) = Err (-2).
Proof.
  intros Hp Hok Hk.
  destruct (consumed_count_lawful _ _ _ _ Hp Hok) as [Hn Hc].
  unfold consumed_count.
  replace (take k input) with (take k (take n input))
    by (rewrite take_take; f_equal; lia).
  rewrite (lawful_trunc _ Hp _ _ Hc); [done|].
  rewrite length_take. lia.
Qed.

Lemma put_ok avail w data :
  (length w + length data <= avail)%nat -> put avail w data = Ok (w ++ data).
Proof.
  intros Hle. unfold put.
  destruct (Nat.ltb_spec avail (length w)); [lia|].
  destruct (Nat.ltb_spec (avail - length w) (length data)); [lia|done].
Qed.

Lemma array_view_exact n l : length l = n -> array_view n l = l.
Proof. intros <-. unfold array_view. by rewrite take_app_length. Qed.

Section Cells.
Context `{CellExtensionLaws}.

#[local] Hint Resolve cell_extension_lawful : lawful.

Lemma hs_cell_establish_intro_parse_into_lawful :
  lawful hs_cell_establish_intro_parse_into.
Proof. unfold hs_cell_establish_intro_parse_into. lawful_steps. Qed.

Lemma hs_cell_intro_established_parse_into_lawful :
  lawful hs_cell_intro_established_parse_into.
Proof. unfold hs_cell_intro_established_parse_into. lawful_steps. Qed.

Lemma nested_roundtrip i e n r :
  nested cell_extension_parse i = Ok ((e, n), r) ->
  exists c, i = c ++ r /\ cell_extension_check e = None /\
    forall avail, (length c <= avail)%nat ->
      cell_extension_encode avail e = Ok c.
Proof.
  intros (c & -> & Hc)%(lawful_split _ cell_extension_lawful).
  exists c. split; [done|]. by apply cell_extension_roundtrip in Hc.
Qed.

Lemma put_extensions_ok avail w e c :
  (forall avail', (length c <= avail')%nat ->
     cell_extension_encode avail' e = Ok c) ->
  (length w + length c <= avail)%nat ->
  put_extensions avail w (Some e) = Ok (w ++ c).
Proof.
  intros He Hle. unfold put_extensions.
  destruct (Nat.ltb_spec avail (length w)); [lia|].
  rewrite He by lia. done.
Qed.

Lemma establish_intro_parse_into_encode i obj r :
  hs_cell_establish_intro_parse_into i = Ok (obj, r) ->
  exists c, i = c ++ r /\
    forall avail, (length c <= avail)%nat ->
      hs_cell_establish_intro_encode avail obj = Ok c.
Proof.
  unfold hs_cell_establish_intro_parse_into.
  intros (t & r1 & ->%get_u8_inv & Hi)%pbind_inv.
  destruct (auth_key_type_in_range t) eqn:Ht; simpl in Hi; [|discriminate].
  apply pbind_inv in Hi as (klen & r2 & (b0 & b1 & -> & ->)%get_u16_inv & Hi).
  apply pbind_inv in Hi as (key & r3 & [-> Hkey]%get_bytes_inv & Hi).
  apply pbind_inv in Hi as ([e n] & r4 & (ce & -> & Hchk & Henc)%nested_roundtrip & Hi).
  apply pbind_inv in Hi as (mac & r5 & [-> Hmac]%get_bytes_inv & Hi).
  apply pbind_inv in Hi as (slen & r6 & (s0 & s1 & -> & ->)%get_u16_inv & Hi).
  apply pbind_inv in Hi as (sg & r7 & [-> Hsg]%get_bytes_inv & Hi).
  injection Hi as <- <-.
  exists (t :: b0 :: b1 :: key ++ ce ++ mac ++ s0 :: s1 :: sg).
  split; [by simpl; rewrite <- !app_assoc|].
  intros avail Havail. simpl in Havail. rewrite !length_app in Havail.
  simpl in Havail. pose proof Hmac as Hmac'. unfold TRUNNEL_SHA3_256_LEN in Hmac'.
  unfold hs_cell_establish_intro_encode, hs_cell_establish_intro_check.
  cbn [trunnel_error_code_ auth_key_type auth_key auth_key_len extensions
       sig sig_len handshake_mac check_extensions fst snd].
  rewrite Ht, Hkey, Hsg, !N2Nat.id, !N.eqb_refl, Hchk. cbn [negb rbind].
  rewrite put_ok by (simpl; lia). cbn [rbind].
  rewrite htons_ntohs, put_ok by (simpl; lia). cbn [rbind].
  rewrite put_ok by (rewrite ?length_app; simpl; lia). cbn [rbind].
  rewrite (put_extensions_ok _ _ _ ce) by
    (try done; rewrite ?length_app; simpl; lia). cbn [rbind].
  rewrite (array_view_exact _ _ Hmac).
  rewrite put_ok by (rewrite ?length_app; simpl; lia). cbn [rbind].
  rewrite htons_ntohs, put_ok by (rewrite ?length_app; simpl; lia).
  cbn [rbind].
  rewrite put_ok by (rewrite ?length_app; simpl; lia). cbn [rbind].
  f_equal. simpl. by rewrite <- !app_assoc.
Qed.

Lemma intro_established_parse_into_encode i obj r :
  hs_cell_intro_established_parse_into i = Ok (obj, r) ->
  exists c, i = c ++ r /\
    forall avail, (length c <= avail)%nat ->
      hs_cell_intro_established_encode avail obj = Ok c.
Proof.
  unfold hs_cell_intro_established_parse_into.
  intros ([e n] & r1 & (ce & -> & Hchk & Henc)%nested_roundtrip & Hi)%pbind_inv.
  injection Hi as <- <-. exists ce. split; [done|].
  intros avail Havail.
  unfold hs_cell_intro_established_encode, hs_cell_intro_established_check.
  cbn [ie_trunnel_error_code_ ie_extensions check_extensions fst].
  rewrite Hchk. rewrite (put_extensions_ok _ _ _ ce) by (try done; simpl; lia).
  done.
Qed.

Lemma consumed_count_roundtrip {A} (p : parser A) (enc : nat -> A -> ret (list byte))
    input a n :
  (forall i a r, p i = Ok (a, r) ->
     exists c, i = c ++ r /\
       forall avail, (length c <= avail)%nat -> enc avail a = Ok c) ->
  consumed_count p input = Ok (a, n) ->
  (n <= length input)%nat /\
  forall avail, (n <= avail)%nat -> enc avail a = Ok (take n input).
Proof.
  intros Hrt. unfold consumed_count.
  destruct (p input) as [[a' r]| |] eqn:E; try congruence.
  intros [= <- <-]. apply Hrt in E as (c & -> & Henc).
  rewrite length_app.
  replace (length c + length r - length r)%nat with (length c) by lia.
  rewrite take_app_length. split; [lia|done].
Qed.

End Cells.

End TrunnelFacts.

(** * The concrete cell_extension codec is lawful *)

Module CellCommonFacts.
Import Trunnel TrunnelFacts CellCommon.

Lemma lawful_nested_consumed {A} (p : parser A) :
  lawful p -> lawful (nested (consumed_count p)).
Proof.
  intros Hp.
  assert (Heq : forall c a r, consumes p c a ->
            nested (consumed_count p) (c ++ r) = Ok ((a, length c), r)).
  { intros c a r Hc. unfold nested, consumed_count. rewrite Hc.
    rewrite length_app.
    replace (length c + length r - length r)%nat with (length c) by lia.
    destruct (Nat.leb_spec (length c) (length c + length r)); [|lia].
    by rewrite drop_app_length. }
  assert (Hinv : forall i a n r, nested (consumed_count p) i = Ok ((a, n), r) ->
            exists c, i = c ++ r /\ n = length c /\ consumes p c a).
  { intros i a n r. unfold nested, consumed_count.
    destruct (p i) as [[a' r']| |] eqn:E; try discriminate.
    apply (lawful_split _ Hp) in E as (c & -> & Hc).
    rewrite length_app.
    replace (length c + length r' - length r')%nat with (length c) by lia.
    destruct (Nat.leb_spec (length c) (length c + length r')); [|lia].
    rewrite drop_app_length. intros [= <- <- <-]. eauto. }
  split.
  - intros i [a n] r (c & -> & -> & Hc)%Hinv. exists c. split; [done|].
    intros r'. by apply Heq.
  - intros c [a n] Hc k Hk.
    pose proof (Hc []) as Hnil. rewrite app_nil_r in Hnil.
    apply Hinv in Hnil as (c' & Hcc & -> & Hc').
    rewrite app_nil_r in Hcc. subst c'.
    unfold nested, consumed_count.
    by rewrite (lawful_trunc _ Hp _ _ Hc' k Hk).
Qed.

Lemma cell_extension_fields_parse_into_lawful :
  lawful cell_extension_fields_parse_into.
Proof. unfold cell_extension_fields_parse_into. lawful_steps. Qed.

Lemma parse_fields_lawful count : lawful (parse_fields count).
Proof.
  induction count as [|k IH]; simpl.
  - apply lawful_pret.
  - apply lawful_pbind.
    + apply lawful_nested_consumed, cell_extension_fields_parse_into_lawful.
    + intros f. apply lawful_pbind; [done|]. intros fs. apply lawful_pret.
Qed.

Lemma cell_extension_parse_into_lawful : lawful cell_extension_parse_into.
Proof.
  unfold cell_extension_parse_into.
  apply lawful_pbind; [apply lawful_get_u8|]. intros n.
  apply lawful_pbind; [apply parse_fields_lawful|]. intros fs.
  apply lawful_pret.
Qed.

Lemma nested_consumed_ok {A} (p : parser A) i a n r :
  lawful p -> nested (consumed_count p) i = Ok ((a, n), r) -> p i = Ok (a, r).
Proof.
  intros Hp. unfold nested, consumed_count.
  destruct (p i) as [[a' r']| |] eqn:E; try discriminate.
  apply (lawful_split _ Hp) in E as (c & -> & Hc).
  rewrite length_app.
  replace (length c + length r' - length r')%nat with (length c) by lia.
  destruct (Nat.leb_spec (length c) (length c + length r')); [|lia].
  rewrite drop_app_length. by intros [= <- <- <-].
Qed.

Lemma fields_parse_into_encode i f r :
  cell_extension_fields_parse_into i = Ok (f, r) ->
  exists c, i = c ++ r /\ cell_extension_fields_check f = None /\
    forall avail, (length c <= avail)%nat ->
      cell_extension_fields_encode avail f = Ok c.
Proof.
  unfold cell_extension_fields_parse_into.
  intros (ty & r1 & ->%get_u8_inv & Hi)%pbind_inv.
  apply pbind_inv in Hi as (ln & r2 & ->%get_u8_inv & Hi).
  apply pbind_inv in Hi as (body & r3 & [-> Hbody]%get_bytes_inv & Hi).
  injection Hi as <- <-.
  assert (Hchk : cell_extension_fields_check
            {| field_type := ty; field_len := ln; field := body |} = None).
  { unfold cell_extension_fields_check. simpl.
    by rewrite Hbody, N2Nat.id, N.eqb_refl. }
  exists (ty :: ln :: body). split; [done|]. split; [done|].
  intros avail Havail. simpl in Havail.
  unfold cell_extension_fields_encode. rewrite Hchk. simpl.
  rewrite put_ok by (simpl; lia). cbn [rbind].
  rewrite put_ok by (simpl; lia). cbn [rbind].
  rewrite put_ok by (simpl; lia). done.
Qed.

Lemma parse_fields_encode k : forall i fs r,
  parse_fields k i = Ok (fs, r) ->
  exists c, i = c ++ r /\ length fs = k /\ check_fields fs = None /\
    forall avail w, (length w + length c <= avail)%nat ->
      encode_fields avail w fs = Ok (w ++ c).
Proof.
  induction k as [|k IH]; intros i fs r; simpl.
  - intros [= <- <-]. exists []. repeat split; try done.
    intros avail w _. by rewrite app_nil_r.
  - intros ([f n] & r1 & Hf & Hi)%pbind_inv.
    apply nested_consumed_ok in Hf;
      [|apply cell_extension_fields_parse_into_lawful].
    apply fields_parse_into_encode in Hf as (c1 & -> & Hchk1 & Henc1).
    apply pbind_inv in Hi as (fs' & r2 & Hfs & Hi).
    apply IH in Hfs as (c2 & -> & Hlen & Hchk2 & Henc2).
    injection Hi as <- <-. exists (c1 ++ c2).
    split; [by rewrite app_assoc|]. split; [by simpl; rewrite Hlen|].
    split; [by simpl; rewrite Hchk1|].
    intros avail w Havail. rewrite length_app in Havail. simpl.
    destruct (Nat.ltb_spec avail (length w)); [lia|].
    rewrite Henc1 by lia. cbn [rbind].
    rewrite Henc2 by (rewrite length_app; lia). by rewrite app_assoc.
Qed.

Lemma cell_extension_parse_into_encode i e r :
  cell_extension_parse_into i = Ok (e, r) ->
  exists c, i = c ++ r /\ cell_extension_check e = None /\
    forall avail, (length c <= avail)%nat ->
      cell_extension_encode avail e = Ok c.
Proof.
  unfold cell_extension_parse_into.
  intros (n & r1 & ->%get_u8_inv & Hi)%pbind_inv.
  apply pbind_inv in Hi as (fs & r2 & Hfs & Hi).
  apply parse_fields_encode in Hfs as (c & -> & Hlen & Hchk & Henc).
  injection Hi as <- <-.
  assert (Hc : cell_extension_check {| num := n; fields := fs |} = None).
  { unfold cell_extension_check. simpl.
    by rewrite Hchk, Hlen, N2Nat.id, N.eqb_refl. }
  exists (n :: c). split; [done|]. split; [done|].
  intros avail Havail. simpl in Havail.
  unfold cell_extension_encode. rewrite Hc. simpl.
  rewrite put_ok by (simpl; lia). cbn [rbind].
  rewrite Henc by (simpl; lia). done.
Qed.

#[export] Instance cell_common_laws : CellExtensionLaws.
Proof.
  split.
  - apply lawful_nested_consumed, cell_extension_parse_into_lawful.
  - intros c e n Hc. specialize (Hc []). rewrite app_nil_r in Hc.
    apply nested_consumed_ok in Hc; [|apply cell_extension_parse_into_lawful].
    apply cell_extension_parse_into_encode in Hc as (c' & Hcc & Hchk & Henc).
    rewrite app_nil_r in Hcc. by subst c'.
Qed.

End CellCommonFacts.

(** * The cell codec claims *)

Module CellClaims.
Import CellCommon CellCommonFacts Trunnel TrunnelFacts.

Lemma pbind_err {A B} (p : parser A) (f : A -> parser B) i c :
  pbind p f i = Err c ->
  p i = Err c \/ exists a r, p i = Ok (a, r) /\ f a r = Err c.
Proof.
  unfold pbind. destruct (p i) as [[a r]| |]; intros Hp; try discriminate.
  - right. exists a, r. by split.
  - left. by injection Hp as ->.
Qed.

Lemma get_u8_err i c : get_u8 i = Err c -> c = -2.
Proof. destruct i; simpl; congruence. Qed.

Lemma get_u16_err i c : get_u16 i = Err c -> c = -2.
Proof. destruct i as [|? [|? ?]]; simpl; congruence. Qed.

Lemma get_bytes_err n i c : get_bytes n i = Err c -> c = -2.
Proof. unfold get_bytes. destruct (_ <? _)%nat; congruence. Qed.

Lemma nested_err {A} (p : list byte -> ret (A * nat)) i c :
  nested p i = Err c -> p i = Err c.
Proof.
  unfold nested. destruct (p i) as [[a n]| |]; try discriminate.
  - destruct (_ <=? _)%nat; discriminate.
  - congruence.
Qed.

Lemma consumed_count_err {A} (p : parser A) i c :
  consumed_count p i = Err c <-> p i = Err c.
Proof.
  unfold consumed_count. destruct (p i) as [[a r]| |]; split; congruence.
Qed.

Section Claims.
Context `{CellExtensionLaws}.

(** C3 (amended): the parsers of ESTABLISH_INTRO and INTRO_ESTABLISHED
    return the number [n] of bytes they consumed, which may be less than
    the length of the input; re-encoding the parsed object into a buffer
    of at least [n] bytes writes exactly the first [n] bytes of the input.
    In particular [encode (parse b) = b] when the parser consumed all of
    [b]. *)
Theorem cell_codec_roundtrip_consumed :
  (forall b obj n,
     hs_cell_establish_intro_parse b = Ok (obj, n) ->
     (n <= length b)%nat /\
     forall avail, (n <= avail)%nat ->
       hs_cell_establish_intro_encode avail obj = Ok (take n b)) /\
  (forall b obj n,
     hs_cell_intro_established_parse b = Ok (obj, n) ->
     (n <= length b)%nat /\
     forall avail, (n <= avail)%nat ->
       hs_cell_intro_established_encode avail obj = Ok (take n b)).
Proof.
  split; intros b obj n Hp.
  - eapply consumed_count_roundtrip; [|exact Hp].
    apply establish_intro_parse_into_encode.
  - eapply consumed_count_roundtrip; [|exact Hp].
    apply intro_established_parse_into_encode.
Qed.

(** C4 (amended): the tag is checked right after it is read, before any
    later length check. The empty input is Truncated ([-2]); every input
    whose first byte is outside {0,1,2} is Invalid ([-1]), also when the
    rest of the cell is missing; every proper prefix of the bytes consumed
    from an accepted cell is Truncated. Truncated is never returned for a
    bad tag, and Invalid is returned only for a bad tag or when the tag
    and the key were read and the nested extension parser, run on the
    bytes that follow the key, returned [-1] itself; whatever error code
    that parser returns there is the result. *)
Theorem establish_intro_parse_errors :
  hs_cell_establish_intro_parse [] = Err (-2) /\
  (forall t rest,
     auth_key_type_in_range t = false ->
     hs_cell_establish_intro_parse (t :: rest) = Err (-1)) /\
  (forall b obj n k,
     hs_cell_establish_intro_parse b = Ok (obj, n) -> (k < n)%nat ->
     hs_cell_establish_intro_parse (take k b) = Err (-2)) /\
  (forall t rest,
     hs_cell_establish_intro_parse (t :: rest) = Err (-2) ->
     auth_key_type_in_range t = true) /\
  (forall b,
     hs_cell_establish_intro_parse b = Err (-1) ->
     (exists t rest, b = t :: rest /\ auth_key_type_in_range t = false) \/
     (exists t b0 b1 key rest,
        b = t :: b0 :: b1 :: key ++ rest /\
        auth_key_type_in_range t = true /\
        length key = N.to_nat (trunnel_ntohs b0 b1) /\
        cell_extension_parse rest = Err (-1))) /\
  (forall t b0 b1 key rest c,
     auth_key_type_in_range t = true ->
     length key = N.to_nat (trunnel_ntohs b0 b1) ->
     cell_extension_parse rest = Err c ->
     hs_cell_establish_intro_parse (t :: b0 :: b1 :: key ++ rest) = Err c).
Proof.
  assert (Hbad : forall t rest, auth_key_type_in_range t = false ->
            hs_cell_establish_intro_parse (t :: rest) = Err (-1)).
  { intros t rest Ht. unfold hs_cell_establish_intro_parse, consumed_count,
      hs_cell_establish_intro_parse_into, pbind. simpl. by rewrite Ht. }
  split; [done|]. split; [exact Hbad|]. split; [|split; [|split]].
  - intros b obj n k Hp Hk.
    eapply consumed_count_trunc; [|exact Hp|exact Hk].
    apply hs_cell_establish_intro_parse_into_lawful.
  - intros t rest Hp.
    destruct (auth_key_type_in_range t) eqn:Ht; [done|].
    rewrite (Hbad _ _ Ht) in Hp. discriminate.
  - intros b [Hp|(t & r1 & Ht & Hp)]%consumed_count_err%pbind_err.
    { apply get_u8_err in Hp. discriminate. }
    apply get_u8_inv in Ht as ->.
    destruct (auth_key_type_in_range t) eqn:Hr; simpl in Hp;
      [|left; eauto].
    right.
    apply pbind_err in Hp as [Hp|(klen & r2 & Hklen & Hp)];
      [apply get_u16_err in Hp; discriminate|].
    apply get_u16_inv in Hklen as (b0 & b1 & -> & ->).
    apply pbind_err in Hp as [Hp|(key & r3 & Hkey & Hp)];
      [apply get_bytes_err in Hp; discriminate|].
    apply get_bytes_inv in Hkey as [-> Hlen].
    apply pbind_err in Hp as [Hp|(ext & r4 & _ & Hp)];
      [apply nested_err in Hp; by exists t, b0, b1, key, r3|].
    apply pbind_err in Hp as [Hp|(mac & r5 & _ & Hp)];
      [apply get_bytes_err in Hp; discriminate|].
    apply pbind_err in Hp as [Hp|(slen & r6 & _ & Hp)];
      [apply get_u16_err in Hp; discriminate|].
    apply pbind_err in Hp as [Hp|(sg & r7 & _ & Hp)];
      [apply get_bytes_err in Hp; discriminate|].
    discriminate.
  - intros t b0 b1 key rest c Ht Hlen Hext.
    unfold hs_cell_establish_intro_parse, consumed_count,
      hs_cell_establish_intro_parse_into, pbind. simpl. rewrite Ht. simpl.
    rewrite <- Hlen, get_bytes_app by done. unfold nested. by rewrite Hext.
Qed.

End Claims.

(** C3, as stated, fails: the parser accepts a cell followed by one more
    byte, and re-encoding yields the cell without that byte. *)
Lemma cell_codec_roundtrip_trailing_byte :
  exists obj,
    hs_cell_establish_intro_parse (sample_cell ++ [xff]) = Ok (obj, 41%nat) /\
    hs_cell_establish_intro_encode 42 obj = Ok sample_cell /\
    sample_cell <> sample_cell ++ [xff].
Proof.
  eexists. split; [vm_compute; reflexivity|]. split; [vm_compute; reflexivity|].
  intros Heq. apply (f_equal length) in Heq. vm_compute in Heq. discriminate.
Qed.

Lemma cell_codec_roundtrip_consumed_witness :
  exists obj,
    hs_cell_establish_intro_parse (sample_cell ++ [xff]) = Ok (obj, 41%nat) /\
    hs_cell_establish_intro_encode 41 obj
      = Ok (take 41 (sample_cell ++ [xff])).
Proof.
  eexists. split; [vm_compute; reflexivity|].
  apply (proj1 (@cell_codec_roundtrip_consumed _ CellCommonFacts.cell_common_laws)
           (sample_cell ++ [xff]) _ 41%nat); [vm_compute; reflexivity|lia].
Defined.

(** C4, as stated, fails: the one-byte input [03] ends before the fields
    of the cell (at least 1 + 2 + 32 + 2 bytes) are complete, and the
    parser reports Invalid, not Truncated. *)
Lemma establish_intro_truncated_bad_tag :
  (length [x03] < 1 + 2 + TRUNNEL_SHA3_256_LEN + 2)%nat /\
  hs_cell_establish_intro_parse [x03] = Err (-1) /\
  hs_cell_establish_intro_parse [x03] <> Err (-2).
Proof. split; [vm_compute; lia|]. split; [reflexivity|discriminate]. Qed.

Lemma establish_intro_parse_errors_witness :
  hs_cell_establish_intro_parse (take 40 sample_cell) = Err (-2).
Proof.
  eapply (proj1 (proj2 (proj2
            (@establish_intro_parse_errors _ CellCommonFacts.cell_common_laws)))
            sample_cell _ 41%nat 40%nat); [vm_compute; reflexivity|lia].
Defined.

End CellClaims.

(** * Properties of the draft SRV computation *)

Module SRDraftFacts.
Import SRDraft.

Lemma length_array_view n l : length (array_view n l) = n.
Proof.
  unfold array_view. rewrite length_take, length_app, length_replicate. lia.
Qed.

Lemma array_view_id n l : length l = n -> array_view n l = l.
Proof. intros <-. unfold array_view. by rewrite take_app_length. Qed.

Lemma array_view_nil n : array_view n [] = replicate n x00.
Proof.
  unfold array_view. simpl. rewrite take_ge; [done|].
  by rewrite length_replicate.
Qed.

Lemma filter_Forall_id {A} (P : A -> Prop) `{forall x, Decision (P x)}
    (l : list A) :
  Forall P l -> filter P l = l.
Proof.
  induction 1 as [|x l Hx Hl IH]; [done|].
  rewrite filter_cons. destruct (decide (P x)); [by rewrite IH|done].
Qed.

Section Engine.
Context `{Crypto}.

(** The buffer [generate_srv] fills is the message of the specification. *)
Lemma generate_srv_message st h n :
  (3 <= n)%nat -> (n < 256)%nat ->
  (forall prev, previous_srv st = Some prev -> length (value prev) = 32%nat) ->
  length h = 32%nat ->
  generate_srv st h (N.of_nat n) =
    Returns {| status := SR_SRV_STATUS_FRESH;
               value := crypto_hmac_sha256 h (srv_message n st) |}.
Proof.
  intros Hn3 Hn Hprev Hh. unfold generate_srv.
  change DIGEST256_LEN with 32%nat.
  destruct (N.leb_spec 3 (N.of_nat n)) as [_|]; [|lia].
  cbn [tor_assert obind]. f_equal. f_equal.
  f_equal; [by apply array_view_id|].
  unfold srv_message, previous_value_or_zeros.
  destruct (previous_srv st) as [prev|] eqn:Hp.
  - specialize (Hprev prev eq_refl).
    rewrite (array_view_id _ _ Hprev).
    unfold memcpy_at at 1. rewrite Hprev.
    vm_compute (SR_SRV_HMAC_MSG_LEN). vm_compute (SR_SRV_TOKEN_LEN).
    vm_compute (bytes_of_string SR_SRV_TOKEN).
    vm_compute (bytes_of_string "shared-random").
    generalize (byte_of_N (N.of_nat n)) (byte_of_N SR_PROTO_VERSION).
    intros b v. unfold memcpy_at. simpl. by rewrite app_nil_r.
  - reflexivity.
Qed.

Lemma compute_enough_reveals st :
  phase st = SR_PHASE_REVEAL ->
  (3 <= size (commitments st) < 255)%nat ->
  (forall prev, previous_srv st = Some prev -> length (value prev) = 32%nat) ->
  forall h,
    crypto_digest256
      (reveals_buffer (smartlist_sort (map_to_list (commitments st)).*2))
      DIGEST_SHA256 = Some h ->
    length h = 32%nat ->
    compute_shared_random_value st =
      Returns (set_current_srv st
        (Some {| status := SR_SRV_STATUS_FRESH;
                 value := crypto_hmac_sha256 h
                            (srv_message (size (commitments st)) st) |})).
Proof.
  intros Hphase [Hn3 Hn] Hprev h Hh Hlen. unfold compute_shared_random_value.
  rewrite Hphase. cbn [sr_phase_eqb tor_assert obind].
  unfold UINT8_MAX, SR_SRV_MIN_REVEAL.
  destruct (Nat.ltb_spec (size (commitments st)) 255); [|lia].
  cbn [obind].
  destruct (Nat.eqb_spec (size (commitments st)) 0); [lia|].
  destruct (Nat.ltb_spec (size (commitments st)) 3); [lia|].
  unfold reveals_buffer in Hh. unfold smartlist_join_strings. rewrite Hh.
  rewrite N.mod_small by lia.
  rewrite (generate_srv_message st h (size (commitments st))) by (done || lia).
  done.
Qed.

End Engine.

(** The sort puts the commits in ascending order of [strcmp] on the
    authority fingerprint. *)
Lemma smartlist_sort_spec l :
  Permutation (smartlist_sort l) l /\
  Sorted (fun a b =>
            (strcmp (auth_fingerprint a) (auth_fingerprint b) <= 0)%Z)
         (smartlist_sort l).
Proof.
  split.
  - symmetry. apply CommitSort.Permuted_sort.
  - unfold smartlist_sort.
    induction (CommitSort.Sorted_sort l) as [|a l' Hs IH Hhd]; constructor.
    + exact IH.
    + destruct Hhd as [|b l'' Hab]; constructor.
      unfold is_true, CommitOrder.leb, compare_commit_identity_ in Hab.
      by apply Z.leb_le.
Qed.

End SRDraftFacts.

(** * The claims on the draft SRV computation *)

Module SRDraftClaims.
Import SRDraft SRDraftFacts.

(** C1 (amended): at the end of the reveal phase, when every stored commit
    carries its reveal and C, the set of these commits, has at least 3 and
    fewer than 255 elements, [compute_shared_random_value] sorts C in
    ascending [strcmp] order of the authority fingerprint, concatenates
    [auth_fingerprint || encoded_reveal] in that order into R, hashes R
    with SHA-256 (the [DIGEST_SHA256] of this revision, not SHA3-256),
    builds [M = "shared-random" || u8(|C|) || u8(1) || (previous_srv.value
    or 32 zero bytes)] and stores [HMAC-SHA256(key = hashed_reveals,
    msg = M)] as the current SRV, marked fresh. The SRV object of this
    revision has a status and no [num_reveals] field: [|C|] only enters the
    message. *)
Theorem srv_computation `{Crypto} (st : sr_state_t) :
  phase st = SR_PHASE_REVEAL ->
  Forall (fun c => commit_has_reveal_value c = true)
         (map_to_list (commitments st)).*2 ->
  (3 <= length (revealed_commits st) < 255)%nat ->
  (forall prev, previous_srv st = Some prev -> length (value prev) = 32%nat) ->
  exists sorted,
    Permutation sorted (revealed_commits st) /\
    Sorted (fun a b =>
              (strcmp (auth_fingerprint a) (auth_fingerprint b) <= 0)%Z)
           sorted /\
    forall hashed_reveals,
      crypto_digest256 (reveals_buffer sorted) DIGEST_SHA256
        = Some hashed_reveals ->
      length hashed_reveals = 32%nat ->
      compute_shared_random_value st =
        Returns (set_current_srv st
          (Some {| status := SR_SRV_STATUS_FRESH;
                   value := crypto_hmac_sha256 hashed_reveals
                              (srv_message (length sorted) st) |})).
Proof.
  intros Hphase Hall Hn Hprev.
  assert (Hrev : revealed_commits st = (map_to_list (commitments st)).*2).
  { unfold revealed_commits. by apply filter_Forall_id. }
  rewrite Hrev in *.
  assert (Hsize : length (map_to_list (commitments st)).*2
                  = size (commitments st)).
  { by rewrite length_fmap, length_map_to_list. }
  destruct (smartlist_sort_spec (map_to_list (commitments st)).*2)
    as [Hperm Hsorted].
  exists (smartlist_sort (map_to_list (commitments st)).*2).
  split; [done|]. split; [done|].
  intros h Hh Hlen.
  rewrite (Permutation_length Hperm), Hsize.
  apply compute_enough_reveals; try done. lia.
Qed.

(** C2 (amended): when the state holds no commit, no SRV is computed and
    the current SRV stays as it was; when it holds at least one and fewer
    than 3 commits (so fewer than 3 reveals) and a previous SRV exists,
    the computed SRV is [HMAC-SHA256(key = previous_srv.value,
    msg = "shared-random-disaster")] with the non-fresh status. *)
Theorem disaster_srv `{Crypto} (st : sr_state_t) :
  phase st = SR_PHASE_REVEAL ->
  (size (commitments st) = 0%nat ->
   compute_shared_random_value st = Returns st) /\
  (forall prev,
     (0 < size (commitments st) < 3)%nat ->
     previous_srv st = Some prev ->
     length (value prev) = 32%nat ->
     compute_shared_random_value st =
       Returns (set_current_srv st
         (Some {| status := SR_SRV_STATUS_NONFRESH;
                  value := crypto_hmac_sha256 (value prev)
                             (bytes_of_string "shared-random-disaster") |}))).
Proof.
  intros Hphase. unfold compute_shared_random_value.
  rewrite Hphase. cbn [sr_phase_eqb tor_assert obind].
  unfold UINT8_MAX, SR_SRV_MIN_REVEAL. split.
  - intros ->. done.
  - intros prev [Hpos Hlt] Hprev Hlen.
    destruct (Nat.ltb_spec (size (commitments st)) 255); [|lia].
    cbn [obind].
    destruct (Nat.eqb_spec (size (commitments st)) 0); [lia|].
    destruct (Nat.ltb_spec (size (commitments st)) 3); [|lia].
    unfold generate_srv_disaster. rewrite Hprev. cbn [obind].
    change DIGEST256_LEN with 32%nat. by rewrite (array_view_id _ _ Hlen).
Qed.


(** The precondition of [generate_srv_disaster]. *)
Lemma generate_srv_disaster_returns `{Crypto} (st : sr_state_t) :
  (exists srv, generate_srv_disaster st = Returns srv) <->
  is_Some (previous_srv st).
Proof.
  unfold generate_srv_disaster. destruct (previous_srv st) as [prev|].
  - split; eauto.
  - split; [intros [srv Hs]; discriminate|intros [x Hx]; discriminate].
Qed.

(** C1, as stated, fails: on three revealed commits the stored value is
    keyed with the SHA-256 digest of R, not the SHA3-256 digest; and with
    no commit at all, nothing is computed. *)
Lemma srv_computation_not_sha3 :
  (exists st',
     @compute_shared_random_value readable_crypto
        (sample_state three_commits None) = Returns st' /\
     value <$> current_srv st' <>
       @spec_srv_value readable_crypto (sample_state three_commits None)) /\
  @compute_shared_random_value readable_crypto (sample_state [] None)
    = Returns (sample_state [] None) /\
  current_srv (sample_state [] None) = None.
Proof.
  split; [|split; [vm_compute; reflexivity|reflexivity]].
  eexists. split; [vm_compute; reflexivity|].
  vm_compute. discriminate.
Qed.

Lemma srv_computation_witness :
  exists sorted,
    Permutation sorted (revealed_commits (sample_state three_commits None)) /\
    Sorted (fun a b =>
              (strcmp (auth_fingerprint a) (auth_fingerprint b) <= 0)%Z)
           sorted /\
    forall hashed_reveals,
      @crypto_digest256 readable_crypto (reveals_buffer sorted) DIGEST_SHA256
        = Some hashed_reveals ->
      length hashed_reveals = 32%nat ->
      @compute_shared_random_value readable_crypto
          (sample_state three_commits None) =
        Returns (set_current_srv (sample_state three_commits None)
          (Some {| status := SR_SRV_STATUS_FRESH;
                   value := @crypto_hmac_sha256 readable_crypto hashed_reveals
                              (srv_message (length sorted)
                                 (sample_state three_commits None)) |})).
Proof.
  apply (@srv_computation readable_crypto (sample_state three_commits None)).
  - reflexivity.
  - vm_compute. repeat constructor.
  - vm_compute. lia.
  - intros prev Hprev. discriminate.
Defined.

(** C2, as stated, fails: with no commit (hence fewer than 3 reveals) the
    computation at the end of the run leaves the current SRV absent; no
    disaster SRV is emitted. *)
Lemma disaster_srv_not_for_empty_state :
  (length (revealed_commits (sample_state [] (Some sample_srv))) < 3)%nat /\
  exists st',
    @compute_shared_random_value readable_crypto
       (sample_state [] (Some sample_srv)) = Returns st' /\
    current_srv st' = None.
Proof.
  split; [vm_compute; lia|]. eexists. split; [vm_compute; reflexivity|done].
Qed.

Lemma disaster_srv_witness :
  @compute_shared_random_value readable_crypto
     (sample_state (take 2 three_commits) (Some sample_srv)) =
    Returns (set_current_srv
      (sample_state (take 2 three_commits) (Some sample_srv))
      (Some {| status := SR_SRV_STATUS_NONFRESH;
               value := @crypto_hmac_sha256 readable_crypto
                          (value sample_srv)
                          (bytes_of_string "shared-random-disaster") |})).
Proof.
  apply (proj2 (@disaster_srv readable_crypto
                  (sample_state (take 2 three_commits) (Some sample_srv))
                  eq_refl) sample_srv).
  - vm_compute. lia.
  - reflexivity.
  - reflexivity.
Defined.



End SRDraftClaims.

(** * Properties of the merged state engine *)

Module SRFacts.
Import SR.

Section Load.
Context `{Text} `{Voting} `{ConfParse}.


Lemma commit_add_to_state_fresh commit st :
  commits st !! digestmap_key (rsa_identity_fpr commit) = None ->
  commit_add_to_state commit st =
    Returns (set_commits st
               (<[digestmap_key (rsa_identity_fpr commit) := commit]>
                  (commits st))).
Proof.
  intros Hnone. unfold commit_add_to_state. rewrite Hnone.
  by rewrite bool_decide_eq_true_2.
Qed.

Lemma commit_add_to_state_taken commit st saved :
  commits st !! digestmap_key (rsa_identity_fpr commit) = Some saved ->
  commit_add_to_state commit st = Assertion_failure "saved_commit == NULL".
Proof.
  intros Hsome. unfold commit_add_to_state. rewrite Hsome.
  by rewrite bool_decide_eq_false_2.
Qed.




End Load.

End SRFacts.

(** * The claims on the merged state engine *)

Module SRClaims.
Import SR SRFacts.

(** C9: [sr_parse_srv] returns NULL exactly when fewer than two tokens are
    given or the first token does not parse as an integer in
    [0, INT32_MAX]; otherwise it returns an object whose value is whatever
    [base16_decode] left in the zeroed buffer, the result of that call
    being discarded, so the value token is never validated. *)
Theorem sr_parse_srv_value_not_validated `{Text} (args : list string) :
  let parsed := tor_parse_long (smartlist_get args 0) 10 0 INT32_MAX in
  let decoded :=
    base16_decode (replicate 32 x00) (smartlist_get args 1) 64 in
  (sr_parse_srv args = None <->
     (length args < 2)%nat \/ parsed.2 = false) /\
  ((2 <= length args)%nat -> parsed.2 = true ->
     sr_parse_srv args =
       Some {| num_reveals := parsed.1; value := decoded.2 |}).
Proof.
  intros parsed decoded. subst parsed decoded. unfold sr_parse_srv.
  change DIGEST256_LEN with 32%nat. change HEX_DIGEST256_LEN with 64%nat.
  destruct (Nat.ltb_spec (length args) 2) as [Hlt|Hge].
  { split; [|lia]. split; [by left|done]. }
  destruct (tor_parse_long _ _ _ _) as [n ok]; simpl.
  destruct (base16_decode _ _ _) as [rc bytes]; simpl.
  destruct ok; simpl.
  - split; [|done]. split; [done|]. intros [?|?]; [lia|done].
  - split; [|done]. split; [by right|done].
Qed.

Lemma sr_parse_srv_value_not_validated_witness :
  sr_parse_srv ["3"; "this is not a hexadecimal value"]%string =
    Some {| num_reveals := 3; value := replicate 32 x00 |}.
Proof.
  apply (proj2 (@sr_parse_srv_value_not_validated sample_text
                  ["3"; "this is not a hexadecimal value"]%string)).
  - simpl. lia.
  - reflexivity.
Defined.

(** C7 (amended): [sr_state_add_commit] stores a commit under the map key
    of the RSA fingerprint of its authority, which is the first DIGEST_LEN
    (20) bytes of the fingerprint, when no commit is stored under that key
    yet, and then saves the state: with a disk state set, the disk state
    becomes the disk form of the new memory state and the file is written
    with it when the write succeeds, and is left as it was when the write
    fails (the failure is not reported); with no disk state nothing is
    written. When a commit is stored under that key already, the same one
    or another one, of this fingerprint or of another fingerprint with the
    same first 20 bytes, the call does not return: it stops in
    [tor_assert(saved_commit == NULL)]. Ingesting the same commit twice
    through this function is an assertion failure, not a no-op. *)
Theorem commit_add_once `{Text} `{Voting} `{ConfParse}
    (now : Z) (commit : sr_commit_t) (w : world) (state : sr_state_t) :
  sr_state w = Some state ->
  let key := digestmap_key (rsa_identity_fpr commit) in
  let state' := set_commits state (<[key := commit]> (commits state)) in
  key = array_view 20 (bytes_of_string (rsa_identity_fpr commit)) /\
  (commits state !! key = None ->
   sr_state_add_commit now commit w =
     Returns
       match sr_disk_state w with
       | None => put_state w state'
       | Some _ =>
           {| sr_state := Some state';
              sr_disk_state := Some (disk_state_update state');
              sr_file :=
                if fs_writable w then
                  RegularFile
                    (Some (state_file_content now (disk_state_update state')))
                else sr_file w;
              fs_writable := fs_writable w |}
       end) /\
  (forall saved,
     commits state !! key = Some saved ->
     sr_state_add_commit now commit w
       = Assertion_failure "saved_commit == NULL") /\
  (forall other,
     digestmap_key (rsa_identity_fpr other) = key ->
     commits state' !! digestmap_key (rsa_identity_fpr other) = Some commit /\
     forall w',
       sr_state w' = Some state' ->
       sr_state_add_commit now other w'
         = Assertion_failure "saved_commit == NULL").
Proof.
  intros Hs key state'. subst key state'. split; [done|].
  unfold sr_state_add_commit, state_query, state_query_put_, with_state.
  rewrite Hs. split; [|split].
  - intros Hnone. rewrite (commit_add_to_state_fresh _ _ Hnone).
    cbn [obind snd fst]. unfold disk_state_save_to_disk.
    cbn [put_state sr_disk_state sr_state sr_file fs_writable].
    destruct (sr_disk_state w); [|done].
    by destruct (fs_writable w).
  - intros saved Hsome. by rewrite (commit_add_to_state_taken _ _ _ Hsome).
  - intros other Hkey.
    assert (Hstored :
      commits (set_commits state
                 (<[digestmap_key (rsa_identity_fpr commit) := commit]>
                    (commits state)))
        !! digestmap_key (rsa_identity_fpr other) = Some commit).
    { rewrite Hkey. simpl. by rewrite lookup_insert_eq. }
    split; [exact Hstored|]. intros w' Hs'. rewrite Hs'.
    by rewrite (commit_add_to_state_taken _ _ _ Hstored).
Qed.


(** C7, as stated, fails: adding the commit that is already stored for
    its authority is an assertion failure, and the call does not return
    the unchanged state. *)
Lemma commit_add_twice_asserts :
  sr_state_add_commit sample_now sample_commit world_with_commit
    = Assertion_failure "saved_commit == NULL" /\
  sr_state_add_commit sample_now sample_commit world_with_commit
    <> Returns world_with_commit.
Proof. split; [vm_compute; reflexivity|vm_compute; discriminate]. Qed.

Lemma commit_add_once_witness :
  let st' := set_commits (state_new None sample_now)
               (<[digestmap_key (rsa_identity_fpr sample_commit)
                    := sample_commit]>
                  (commits (state_new None sample_now))) in
  sr_state_add_commit sample_now sample_commit
    (put_state world_with_commit (state_new None sample_now)) =
  Returns
    {| sr_state := Some st';
       sr_disk_state := Some (disk_state_update st');
       sr_file :=
         RegularFile
           (Some (state_file_content sample_now (disk_state_update st')));
       fs_writable := true |}.
Proof.
  apply (proj1 (proj2
           (@commit_add_once sample_text sample_voting sample_confparse
              sample_now sample_commit
              (put_state world_with_commit (state_new None sample_now))
              (state_new None sample_now) eq_refl))).
  reflexivity.
Defined.



End SRClaims.

(** * Properties of the service-side intro circuits *)

Module HsCircuitFacts.
Import HsCircuit.

Local Open Scope nat_scope.

Lemma filter_length_mono {A} (P Q : A -> Prop)
    `{forall x, Decision (P x)} `{forall x, Decision (Q x)} (l : list A) :
  (forall x, x ∈ l -> P x -> Q x) ->
  length (filter P l) <= length (filter Q l).
Proof.
  induction l as [|x l IH]; intros HPQ; [done|].
  rewrite !filter_cons.
  assert (IH' : length (filter P l) <= length (filter Q l)).
  { apply IH. intros y Hy. apply HPQ. by right. }
  destruct (decide (P x)) as [HP|HP].
  - destruct (decide (Q x)) as [HQ|HQ]; simpl; [lia|].
    exfalso. apply HQ, HPQ; [by left|done].
  - destruct (decide (Q x)); simpl; lia.
Qed.

(** The loop counts the intro points whose circuit is open and not marked
    for close, whenever it runs to its end. *)
Lemma count_loop_spec service w ips : forall count n,
  count_loop service w ips count = Returns n ->
  n = count + length (filter (fun ip => counted w ip = true) ips).
Proof.
  induction ips as [|ip ips IH]; intros count n; simpl.
  - intros [= <-]. lia.
  - rewrite filter_cons.
    assert (Hcounted : counted w ip =
              match intro_point_circuit w ip with
              | Some circ => negb (marked_for_close circ)
                             && bool_decide (state circ = CIRCUIT_STATE_OPEN)
              | None => false
              end) by done.
    destruct (intro_point_circuit w ip) as [circ|].
    2:{ intros Hn. apply IH in Hn. rewrite decide_False; [done|].
        by rewrite Hcounted. }
    destruct (bool_decide _ || bool_decide _); [|discriminate].
    cbn [tor_assert obind].
    destruct (hs_ident circ) as [ident|]; [|discriminate]. cbn [obind].
    destruct (bool_decide (service_identity_pk service = _)); [|discriminate].
    cbn [tor_assert obind].
    destruct (negb (marked_for_close circ) && bool_decide _).
    + intros Hn. apply IH in Hn. rewrite decide_True by done. simpl. lia.
    + intros Hn. apply IH in Hn. rewrite decide_False; [done|].
      by rewrite Hcounted.
Qed.

Lemma count_opened_spec service desc w n :
  count_opened_desc_intro_point_circuits service desc w = Returns n ->
  n = opened_intro_circuits desc w.
Proof. intros Hn. by apply count_loop_spec in Hn. Qed.

Lemma opened_mono desc w w' :
  (forall ip, counted w' ip = true -> counted w ip = true) ->
  opened_intro_circuits desc w' <= opened_intro_circuits desc w.
Proof.
  intros Hc. unfold opened_intro_circuits.
  apply filter_length_mono. intros ip _. apply Hc.
Qed.

Lemma intro_point_circuit_id w ip c :
  intro_point_circuit w ip = Some c <->
  exists id, intro_point_circ_id w ip = Some id /\ circuits w !! id = Some c.
Proof.
  unfold intro_point_circuit, intro_point_circ_id,
    hs_circuitmap_get_intro_circ_v2_service_side,
    hs_circuitmap_get_intro_circ_v3_service_side.
  destruct (is_only_legacy ip); [destruct (legacy_key_digest ip) as [d|]|].
  - destruct (circuitmap_v2 w !! d) as [id|].
    + split; [by exists id|]. by intros (? & [= <-] & ?).
    + split; [done|]. by intros (? & ? & ?).
  - split; [done|]. by intros (? & ? & ?).
  - destruct (circuitmap_v3 w !! auth_key_pubkey ip) as [id|].
    + split; [by exists id|]. by intros (? & [= <-] & ?).
    + split; [done|]. by intros (? & ? & ?).
Qed.

Lemma circ_id_update circ f w ip :
  intro_point_circ_id (update_circuit circ f w) ip = intro_point_circ_id w ip.
Proof. done. Qed.

Lemma circ_id_remove circ w ip id :
  intro_point_circ_id (hs_circuitmap_remove_circuit circ w) ip = Some id <->
  intro_point_circ_id w ip = Some id /\ id <> circ.
Proof.
  unfold intro_point_circ_id, hs_circuitmap_remove_circuit. simpl.
  destruct (is_only_legacy ip); [destruct (legacy_key_digest ip)|];
    rewrite ?map_lookup_filter_Some; [done| |done].
  split; [done|by intros [? _]].
Qed.

Lemma counted_after_mark circ w ip :
  counted (update_circuit circ mark_for_close w) ip = true ->
  counted w ip = true.
Proof.
  unfold counted.
  destruct (intro_point_circuit (update_circuit _ _ _) ip) as [c'|] eqn:Hc';
    [|done].
  apply intro_point_circuit_id in Hc' as (id & Hid & Hc').
  rewrite circ_id_update in Hid. simpl in Hc'.
  destruct (decide (id = circ)) as [->|Hne].
  - rewrite lookup_alter_eq in Hc'.
    destruct (circuits w !! circ) as [c|]; [|done].
    injection Hc' as <-. done.
  - rewrite lookup_alter_ne in Hc' by done.
    assert (Hc : intro_point_circuit w ip = Some c')
      by (apply intro_point_circuit_id; eauto).
    by rewrite Hc.
Qed.

Lemma counted_after_repurpose circ w ip :
  counted (update_circuit circ repurpose_to_general
             (hs_circuitmap_remove_circuit circ
                (update_circuit circ set_open w))) ip = true ->
  counted w ip = true.
Proof.
  unfold counted.
  destruct (intro_point_circuit (update_circuit _ _ _) ip) as [c'|] eqn:Hc';
    [|done].
  apply intro_point_circuit_id in Hc' as (id & Hid & Hc').
  rewrite circ_id_update in Hid.
  apply circ_id_remove in Hid as [Hid Hne].
  rewrite circ_id_update in Hid. simpl in Hc'.
  rewrite !lookup_alter_ne in Hc' by done.
  assert (Hc : intro_point_circuit w ip = Some c')
    by (apply intro_point_circuit_id; eauto).
  by rewrite Hc.
Qed.

Lemma counted_after_send circ sending w ip :
  counted (send_establish_intro circ sending w) ip = true ->
  counted w ip = true.
Proof. destruct sending; simpl; [done|apply counted_after_mark..]. Qed.

(** One event keeps the cap. *)
Lemma intro_circ_opened_cap service desc ev w w' :
  opened_intro_circuits desc w <= num_intro_points service ->
  intro_circ_opened service desc ev w = Returns w' ->
  opened_intro_circuits desc w' <= num_intro_points service.
Proof.
  intros Hcap. unfold intro_circ_opened, hs_circ_service_intro_has_opened.
  destruct (circuits (update_circuit _ _ w) !! ev_circ ev) as [c|];
    [|discriminate]. cbn [obind].
  destruct (count_opened_desc_intro_point_circuits _ _ _) as [k| |] eqn:Hk;
    try discriminate. cbn [obind].
  apply count_opened_spec in Hk.
  destruct (Nat.ltb_spec (num_intro_points service) k) as [Hlt|Hge].
  - destruct (is_internal c); [|discriminate]. cbn [tor_assert obind snd].
    intros [= <-]. etrans; [|exact Hcap].
    apply opened_mono. intros ip. apply counted_after_repurpose.
  - cbn [obind snd]. intros [= <-]. etrans; [|exact Hge]. subst k.
    apply opened_mono. intros ip. apply counted_after_send.
Qed.

(** ** The events run to their end on well-formed circuits *)

Lemma count_loop_total service w ips : forall count,
  (forall ip c, ip ∈ ips -> intro_point_circuit w ip = Some c ->
     (purpose c = CIRCUIT_PURPOSE_S_ESTABLISH_INTRO \/
      purpose c = CIRCUIT_PURPOSE_S_INTRO) /\
     exists ident, hs_ident c = Some ident /\
                   service_identity_pk service = identity_pk ident) ->
  exists n, count_loop service w ips count = Returns n.
Proof.
  induction ips as [|ip ips IH]; intros count Hwf; simpl; [by eexists|].
  assert (Hwf' : forall ip' c, ip' ∈ ips ->
            intro_point_circuit w ip' = Some c ->
            (purpose c = CIRCUIT_PURPOSE_S_ESTABLISH_INTRO \/
             purpose c = CIRCUIT_PURPOSE_S_INTRO) /\
            exists ident, hs_ident c = Some ident /\
                          service_identity_pk service = identity_pk ident).
  { intros ip' c Hin. apply Hwf. by right. }
  destruct (intro_point_circuit w ip) as [circ|] eqn:Hc; [|by apply IH].
  destruct (Hwf ip circ) as [Hp (ident & Hident & Hpk)]; [by left|done|].
  rewrite Hident.
  replace (bool_decide (purpose circ = CIRCUIT_PURPOSE_S_ESTABLISH_INTRO)
           || bool_decide (purpose circ = CIRCUIT_PURPOSE_S_INTRO))
    with true.
  2:{ symmetry. destruct Hp as [-> | ->]; done. }
  cbn [tor_assert obind]. rewrite bool_decide_eq_true_2 by done.
  cbn [tor_assert obind]. destruct (_ && _); by apply IH.
Qed.

Lemma wf_after_alter service desc circ f w :
  (forall c, purpose (f c) = purpose c /\ hs_ident (f c) = hs_ident c) ->
  wf_intro_circuits service desc w ->
  wf_intro_circuits service desc (update_circuit circ f w).
Proof.
  intros Hf Hwf ip c' Hin Hc'.
  apply intro_point_circuit_id in Hc' as (id & Hid & Hc').
  rewrite circ_id_update in Hid. simpl in Hc'.
  destruct (decide (id = circ)) as [->|Hne].
  - rewrite lookup_alter_eq in Hc'.
    destruct (circuits w !! circ) as [c|] eqn:Hc; [|done].
    injection Hc' as <-. destruct (Hf c) as [-> ->].
    apply (Hwf ip c Hin). apply intro_point_circuit_id. eauto.
  - rewrite lookup_alter_ne in Hc' by done.
    apply (Hwf ip c' Hin). apply intro_point_circuit_id. eauto.
Qed.

Lemma wf_after_repurpose service desc circ w :
  wf_intro_circuits service desc w ->
  wf_intro_circuits service desc
    (update_circuit circ repurpose_to_general
       (hs_circuitmap_remove_circuit circ w)).
Proof.
  intros Hwf ip c' Hin Hc'.
  apply intro_point_circuit_id in Hc' as (id & Hid & Hc').
  rewrite circ_id_update in Hid. apply circ_id_remove in Hid as [Hid Hne].
  simpl in Hc'. rewrite lookup_alter_ne in Hc' by done.
  apply (Hwf ip c' Hin). apply intro_point_circuit_id. eauto.
Qed.

Lemma launched_after_alter circ f w ev :
  (forall c, is_internal (f c) = is_internal c) ->
  launched w ev -> launched (update_circuit circ f w) ev.
Proof.
  intros Hf (c & Hc & Hi). unfold launched. simpl.
  destruct (decide (ev_circ ev = circ)) as [<-|Hne].
  - exists (f c). rewrite lookup_alter_eq, Hc. by rewrite Hf.
  - exists c. by rewrite lookup_alter_ne.
Qed.

Lemma intro_circ_opened_total service desc ev evs w :
  wf_intro_circuits service desc w ->
  launched w ev -> Forall (launched w) evs ->
  exists w', intro_circ_opened service desc ev w = Returns w' /\
             wf_intro_circuits service desc w' /\
             Forall (launched w') evs.
Proof.
  intros Hwf Hl Hls.
  unfold intro_circ_opened, hs_circ_service_intro_has_opened.
  set (w1 := update_circuit (ev_circ ev) set_open w).
  assert (Hwf1 : wf_intro_circuits service desc w1)
    by (by apply wf_after_alter).
  assert (Hl1 : launched w1 ev) by (by apply launched_after_alter).
  assert (Hls1 : Forall (launched w1) evs).
  { eapply Forall_impl; [exact Hls|]. intros ev'.
    by apply launched_after_alter. }
  destruct Hl1 as (c & -> & Hint). cbn [obind].
  destruct (count_loop_total service w1
              (map_to_list (intro_points desc)).*2 0 Hwf1) as [k Hk].
  unfold count_opened_desc_intro_point_circuits. rewrite Hk. cbn [obind].
  destruct (_ <? _).
  - rewrite Hint. cbn [tor_assert obind snd]. eexists. split; [done|].
    split; [by apply wf_after_repurpose|].
    eapply Forall_impl; [exact Hls1|]. intros ev' Hev'.
    apply launched_after_alter; [done|].
    destruct Hev' as (c' & Hc' & Hi'). by exists c'.
  - cbn [obind snd]. eexists. split; [done|].
    destruct (ev_sending ev); simpl; try done.
    + split; [by apply wf_after_alter|].
      eapply Forall_impl; [exact Hls1|]. intros ev'.
      by apply launched_after_alter.
    + split; [by apply wf_after_alter|].
      eapply Forall_impl; [exact Hls1|]. intros ev'.
      by apply launched_after_alter.
Qed.

End HsCircuitFacts.

Module HsCircuitClaims.
Import HsCircuit HsCircuitFacts.

Local Open Scope nat_scope.

Lemma intro_circs_opened_cap service desc evs : forall w w',
  opened_intro_circuits desc w <= num_intro_points service ->
  intro_circs_opened service desc evs w = Returns w' ->
  opened_intro_circuits desc w' <= num_intro_points service.
Proof.
  induction evs as [|ev evs IH]; intros w w' Hcap; simpl.
  - by intros [= <-].
  - destruct (intro_circ_opened service desc ev w) as [w1| |] eqn:Hev;
      try discriminate. cbn [obind].
    apply IH. by eapply intro_circ_opened_cap.
Qed.

Lemma intro_circs_opened_total service desc evs : forall w,
  wf_intro_circuits service desc w ->
  Forall (launched w) evs ->
  exists w', intro_circs_opened service desc evs w = Returns w'.
Proof.
  induction evs as [|ev evs IH]; intros w Hwf Hl; simpl; [by eexists|].
  apply Forall_cons in Hl as [Hev Hevs].
  destruct (intro_circ_opened_total service desc ev evs w Hwf Hev Hevs)
    as (w1 & -> & Hwf1 & Hl1).
  cbn [obind]. by apply IH.
Qed.

Lemma repurposed_unregistered circ w :
  let w' := update_circuit circ repurpose_to_general
              (hs_circuitmap_remove_circuit circ w) in
  forall key, circuitmap_v2 w' !! key <> Some circ /\
              circuitmap_v3 w' !! key <> Some circ.
Proof.
  intros w' key. subst w'. simpl.
  split; intros Hk; apply map_lookup_filter_Some in Hk as [_ Hne]; by apply Hne.
Qed.

(** C6. Intro-point cap. Take a service, one of its descriptors and circuits
    whose registered intro circuits carry an intro purpose and the identity
    of the service. (1) Any sequence of intro-circuit-opened events on
    launched circuits runs to its end, and if at most num_intro_points
    registered intro circuits of the descriptor were open (and not marked for
    close) before, at most num_intro_points are after. (2) The bound is kept
    by every run that ends, with no assumption on the circuits. (3) When
    the callback finds more than num_intro_points such circuits, the one
    that just opened included, it returns 1, the circuit is left with the
    general purpose and no service identifier, it is not marked for close,
    and no key of the circuit map leads to it any more. *)
Theorem intro_point_cap (service : hs_service_t)
    (desc : hs_service_descriptor_t) :
  (forall evs w,
     wf_intro_circuits service desc w ->
     Forall (launched w) evs ->
     opened_intro_circuits desc w <= num_intro_points service ->
     exists w',
       intro_circs_opened service desc evs w = Returns w' /\
       opened_intro_circuits desc w' <= num_intro_points service) /\
  (forall evs w w',
     opened_intro_circuits desc w <= num_intro_points service ->
     intro_circs_opened service desc evs w = Returns w' ->
     opened_intro_circuits desc w' <= num_intro_points service) /\
  (forall ip circ sending w c,
     wf_intro_circuits service desc w ->
     circuits w !! circ = Some c ->
     is_internal c = true ->
     num_intro_points service < opened_intro_circuits desc w ->
     exists w' c',
       hs_circ_service_intro_has_opened service ip desc circ sending w
         = Returns (1%Z, w') /\
       circuits w' !! circ = Some c' /\
       purpose c' = CIRCUIT_PURPOSE_C_GENERAL /\
       hs_ident c' = None /\
       marked_for_close c' = marked_for_close c /\
       state c' = state c /\
       forall key, circuitmap_v2 w' !! key <> Some circ /\
                   circuitmap_v3 w' !! key <> Some circ).
Proof.
  split; [|split].
  - intros evs w Hwf Hl Hcap.
    destruct (intro_circs_opened_total service desc evs w Hwf Hl) as [w' Hw'].
    exists w'. split; [done|]. by eapply intro_circs_opened_cap.
  - intros evs w w'. apply intro_circs_opened_cap.
  - intros ip circ sending w c Hwf Hc Hint Hlt.
    unfold hs_circ_service_intro_has_opened. rewrite Hc. cbn [obind].
    destruct (count_loop_total service w
                (map_to_list (intro_points desc)).*2 0 Hwf) as [k Hk].
    pose proof (count_opened_spec service desc w k Hk) as ->.
    unfold count_opened_desc_intro_point_circuits. rewrite Hk. cbn [obind].
    apply Nat.ltb_lt in Hlt. rewrite Hlt, Hint. cbn [tor_assert obind].
    eexists _, (repurpose_to_general c). split; [done|].
    split; [simpl; by rewrite lookup_alter_eq, Hc|].
    repeat split; apply repurposed_unregistered.
Qed.

Lemma sample_wf w :
  circuitmap_v2 w = ∅ ->
  (forall key id c, circuitmap_v3 w !! key = Some id ->
     circuits w !! id = Some c ->
     purpose c = CIRCUIT_PURPOSE_S_ESTABLISH_INTRO /\
     hs_ident c = Some {| identity_pk := replicate 32 x42 |}) ->
  wf_intro_circuits sample_service sample_desc w.
Proof.
  intros Hv2 Hv3 ip c _ Hc.
  apply intro_point_circuit_id in Hc as (id & Hid & Hc).
  unfold intro_point_circ_id in Hid. rewrite Hv2 in Hid.
  destruct (is_only_legacy ip).
  { destruct (legacy_key_digest ip); [|done]. by rewrite lookup_empty in Hid. }
  destruct (Hv3 _ _ _ Hid Hc) as [Hp Hi].
  split; [by left|]. eexists. split; [exact Hi|done].
Qed.

Lemma sample_circuits_wf :
  wf_intro_circuits sample_service sample_desc sample_circuits.
Proof.
  apply sample_wf; [done|]. intros key id c _. simpl.
  intros [[_ <-]|[_ Hc]]%lookup_insert_Some; [done|].
  by apply lookup_singleton_Some in Hc as [_ <-].
Qed.

Lemma both_open_wf : wf_intro_circuits sample_service sample_desc both_open.
Proof.
  unfold both_open. do 2 (apply wf_after_alter; [done|]).
  apply sample_circuits_wf.
Qed.

Lemma intro_point_cap_witness :
  (exists w',
     intro_circs_opened sample_service sample_desc sample_events
       sample_circuits = Returns w' /\
     opened_intro_circuits sample_desc w' <= 1) /\
  (exists w' c',
     hs_circ_service_intro_has_opened sample_service (sample_ip x02)
       sample_desc 2 Sent both_open = Returns (1%Z, w') /\
     circuits w' !! 2 = Some c' /\
     purpose c' = CIRCUIT_PURPOSE_C_GENERAL /\
     hs_ident c' = None /\
     marked_for_close c' = false /\
     state c' = CIRCUIT_STATE_OPEN /\
     forall key, circuitmap_v2 w' !! key <> Some 2 /\
                 circuitmap_v3 w' !! key <> Some 2).
Proof.
  destruct (intro_point_cap sample_service sample_desc) as (Hrun & _ & Hrep).
  split.
  - apply Hrun.
    + apply sample_circuits_wf.
    + repeat constructor; eexists; split; vm_compute; reflexivity.
    + vm_compute. lia.
  - apply (Hrep (sample_ip x02) 2 Sent both_open (set_open building_circuit)).
    + apply both_open_wf.
    + vm_compute. reflexivity.
    + reflexivity.
    + vm_compute. lia.
Defined.

(** ** INTRODUCE2 *)

(** C8. Replay of an INTRODUCE2 cell. When the cell parser accepts the
    payload for an intro point, handling the same payload twice on that
    intro point succeeds both times and increments introduce2_count twice;
    the replay cache of the intro point is neither read nor written. The
    replayed cell is not dropped. *)
Theorem introduce2_replay_counted_twice `{HsCell} (service : hs_service_t)
    (circ : origin_circuit_t) (ip : hs_service_intro_point_t)
    (subcred cell : list byte) :
  is_Some (hs_cell_parse_introduce2
             {| auth_pk := auth_key_pubkey ip; enc_kp := enc_key_kp ip;
                subcredential := subcred; payload := cell;
                onion_pk := []; rendezvous_cookie := [] |} circ service) ->
  let first := hs_circ_handle_introduce2 service circ ip subcred cell in
  let second := hs_circ_handle_introduce2 service circ first.2 subcred cell in
  first.1 = 0%Z /\ second.1 = 0%Z /\
  introduce2_count first.2 = uint64_incr (introduce2_count ip) /\
  introduce2_count second.2 = uint64_incr (uint64_incr (introduce2_count ip)) /\
  replay_cache second.2 = replay_cache ip.
Proof.
  intros [data Hdata]. unfold hs_circ_handle_introduce2.
  rewrite Hdata. simpl. rewrite Hdata. simpl. done.
Qed.

Lemma introduce2_replay_counted_twice_witness :
  let first := hs_circ_handle_introduce2 (H := sample_hs_cell) sample_service
                 building_circuit (sample_ip x01) [x07] [x2a] in
  let second := hs_circ_handle_introduce2 (H := sample_hs_cell) sample_service
                  building_circuit first.2 [x07] [x2a] in
  first.1 = 0%Z /\ second.1 = 0%Z /\
  introduce2_count first.2 = 1%Z /\
  introduce2_count second.2 = 2%Z /\
  replay_cache second.2 = [].
Proof.
  apply (introduce2_replay_counted_twice (H := sample_hs_cell) sample_service
           building_circuit (sample_ip x01) [x07] [x2a]).
  by eexists.
Defined.

End HsCircuitClaims.

(** * More on the state engine of shared-random-state.c *)

Module SRStateFacts.
Import SR SRFacts SRApi.

Local Open Scope Z_scope.

Lemma slot_of_time (t i : Z) :
  0 < i -> 0 <= t ->
  Z.rem (Z.quot t i) (SHARED_RANDOM_N_ROUNDS * SHARED_RANDOM_N_PHASES)
    = (t / i) mod 24.
Proof.
  intros Hi Ht. change (SHARED_RANDOM_N_ROUNDS * SHARED_RANDOM_N_PHASES) with 24.
  rewrite Z.quot_div_nonneg by lia.
  rewrite Z.rem_mod_nonneg; [done| |lia].
  apply Z.div_pos; lia.
Qed.

Lemma int_of_small (z : Z) : - 2 ^ 31 <= z < 2 ^ 31 -> int_of z = z.
Proof. intros Hz. unfold int_of. rewrite Z.mod_small; lia. Qed.

Lemma phase_of_slot `{Voting} (t : Z) :
  0 < V3AuthVotingInterval -> 0 <= t ->
  get_sr_protocol_phase t =
    if (t / V3AuthVotingInterval) mod 24 <? 12 then SR_PHASE_COMMIT
    else SR_PHASE_REVEAL.
Proof.
  intros Hi Ht. unfold get_sr_protocol_phase, get_voting_interval.
  by rewrite slot_of_time.
Qed.

Lemma with_state_some {A} w st (f : sr_state_t -> outcome A) :
  sr_state w = Some st -> with_state w f = f st.
Proof. intros Hs. unfold with_state. by rewrite Hs. Qed.

Lemma get_commit_value `{Text} `{Voting} `{ConfParse} now fpr w st :
  sr_state w = Some st ->
  sr_state_get_commit now fpr w = Returns (commits st !! digestmap_key fpr).
Proof.
  intros Hs. unfold sr_state_get_commit, state_query, state_query_get_.
  by rewrite (with_state_some _ _ _ Hs).
Qed.

Lemma save_to_disk_result `{Text} `{Voting} `{ConfParse} now w st ds :
  sr_state w = Some st -> sr_disk_state w = Some ds ->
  disk_state_save_to_disk now w =
    Returns
      (if fs_writable w then 0 else -1,
       {| sr_state := Some st;
          sr_disk_state := Some (disk_state_update st);
          sr_file :=
            if fs_writable w then
              RegularFile (Some (state_file_content now (disk_state_update st)))
            else sr_file w;
          fs_writable := fs_writable w |}).
Proof.
  intros Hs Hd. unfold disk_state_save_to_disk. rewrite Hs, Hd. simpl.
  by destruct (fs_writable w).
Qed.

Lemma parse_sr_values_app `{Text} l1 l2 st st1 :
  disk_state_parse_sr_values l1 st = Some st1 ->
  disk_state_parse_sr_values (l1 ++ l2) st = disk_state_parse_sr_values l2 st1.
Proof.
  revert st. induction l1 as [|line rest IH]; intros st; simpl.
  - by intros [= ->].
  - destruct (cl_value line) as [v|]; [|by apply IH].
    destruct (disk_state_parse_srv v) as [srv|]; [|done].
    repeat case_match; by apply IH.
Qed.


Lemma add_commit_result `{Text} `{Voting} `{ConfParse} now commit w st :
  sr_state w = Some st ->
  commits st !! digestmap_key (rsa_identity_fpr commit) = None ->
  exists w',
    sr_state_add_commit now commit w = Returns w' /\
    sr_state w' =
      Some (set_commits st
              (<[digestmap_key (rsa_identity_fpr commit) := commit]>
                 (commits st))).
Proof.
  intros Hs Hnone.
  unfold sr_state_add_commit, state_query, state_query_put_.
  rewrite (with_state_some _ _ _ Hs).
  rewrite (commit_add_to_state_fresh _ _ Hnone). cbn [obind snd fst].
  set (w1 := put_state w _).
  destruct (sr_disk_state w1) as [ds|] eqn:Hd.
  - rewrite (save_to_disk_result now w1 _ ds eq_refl Hd). cbn [obind snd].
    by eexists.
  - unfold disk_state_save_to_disk. rewrite Hd. cbn [obind snd]. by eexists.
Qed.

Lemma delete_commits_result `{Text} `{Voting} `{ConfParse} now w st :
  sr_state w = Some st ->
  exists w',
    sr_state_delete_commits now w = Returns w' /\
    sr_state w' = Some (set_commits st ∅).
Proof.
  intros Hs.
  unfold sr_state_delete_commits, state_query, state_query_del_all_.
  rewrite (with_state_some _ _ _ Hs). cbn [obind snd fst].
  set (w1 := put_state w _).
  destruct (sr_disk_state w1) as [ds|] eqn:Hd.
  - rewrite (save_to_disk_result now w1 _ ds eq_refl Hd). cbn [obind snd].
    by eexists.
  - unfold disk_state_save_to_disk. rewrite Hd. cbn [obind snd]. by eexists.
Qed.

Lemma get_srv_values `{Text} `{Voting} `{ConfParse} now w st :
  sr_state w = Some st ->
  sr_state_get_previous_srv now w = Returns (previous_srv st) /\
  sr_state_get_current_srv now w = Returns (current_srv st).
Proof.
  intros Hs.
  unfold sr_state_get_previous_srv, sr_state_get_current_srv, state_query,
    state_query_get_.
  by rewrite !(with_state_some _ _ _ Hs).
Qed.

Lemma load_cases `{Text} `{Voting} `{ConfParse} now w ret w1 :
  disk_state_load_from_disk_impl now w = Returns (ret, w1) ->
  (ret = 0 /\ is_Some (sr_state w1) /\ is_Some (sr_disk_state w1) /\
   fs_writable w1 = fs_writable w) \/
  ((ret = - EINVAL \/ ret = - ENOENT) /\ w1 = w).
Proof.
  unfold disk_state_load_from_disk_impl.
  destruct (sr_file w) as [| |[content|]| |]; simpl;
    try (intros [= <- <-]; right; split; [auto|done]).
  destruct (config_read _ content) as [ds|];
    [|intros [= <- <-]; right; split; [auto|done]].
  destruct (_ <? 0); [intros [= <- <-]; right; split; [auto|done]|].
  destruct (disk_state_parse now ds) as [[st|]| |]; simpl; try discriminate.
  - intros [= <- <-]. left. simpl. repeat split; by eexists.
  - intros [= <- <-]. right. split; [auto|done].
Qed.

End SRStateFacts.

Module SRStateExtras.
Import SR SRFacts SRApi SRStateFacts.

Local Open Scope Z_scope.

(** X1. The protocol phase is a function of the voting round alone and has
    a period of 24 rounds: for a positive voting interval and a time that
    is not before the epoch, [get_sr_protocol_phase] gives the same phase
    24 voting intervals later, the other phase 12 voting intervals later,
    and the commit phase exactly in the first 12 rounds of each run of
    24. *)
Theorem sr_phase_periodic `{Voting} (t : Z) :
  0 < V3AuthVotingInterval -> 0 <= t ->
  get_sr_protocol_phase (t + 24 * V3AuthVotingInterval)
    = get_sr_protocol_phase t /\
  get_sr_protocol_phase (t + 12 * V3AuthVotingInterval)
    <> get_sr_protocol_phase t /\
  (get_sr_protocol_phase t = SR_PHASE_COMMIT <->
   (t / V3AuthVotingInterval) mod 24 < 12).
Proof.
  intros Hi Ht. set (i := V3AuthVotingInterval) in *.
  rewrite !phase_of_slot by lia. fold i.
  rewrite !Z.div_add by lia.
  assert (H24 : (t / i + 24) mod 24 = (t / i) mod 24).
  { replace (t / i + 24) with (t / i + 1 * 24) by lia.
    by rewrite Z.mod_add. }
  rewrite H24. split; [done|].
  pose proof (Z.mod_pos_bound (t / i) 24 ltac:(lia)) as Hb.
  split.
  - destruct (Z.ltb_spec ((t / i) mod 24) 12) as [Hlt|Hge].
    + assert (H12 : (t / i + 12) mod 24 = (t / i) mod 24 + 12).
      { symmetry. apply Z.mod_unique_pos with (q := (t / i) / 24); [lia|].
        pose proof (Z.div_mod (t / i) 24 ltac:(lia)). lia. }
      rewrite H12. by destruct (Z.ltb_spec ((t / i) mod 24 + 12) 12); [lia|].
    + assert (H12 : (t / i + 12) mod 24 = (t / i) mod 24 - 12).
      { symmetry. apply Z.mod_unique_pos with (q := (t / i) / 24 + 1); [lia|].
        pose proof (Z.div_mod (t / i) 24 ltac:(lia)). lia. }
      rewrite H12. by destruct (Z.ltb_spec ((t / i) mod 24 - 12) 12); [|lia].
  - destruct (Z.ltb_spec ((t / i) mod 24) 12); split; (done || lia).
Qed.

Lemma sr_phase_periodic_witness :
  @get_sr_protocol_phase sample_voting (sample_now + 24 * 3600)
    = @get_sr_protocol_phase sample_voting sample_now /\
  @get_sr_protocol_phase sample_voting (sample_now + 12 * 3600)
    <> @get_sr_protocol_phase sample_voting sample_now /\
  (@get_sr_protocol_phase sample_voting sample_now = SR_PHASE_COMMIT <->
   (sample_now / 3600) mod 24 < 12).
Proof.
  apply (@sr_phase_periodic sample_voting sample_now);
    [reflexivity|discriminate].
Defined.

(** X2. A state expires at the beginning of the next protocol run. When
    24 voting intervals fit an [int] (the time left in the run is computed
    as a product of two [int]s) and the current round started at the last
    multiple of the voting interval (what the voting schedule gives with
    no start offset), the valid-until time computed at [now] is the next
    multiple of 24 voting intervals: it is later than [now], at most one
    protocol run later, and a time of the commit phase. With a longer
    voting interval the product can wrap: at a time in the first round of
    a run, an interval of 100000000 seconds gives a valid-until time
    before the start of the current round. *)
Theorem state_expires_at_next_run `{Voting} (now : Z) :
  0 < V3AuthVotingInterval -> 0 <= now ->
  let run := 24 * V3AuthVotingInterval in
  (run <= INT32_MAX ->
   get_start_time_of_current_round now
     = V3AuthVotingInterval * (now / V3AuthVotingInterval) ->
   get_state_valid_until_time now = run * (now / run + 1) /\
   now < get_state_valid_until_time now <= now + run /\
   get_sr_protocol_phase (get_state_valid_until_time now) = SR_PHASE_COMMIT) /\
  (V3AuthVotingInterval = 100000000 ->
   (now / V3AuthVotingInterval) mod 24 = 0 ->
   get_state_valid_until_time now
     = get_start_time_of_current_round now - 1894967296).
Proof.
  intros Hi Hnow run. subst run.
  set (i := V3AuthVotingInterval) in *. split.
  - intros Hfit Hstart.
    assert (Hvalid : get_state_valid_until_time now
                     = 24 * i * (now / (24 * i) + 1)).
    { unfold get_state_valid_until_time. rewrite Hstart.
      unfold get_voting_interval. fold i. rewrite slot_of_time by lia.
      change (SHARED_RANDOM_N_ROUNDS * SHARED_RANDOM_N_PHASES) with 24.
      pose proof (Z.mod_pos_bound (now / i) 24 ltac:(lia)) as Hr.
      rewrite int_of_small by (unfold INT32_MAX in Hfit; nia).
      replace (24 * i) with (i * 24) by lia.
      rewrite <- Z.div_div by lia.
      pose proof (Z.div_mod (now / i) 24 ltac:(lia)). nia. }
    rewrite Hvalid.
    pose proof (Z.div_mod now (24 * i) ltac:(lia)) as Hdm.
    pose proof (Z.mod_pos_bound now (24 * i) ltac:(lia)) as Hb.
    split; [done|]. split; [nia|].
    rewrite phase_of_slot; [|lia|].
    2:{ apply Z.mul_nonneg_nonneg; [lia|].
        pose proof (Z.div_pos now (24 * i) ltac:(lia) ltac:(lia)). lia. }
    fold i.
    replace (24 * i * (now / (24 * i) + 1))
      with ((now / (24 * i) + 1) * 24 * i) by lia.
    rewrite Z.div_mul by lia. by rewrite Z.mod_mul by lia.
  - intros Hbig Hround. unfold get_state_valid_until_time.
    unfold get_voting_interval. fold i. rewrite slot_of_time by lia.
    rewrite Hround, Hbig.
    change (SHARED_RANDOM_N_ROUNDS * SHARED_RANDOM_N_PHASES) with 24.
    change (int_of ((24 - 0) * 100000000)) with (-1894967296). lia.
Qed.

Lemma state_expires_at_next_run_witness :
  (@get_state_valid_until_time sample_voting sample_now
     = 24 * 3600 * (sample_now / (24 * 3600) + 1) /\
   sample_now < @get_state_valid_until_time sample_voting sample_now
     <= sample_now + 24 * 3600 /\
   @get_sr_protocol_phase sample_voting
     (@get_state_valid_until_time sample_voting sample_now)
     = SR_PHASE_COMMIT) /\
  @get_state_valid_until_time slow_voting 2400000000
    = @get_start_time_of_current_round slow_voting 2400000000 - 1894967296.
Proof.
  split.
  - apply (proj1 (@state_expires_at_next_run sample_voting sample_now
                    eq_refl ltac:(discriminate)));
      [vm_compute; discriminate|vm_compute; reflexivity].
  - apply (proj2 (@state_expires_at_next_run slow_voting 2400000000
                    eq_refl ltac:(discriminate))); reflexivity.
Defined.

(** X3. A commit added to the state is the one found under its
    fingerprint afterwards. When no commit is stored for the RSA
    fingerprint of [commit], [sr_state_add_commit] returns, after it
    [sr_state_get_commit] gives [commit] for that fingerprint, and for a
    fingerprint with another map key it gives what it gave before. *)
Theorem add_commit_then_get_commit `{Text} `{Voting} `{ConfParse}
    (now : Z) (commit : sr_commit_t) (w : world) (st : sr_state_t) :
  sr_state w = Some st ->
  commits st !! digestmap_key (rsa_identity_fpr commit) = None ->
  exists w',
    sr_state_add_commit now commit w = Returns w' /\
    sr_state_get_commit now (rsa_identity_fpr commit) w'
      = Returns (Some commit) /\
    forall fpr,
      digestmap_key fpr <> digestmap_key (rsa_identity_fpr commit) ->
      sr_state_get_commit now fpr w' = sr_state_get_commit now fpr w.
Proof.
  intros Hs Hnone.
  destruct (add_commit_result now commit w st Hs Hnone) as (w' & Hadd & Hs').
  exists w'. split; [done|]. split.
  - rewrite (get_commit_value _ _ _ _ Hs'). simpl. by rewrite lookup_insert_eq.
  - intros fpr Hne.
    rewrite (get_commit_value _ _ _ _ Hs'), (get_commit_value _ _ _ _ Hs).
    simpl. by rewrite lookup_insert_ne.
Qed.

Lemma add_commit_then_get_commit_witness :
  exists w',
    sr_state_add_commit sample_now sample_commit
      (put_state world_with_commit (state_new None sample_now)) = Returns w' /\
    sr_state_get_commit sample_now (rsa_identity_fpr sample_commit) w'
      = Returns (Some sample_commit) /\
    forall fpr,
      digestmap_key fpr <> digestmap_key (rsa_identity_fpr sample_commit) ->
      sr_state_get_commit sample_now fpr w'
        = sr_state_get_commit sample_now fpr
            (put_state world_with_commit (state_new None sample_now)).
Proof.
  apply (@add_commit_then_get_commit sample_text sample_voting
           sample_confparse sample_now sample_commit
           (put_state world_with_commit (state_new None sample_now))
           (state_new None sample_now) eq_refl).
  reflexivity.
Defined.

(** X4. Every action of [state_query] other than GET ends with the disk
    form and the file in step with the memory state. With a disk state set
    and a data directory that can be written, a PUT, DEL_ALL or SAVE that
    returns leaves [sr_disk_state] equal to [disk_state_update] of the new
    memory state and the file equal to its dump. When the write fails the
    call still returns and the memory state is changed, but the file is
    left as it was: the result of the save is not reported. A GET changes
    nothing. *)
Theorem state_query_keeps_disk_in_step `{Text} `{Voting} `{ConfParse}
    (now : Z) (action : sr_state_action_t) (obj_type : sr_state_object_t)
    (data : query_data) (w : world) (r : query_out * world) :
  state_query now action obj_type data w = Returns r ->
  is_Some (sr_disk_state w) ->
  match action with
  | SR_STATE_ACTION_GET => r.2 = w
  | _ =>
      exists st,
        sr_state r.2 = Some st /\
        sr_disk_state r.2 = Some (disk_state_update st) /\
        sr_file r.2 =
          if fs_writable w then
            RegularFile (Some (state_file_content now (disk_state_update st)))
          else sr_file w
  end.
Proof.
  intros Hq [ds Hd]. unfold state_query in Hq.
  assert (Hsave : forall (out : query_out) (w1 : world) st1,
            sr_state w1 = Some st1 -> sr_disk_state w1 = sr_disk_state w ->
            sr_file w1 = sr_file w -> fs_writable w1 = fs_writable w ->
            (saved <- disk_state_save_to_disk now w1 ;;
             Returns (out, saved.2))%outcome = Returns r ->
            exists st,
              sr_state r.2 = Some st /\
              sr_disk_state r.2 = Some (disk_state_update st) /\
              sr_file r.2 =
                if fs_writable w then
                  RegularFile
                    (Some (state_file_content now (disk_state_update st)))
                else sr_file w).
  { intros out w1 st1 Hs1 Hd1 Hf1 Hw1.
    rewrite (save_to_disk_result now w1 st1 ds Hs1) by congruence.
    cbn [obind snd]. intros [= <-]. exists st1. simpl.
    rewrite Hw1, Hf1. done. }
  destruct action.
  - destruct (state_query_get_ obj_type data w) as [out| |]; try discriminate.
    cbn [obind] in Hq. by injection Hq as <-.
  - unfold state_query_put_, with_state in Hq.
    destruct (sr_state w) as [st|] eqn:Hs.
    2:{ destruct obj_type, data; discriminate. }
    destruct obj_type, data; try discriminate; cbn [obind snd fst] in Hq.
    + destruct (commit_add_to_state commit st) as [st'| |]; try discriminate.
      cbn [obind snd fst] in Hq. by eapply Hsave in Hq.
    + by eapply Hsave in Hq.
    + by eapply Hsave in Hq.
    + by eapply Hsave in Hq.
  - unfold state_query_del_all_, with_state in Hq.
    destruct (sr_state w) as [st|] eqn:Hs.
    2:{ destruct obj_type; discriminate. }
    destruct obj_type; try discriminate; cbn [obind snd fst] in Hq.
    by eapply Hsave in Hq.
  - cbn [obind snd fst] in Hq.
    destruct (sr_state w) as [st|] eqn:Hs.
    + by eapply Hsave in Hq.
    + unfold disk_state_save_to_disk in Hq. by rewrite Hd, Hs in Hq.
Qed.

Lemma state_query_keeps_disk_in_step_witness :
  exists r,
    state_query sample_now SR_STATE_ACTION_SAVE SR_STATE_OBJ_COMMIT NoData
      world_with_commit = Returns r /\
    exists st,
      sr_state r.2 = Some st /\
      sr_disk_state r.2 = Some (disk_state_update st) /\
      sr_file r.2 =
        RegularFile (Some (state_file_content sample_now (disk_state_update st))).
Proof.
  eexists. split; [reflexivity|].
  apply (@state_query_keeps_disk_in_step sample_text sample_voting
           sample_confparse sample_now SR_STATE_ACTION_SAVE
           SR_STATE_OBJ_COMMIT NoData world_with_commit);
    [reflexivity|by eexists].
Defined.

(** X5. A new protocol run can take the commits of the same authorities
    again. With a memory state set, [sr_state_delete_commits] returns;
    after it no fingerprint has a commit, both SRVs are what they were,
    and [sr_state_add_commit] of any commit returns, without the
    assertion on an already stored commit, and stores it. *)
Theorem delete_commits_then_add `{Text} `{Voting} `{ConfParse}
    (now : Z) (w : world) (st : sr_state_t) (commit : sr_commit_t) :
  sr_state w = Some st ->
  exists w1,
    sr_state_delete_commits now w = Returns w1 /\
    (forall fpr, sr_state_get_commit now fpr w1 = Returns None) /\
    sr_state_get_previous_srv now w1 = Returns (previous_srv st) /\
    sr_state_get_current_srv now w1 = Returns (current_srv st) /\
    exists w2,
      sr_state_add_commit now commit w1 = Returns w2 /\
      sr_state_get_commit now (rsa_identity_fpr commit) w2
        = Returns (Some commit).
Proof.
  intros Hs.
  destruct (delete_commits_result now w st Hs) as (w1 & Hdel & Hs1).
  exists w1. split; [done|]. split.
  { intros fpr. rewrite (get_commit_value _ _ _ _ Hs1). simpl.
    by rewrite lookup_empty. }
  destruct (get_srv_values now w1 _ Hs1) as [-> ->].
  split; [done|]. split; [done|].
  destruct (add_commit_result now commit w1 _ Hs1 (lookup_empty _))
    as (w2 & Hadd & Hs2).
  exists w2. split; [done|].
  rewrite (get_commit_value _ _ _ _ Hs2). simpl. by rewrite lookup_insert_eq.
Qed.

Lemma delete_commits_then_add_witness :
  exists w1,
    sr_state_delete_commits sample_now world_with_commit = Returns w1 /\
    (forall fpr, sr_state_get_commit sample_now fpr w1 = Returns None) /\
    sr_state_get_previous_srv sample_now w1 = Returns None /\
    sr_state_get_current_srv sample_now w1 = Returns None /\
    exists w2,
      sr_state_add_commit sample_now sample_commit w1 = Returns w2 /\
      sr_state_get_commit sample_now (rsa_identity_fpr sample_commit) w2
        = Returns (Some sample_commit).
Proof.
  apply (@delete_commits_then_add sample_text sample_voting sample_confparse
           sample_now world_with_commit _ sample_commit eq_refl).
Defined.





(** X8. What [sr_state_init] leaves behind. Whenever it returns, its
    result is 0 or -1, and in both cases the memory state and the disk
    state are set; -1 is only returned when it was asked to save and the
    write failed. Nothing is cleaned up on failure, so a second call,
    made without [sr_state_free] in between, stops in the assertion that
    the disk state is not set yet. *)
Theorem init_sets_both_states `{Text} `{Voting} `{ConfParse}
    (save_to_disk read_from_disk : bool) (now : Z) (w w' : world) (r : Z) :
  sr_state_init save_to_disk read_from_disk now w = Returns (r, w') ->
  (r = 0 \/ r = -1) /\
  is_Some (sr_state w') /\ is_Some (sr_disk_state w') /\
  (r = -1 -> save_to_disk = true /\ fs_writable w = false) /\
  forall save_to_disk' read_from_disk' now',
    sr_state_init save_to_disk' read_from_disk' now' w'
      = Assertion_failure "sr_disk_state == NULL".
Proof.
  unfold sr_state_init at 1.
  destruct (sr_disk_state w) eqn:Hd; [discriminate|].
  destruct (sr_state w) eqn:Hs; [discriminate|].
  cbn [bool_decide decide tor_assert obind].
  rewrite !bool_decide_eq_true_2 by done. cbn [tor_assert obind].
  assert (Hagain : forall w2, is_Some (sr_disk_state w2) ->
            forall s r n, sr_state_init s r n w2
                          = Assertion_failure "sr_disk_state == NULL").
  { intros w2 [ds Hds] s rd n. unfold sr_state_init. rewrite Hds.
    by rewrite bool_decide_eq_false_2. }
  assert (Hfresh : forall w1, w1 = w ->
            (if save_to_disk then
               saved <- disk_state_save_to_disk now
                          {| sr_state := Some (state_new (Some default_fname) now);
                             sr_disk_state := Some (disk_state_new now);
                             sr_file := sr_file w1;
                             fs_writable := fs_writable w1 |} ;;
               if saved.1 <? 0 then Returns (-1, saved.2)
               else Returns (0, saved.2)
             else
               Returns (0, {| sr_state := Some (state_new (Some default_fname) now);
                              sr_disk_state := Some (disk_state_new now);
                              sr_file := sr_file w1;
                              fs_writable := fs_writable w1 |}))%outcome
              = Returns (r, w') ->
            (r = 0 \/ r = -1) /\
            is_Some (sr_state w') /\ is_Some (sr_disk_state w') /\
            (r = -1 -> save_to_disk = true /\ fs_writable w = false) /\
            forall s rd n, sr_state_init s rd n w'
                           = Assertion_failure "sr_disk_state == NULL").
  { intros w1 ->. destruct save_to_disk.
    - match goal with
      | |- context [disk_state_save_to_disk now ?w0] =>
          rewrite (save_to_disk_result now w0 _ _ eq_refl eq_refl)
      end.
      cbn [obind fst snd fs_writable].
      destruct (fs_writable w); simpl; intros [= <- <-];
        (split; [auto|]); (split; [by eexists|]); (split; [by eexists|]);
        (split; [by intros|]); apply Hagain; by eexists.
    - intros [= <- <-].
      (split; [auto|]); (split; [by eexists|]); (split; [by eexists|]);
        (split; [by intros|]); apply Hagain; by eexists. }
  destruct read_from_disk.
  - destruct (disk_state_load_from_disk_impl now w) as [[ret w1]| |] eqn:Hload;
      try discriminate.
    cbn [obind].
    destruct (load_cases _ _ _ _ Hload)
      as [(-> & Hst & Hdst & _)|[[-> | ->] ->]].
    + simpl. intros [= <- <-].
      (split; [auto|]); (split; [done|]); (split; [done|]);
        (split; [by intros|]); by apply Hagain.
    + change (- EINVAL <? 0) with true. cbn match.
      change ((- - EINVAL =? EINVAL) || (- - EINVAL =? ENOENT)) with true.
      cbn match. by apply Hfresh.
    + change (- ENOENT <? 0) with true. cbn match.
      change ((- - ENOENT =? EINVAL) || (- - ENOENT =? ENOENT)) with true.
      cbn match. by apply Hfresh.
  - cbn [obind].
    change (- ENOENT <? 0) with true. cbn match.
    change ((- - ENOENT =? EINVAL) || (- - ENOENT =? ENOENT)) with true.
    cbn match. by apply Hfresh.
Qed.

Lemma init_sets_both_states_witness :
  exists w',
    sr_state_init true true sample_now (world_at_boot Absent false)
      = Returns (-1, w') /\
    is_Some (sr_state w') /\ is_Some (sr_disk_state w') /\
    sr_state_init true true sample_now w'
      = Assertion_failure "sr_disk_state == NULL".
Proof.
  eexists. split; [reflexivity|].
  destruct (@init_sets_both_states sample_text sample_voting sample_confparse
              true true sample_now (world_at_boot Absent false) _ (-1)
              eq_refl) as (_ & Hs & Hd & _ & Hagain).
  split; [exact Hs|]. split; [exact Hd|]. apply Hagain.
Defined.

End SRStateExtras.

(** * More on the trunnel codec: from objects to bytes *)

Module TrunnelApiFacts.
Import Trunnel TrunnelFacts TrunnelApi.

Lemma put_inv avail w data w' :
  put avail w data = Ok w' ->
  w' = w ++ data /\ (length w + length data <= avail)%nat.
Proof.
  unfold put. destruct (Nat.ltb_spec avail (length w)); [discriminate|].
  destruct (Nat.ltb_spec (avail - length w) (length data)); [discriminate|].
  intros [= <-]. split; [done|lia].
Qed.

Lemma put_short avail w data :
  (length w <= avail)%nat -> (avail < length w + length data)%nat ->
  put avail w data = Err (-2).
Proof.
  intros Hw Hd. unfold put.
  destruct (Nat.ltb_spec avail (length w)); [lia|].
  by destruct (Nat.ltb_spec (avail - length w) (length data)); [|lia].
Qed.

Lemma ntohs_htons (v : N) :
  (v < 65536)%N ->
  exists b0 b1, trunnel_htons v = [b0; b1] /\ trunnel_ntohs b0 b1 = v.
Proof.
  intros Hv. unfold trunnel_htons. eexists _, _. split; [done|].
  unfold trunnel_ntohs.
  rewrite !to_N_byte_of_N.
  - pose proof (N.div_mod v 256 ltac:(lia)). lia.
  - apply N.mod_lt. lia.
  - apply N.Div0.div_lt_upper_bound. lia.
Qed.

Lemma length_htons v : length (trunnel_htons v) = 2%nat.
Proof. done. Qed.

Lemma array_view_length n l : length (array_view n l) = n.
Proof.
  unfold array_view. rewrite length_take, length_app, length_replicate. lia.
Qed.

Section Cells.
Context `{CellExtension}.

Lemma length_layout obj ce :
  length (layout obj ce)
    = (1 + 2 + length (auth_key obj) + length ce + 32 + 2
       + length (sig obj))%nat.
Proof.
  unfold layout, TRUNNEL_SHA3_256_LEN.
  rewrite !length_app, array_view_length. simpl. lia.
Qed.

Lemma check_inv obj :
  hs_cell_establish_intro_check obj = None ->
  trunnel_error_code_ obj = false /\
  auth_key_type_in_range (auth_key_type obj) = true /\
  N.of_nat (length (auth_key obj)) = auth_key_len obj /\
  (exists e, extensions obj = Some e /\ cell_extension_check e = None) /\
  N.of_nat (length (sig obj)) = sig_len obj.
Proof.
  unfold hs_cell_establish_intro_check.
  destruct (trunnel_error_code_ obj); [discriminate|].
  destruct (auth_key_type_in_range _); [|discriminate]. simpl.
  destruct (N.eqb_spec (N.of_nat (length (auth_key obj))) (auth_key_len obj));
    [|discriminate]. simpl.
  destruct (extensions obj) as [ext|]; [|discriminate]. simpl.
  destruct (cell_extension_check ext) eqn:He; [discriminate|].
  destruct (N.eqb_spec (N.of_nat (length (sig obj))) (sig_len obj));
    [|discriminate].
  intros _. repeat split; eauto.
Qed.

(** The encoder at work on an object that passes the check: a chain of
    writes around the nested encoder. *)
Lemma encode_checked avail obj e :
  hs_cell_establish_intro_check obj = None ->
  extensions obj = Some e ->
  hs_cell_establish_intro_encode avail obj =
    (w <- put avail [] [auth_key_type obj] ;;
     w <- put avail w (trunnel_htons (auth_key_len obj)) ;;
     w <- put avail w (auth_key obj) ;;
     w <- put_extensions avail w (Some e) ;;
     w <- put avail w (array_view TRUNNEL_SHA3_256_LEN (handshake_mac obj)) ;;
     w <- put avail w (trunnel_htons (sig_len obj)) ;;
     w <- put avail w (sig obj) ;;
     Ok w)%ret.
Proof.
  intros Hchk He. unfold hs_cell_establish_intro_encode. rewrite Hchk.
  apply check_inv in Hchk as (_ & _ & Hk & _ & Hs).
  rewrite <- Hk, <- Hs, !N.eqb_refl, He. done.
Qed.

Lemma encode_inv avail obj b :
  hs_cell_establish_intro_encode avail obj = Ok b ->
  hs_cell_establish_intro_check obj = None /\
  exists e ce room,
    extensions obj = Some e /\
    cell_extension_encode room e = Ok ce /\
    b = layout obj ce /\ (length b <= avail)%nat.
Proof.
  intros Henc.
  destruct (hs_cell_establish_intro_check obj) as [msg|] eqn:Hchk.
  { unfold hs_cell_establish_intro_encode in Henc. by rewrite Hchk in Henc. }
  split; [done|].
  destruct (check_inv _ Hchk) as (_ & _ & _ & (e & He & _) & _).
  rewrite (encode_checked _ _ _ Hchk He) in Henc.
  destruct (put avail [] _) as [w1| |] eqn:H1; try discriminate.
  cbn [rbind] in Henc. apply put_inv in H1 as [-> L1].
  destruct (put avail _ (trunnel_htons _)) as [w2| |] eqn:H2; try discriminate.
  cbn [rbind] in Henc. apply put_inv in H2 as [-> L2].
  destruct (put avail _ (auth_key obj)) as [w3| |] eqn:H3; try discriminate.
  cbn [rbind] in Henc. apply put_inv in H3 as [-> L3].
  unfold put_extensions in Henc.
  destruct (_ <? _)%nat; [discriminate|].
  destruct (cell_extension_encode _ e) as [ce| |] eqn:H4; try discriminate.
  cbn [rbind] in Henc.
  destruct (put avail _ (array_view _ _)) as [w5| |] eqn:H5; try discriminate.
  cbn [rbind] in Henc. apply put_inv in H5 as [-> L5].
  destruct (put avail _ (trunnel_htons (sig_len obj))) as [w6| |] eqn:H6;
    try discriminate.
  cbn [rbind] in Henc. apply put_inv in H6 as [-> L6].
  destruct (put avail _ (sig obj)) as [w7| |] eqn:H7; try discriminate.
  cbn [rbind] in Henc. apply put_inv in H7 as [-> L7].
  injection Henc as <-.
  eexists e, ce, _. split; [done|]. split; [exact H4|].
  split; [unfold layout; by rewrite <- !app_assoc|].
  revert L7. simpl. rewrite !length_app. simpl. lia.
Qed.

End Cells.

Ltac len_solve :=
  rewrite ?length_app, ?array_view_length;
  unfold TRUNNEL_SHA3_256_LEN in *; simpl in *; lia.

Section Laws.
Context `{CellExtensionEncodeLaws}.

(** With enough room the encoder writes the layout. *)
Lemma encode_enough avail obj e ce room :
  hs_cell_establish_intro_check obj = None ->
  extensions obj = Some e ->
  cell_extension_encode room e = Ok ce ->
  (length (layout obj ce) <= avail)%nat ->
  hs_cell_establish_intro_encode avail obj = Ok (layout obj ce).
Proof.
  intros Hchk He Hce Hlen. rewrite (encode_checked _ _ _ Hchk He).
  rewrite length_layout in Hlen.
  destruct (cell_extension_encode_fits _ _ _ Hce) as [_ Hfit].
  rewrite put_ok by (simpl; lia). cbn [rbind].
  rewrite put_ok by (simpl; lia). cbn [rbind].
  rewrite put_ok by (rewrite ?length_app; simpl; lia). cbn [rbind].
  unfold put_extensions.
  match goal with
  | |- context [(avail <? ?n)%nat] =>
      destruct (Nat.ltb_spec avail n) as [Hlt|_]
  end.
  { rewrite !length_app in Hlt. simpl in Hlt. lia. }
  rewrite Hfit by (rewrite !length_app; simpl; lia). cbn [rbind].
  rewrite put_ok
    by len_solve. cbn [rbind].
  rewrite put_ok
    by len_solve. cbn [rbind].
  rewrite put_ok
    by len_solve. cbn [rbind].
  unfold layout. by rewrite <- !app_assoc.
Qed.

(** With too little room the encoder answers Truncated. *)
Lemma encode_short avail obj e ce room :
  hs_cell_establish_intro_check obj = None ->
  extensions obj = Some e ->
  cell_extension_encode room e = Ok ce ->
  (avail < length (layout obj ce))%nat ->
  hs_cell_establish_intro_encode avail obj = Err (-2).
Proof.
  intros Hchk He Hce Hlen. rewrite (encode_checked _ _ _ Hchk He).
  rewrite length_layout in Hlen.
  destruct (cell_extension_encode_fits _ _ _ Hce) as [_ Hfit].
  destruct (Nat.le_gt_cases 1 avail) as [L1|L1];
    [rewrite put_ok by (simpl; lia)|by rewrite put_short by (simpl; lia)].
  cbn [rbind].
  destruct (Nat.le_gt_cases 3 avail) as [L2|L2];
    [rewrite put_ok by (simpl; lia)|by rewrite put_short by (simpl; lia)].
  cbn [rbind].
  destruct (Nat.le_gt_cases (3 + length (auth_key obj)) avail) as [L3|L3];
    [rewrite put_ok by (rewrite ?length_app; simpl; lia)
    |by rewrite put_short by (rewrite ?length_app; simpl; lia)].
  cbn [rbind]. unfold put_extensions.
  set (w3 := (([] ++ [auth_key_type obj])
              ++ trunnel_htons (auth_key_len obj)) ++ auth_key obj).
  assert (Hw3 : length w3 = (3 + length (auth_key obj))%nat).
  { unfold w3. rewrite !length_app. simpl. lia. }
  destruct (Nat.ltb_spec avail (length w3)); [lia|].
  destruct (Nat.le_gt_cases (length w3 + length ce) avail) as [L4|L4].
  2:{ by rewrite (cell_extension_encode_short _ _ _ _ Hce) by lia. }
  rewrite Hfit by lia. cbn [rbind].
  destruct (Nat.le_gt_cases (length w3 + length ce + 32) avail) as [L5|L5];
    [rewrite put_ok by len_solve
    |by rewrite put_short by len_solve].
  cbn [rbind].
  destruct (Nat.le_gt_cases (length w3 + length ce + 34) avail) as [L6|L6];
    [rewrite put_ok by len_solve
    |by rewrite put_short by len_solve].
  cbn [rbind].
  rewrite put_short; [done| |]; len_solve.
Qed.

(** The parser on the layout of an object. *)
Lemma parse_layout obj e ce room rest :
  hs_cell_establish_intro_check obj = None ->
  extensions obj = Some e ->
  cell_extension_encode room e = Ok ce ->
  (auth_key_len obj < 65536)%N -> (sig_len obj < 65536)%N ->
  hs_cell_establish_intro_parse (layout obj ce ++ rest) =
    Ok ({| start_mac_data := 0;
           auth_key_type := auth_key_type obj;
           auth_key_len := auth_key_len obj;
           auth_key := auth_key obj;
           extensions := Some e;
           end_mac_data := 1 + 2 + length (auth_key obj) + length ce;
           handshake_mac :=
             array_view TRUNNEL_SHA3_256_LEN (handshake_mac obj);
           sig_len := sig_len obj;
           end_sig_fields :=
             1 + 2 + length (auth_key obj) + length ce
             + TRUNNEL_SHA3_256_LEN + 2;
           sig := sig obj;
           trunnel_error_code_ := false |},
        length (layout obj ce)).
Proof.
  intros Hchk He Hce Hk Hs.
  destruct (check_inv _ Hchk) as (_ & Ht & Hkl & _ & Hsl).
  destruct (ntohs_htons _ Hk) as (k0 & k1 & Hkh & Hkn).
  destruct (ntohs_htons _ Hs) as (s0 & s1 & Hsh & Hsn).
  unfold hs_cell_establish_intro_parse, consumed_count,
    hs_cell_establish_intro_parse_into, layout.
  rewrite Hkh, Hsh. unfold pbind at 1. simpl get_u8. cbn iota. rewrite Ht.
  cbn [negb]. unfold pbind at 1. simpl get_u16. cbn iota. rewrite Hkn.
  unfold pbind at 1. rewrite <- !app_assoc.
  rewrite get_bytes_app by (rewrite <- Hkl; by rewrite Nat2N.id).
  unfold pbind at 1. unfold nested.
  rewrite (cell_extension_encode_parse _ _ _ _ Hce).
  match goal with
  | |- context [(length ce <=? ?n)%nat] =>
      destruct (Nat.leb_spec (length ce) n) as [_|Hgt]
  end.
  2:{ rewrite length_app in Hgt. lia. }
  rewrite drop_app_length.
  unfold pbind at 1. rewrite get_bytes_app by apply array_view_length.
  unfold pbind at 1. simpl get_u16. cbn iota. rewrite Hsn.
  unfold pbind at 1.
  rewrite get_bytes_app by (rewrite <- Hsl; by rewrite Nat2N.id).
  unfold pret. cbn [fst snd]. f_equal. f_equal.
  rewrite !length_app, array_view_length. simpl.
  rewrite ?length_app, ?array_view_length. simpl.
  rewrite ?length_app. simpl. lia.
Qed.

End Laws.

End TrunnelApiFacts.

Module CellCommonEncodeFacts.
Import Trunnel TrunnelFacts TrunnelApi TrunnelApiFacts CellCommon CellCommonFacts.

Lemma fields_encode_total f :
  cell_extension_fields_check f = None ->
  exists c,
    (forall avail, (length c <= avail)%nat ->
       cell_extension_fields_encode avail f = Ok c) /\
    (forall avail, (avail < length c)%nat ->
       cell_extension_fields_encode avail f = Err (-2)) /\
    (forall r, nested cell_extension_fields_parse (c ++ r)
               = Ok ((f, length c), r)).
Proof.
  intros Hchk. exists ([field_type f; field_len f] ++ field f).
  assert (Hlen : N.to_nat (Byte.to_N (field_len f)) = length (field f)).
  { unfold cell_extension_fields_check in Hchk.
    destruct (N.eqb_spec (N.of_nat (length (field f))) (Byte.to_N (field_len f)))
      as [<-|]; [|discriminate]. by rewrite Nat2N.id. }
  split; [|split].
  - intros avail Havail. simpl in Havail.
    unfold cell_extension_fields_encode. rewrite Hchk.
    rewrite put_ok by (simpl; lia). cbn [rbind].
    rewrite put_ok by (simpl; lia). cbn [rbind].
    by rewrite put_ok by (simpl; lia).
  - intros avail Havail. simpl in Havail.
    unfold cell_extension_fields_encode. rewrite Hchk.
    destruct (Nat.le_gt_cases 1 avail);
      [rewrite put_ok by (simpl; lia)|by rewrite put_short by (simpl; lia)].
    cbn [rbind].
    destruct (Nat.le_gt_cases 2 avail);
      [rewrite put_ok by (simpl; lia)|by rewrite put_short by (simpl; lia)].
    cbn [rbind]. by rewrite put_short by (simpl; lia).
  - intros r. unfold nested, cell_extension_fields_parse, consumed_count,
      cell_extension_fields_parse_into.
    unfold pbind at 1. simpl get_u8. cbn iota.
    unfold pbind at 1. simpl get_u8. cbn iota.
    unfold pbind at 1. rewrite get_bytes_app by done.
    unfold pret. destruct f as [ty ln body]. simpl in *.
    rewrite !length_app.
    replace (S (S (length body + length r)) - length r)%nat
      with (S (S (length body))) by lia.
    destruct (Nat.leb_spec (S (S (length body)))
                (S (S (length body + length r)))); [|lia].
    simpl. by rewrite drop_app_length.
Qed.

Lemma encode_fields_total fs :
  check_fields fs = None ->
  exists c,
    (forall avail w, (length w + length c <= avail)%nat ->
       encode_fields avail w fs = Ok (w ++ c)) /\
    (forall avail w, (length w <= avail)%nat ->
       (avail < length w + length c)%nat ->
       encode_fields avail w fs = Err (-2)) /\
    (forall r, parse_fields (length fs) (c ++ r) = Ok (fs, r)).
Proof.
  induction fs as [|f fs IH]; simpl.
  - intros _. exists []. split; [|split].
    + intros avail w _. by rewrite app_nil_r.
    + intros avail w Hw Hlt. simpl in Hlt. lia.
    + done.
  - destruct (cell_extension_fields_check f) eqn:Hf; [discriminate|].
    intros Hfs. destruct (IH Hfs) as (c2 & Hok2 & Hshort2 & Hparse2).
    destruct (fields_encode_total f Hf) as (c1 & Hok1 & Hshort1 & Hparse1).
    exists (c1 ++ c2). split; [|split].
    + intros avail w Hlen. rewrite length_app in Hlen.
      destruct (Nat.ltb_spec avail (length w)); [lia|].
      rewrite Hok1 by lia. cbn [rbind].
      rewrite Hok2 by (rewrite length_app; lia). by rewrite app_assoc.
    + intros avail w Hw Hlt. rewrite length_app in Hlt.
      destruct (Nat.ltb_spec avail (length w)); [lia|].
      destruct (Nat.le_gt_cases (length c1) (avail - length w)).
      * rewrite Hok1 by lia. cbn [rbind].
        apply Hshort2; rewrite length_app; lia.
      * by rewrite Hshort1 by lia.
    + intros r. unfold pbind at 1. rewrite <- app_assoc, Hparse1.
      unfold pbind at 1. by rewrite Hparse2.
Qed.

Lemma cell_extension_encode_total e :
  cell_extension_check e = None ->
  exists c,
    (forall avail, (length c <= avail)%nat ->
       cell_extension_encode avail e = Ok c) /\
    (forall avail, (avail < length c)%nat ->
       cell_extension_encode avail e = Err (-2)) /\
    (forall r, cell_extension_parse (c ++ r) = Ok (e, length c)).
Proof.
  intros Hchk. pose proof Hchk as Hchk'. unfold cell_extension_check in Hchk'.
  destruct (check_fields (fields e)) eqn:Hfs; [discriminate|].
  destruct (N.eqb_spec (N.of_nat (length (fields e))) (Byte.to_N (num e)))
    as [Hnum|]; [|discriminate].
  destruct (encode_fields_total _ Hfs) as (c & Hok & Hshort & Hparse).
  exists (num e :: c). split; [|split].
  - intros avail Havail. simpl in Havail.
    unfold cell_extension_encode. rewrite Hchk.
    rewrite put_ok by (simpl; lia). cbn [rbind].
    rewrite Hok by (simpl; lia). done.
  - intros avail Havail. simpl in Havail.
    unfold cell_extension_encode. rewrite Hchk.
    destruct (Nat.le_gt_cases 1 avail);
      [rewrite put_ok by (simpl; lia)|by rewrite put_short by (simpl; lia)].
    cbn [rbind]. apply Hshort; simpl; lia.
  - intros r. unfold cell_extension_parse, consumed_count,
      cell_extension_parse_into.
    unfold pbind at 1. simpl get_u8. cbn iota.
    unfold pbind at 1. rewrite <- Hnum, Nat2N.id, Hparse.
    unfold pret. destruct e as [n fs]. simpl. f_equal. f_equal.
    rewrite length_app. lia.
Qed.

Lemma cell_extension_encode_checks avail e c :
  cell_extension_encode avail e = Ok c -> cell_extension_check e = None.
Proof.
  unfold cell_extension_encode.
  by destruct (cell_extension_check e).
Qed.

#[export] Instance cell_common_encode_laws : CellExtensionEncodeLaws.
Proof.
  assert (Hsame : forall avail (e : cell_extension_st) c,
            cell_extension_encode avail e = Ok c ->
            (length c <= avail)%nat /\
            (forall avail', (length c <= avail')%nat ->
               cell_extension_encode avail' e = Ok c) /\
            (forall avail', (avail' < length c)%nat ->
               cell_extension_encode avail' e = Err (-2)) /\
            (forall r, cell_extension_parse (c ++ r) = Ok (e, length c))).
  { intros avail e c Henc.
    destruct (cell_extension_encode_total e
                (cell_extension_encode_checks _ _ _ Henc))
      as (c' & Hok & Hshort & Hparse).
    destruct (Nat.le_gt_cases (length c') avail) as [Hle|Hgt].
    - rewrite Hok in Henc by done. injection Henc as <-. done.
    - rewrite Hshort in Henc by done. discriminate. }
  split.
  - intros avail e c Henc. destruct (Hsame _ _ _ Henc) as (? & ? & _). done.
  - intros avail e c avail' Henc. destruct (Hsame _ _ _ Henc) as (_ & _ & Hs & _).
    apply Hs.
  - intros avail e c r Henc. destruct (Hsame _ _ _ Henc) as (_ & _ & _ & Hp).
    apply Hp.
Qed.

End CellCommonEncodeFacts.

Module TrunnelExtras.
Import CellCommon CellCommonFacts CellCommonEncodeFacts.
Import Trunnel TrunnelFacts TrunnelApi TrunnelApiFacts.

Lemma nested_inv {A} (p : list byte -> ret (A * nat)) i a n r :
  nested p i = Ok ((a, n), r) ->
  p i = Ok (a, n) /\ (n <= length i)%nat /\ r = drop n i.
Proof.
  unfold nested. destruct (p i) as [[a' n']| |]; try discriminate.
  destruct (Nat.leb_spec n' (length i)); [|discriminate].
  by intros [= <- <- <-].
Qed.

Lemma error_code_sticks `{CellExtension} (l : list setter) :
  forall obj, trunnel_error_code_ obj = true ->
  trunnel_error_code_ (call_setters obj l) = true.
Proof.
  induction l as [|s l IH]; intros obj Herr; [done|].
  apply IH. destruct s; simpl; unfold
    hs_cell_establish_intro_set_auth_key_type,
    hs_cell_establish_intro_add_auth_key, hs_cell_establish_intro_add_sig;
    repeat case_match; done.
Qed.

Section Encoding.
Context `{CellExtensionEncodeLaws}.

(** X9. Encoding then parsing gives the object back. When the encoder of
    ESTABLISH_INTRO accepts an object (whose two lengths are 16-bit
    values) and writes [b], the parser reads [b], followed by anything,
    back into an object with the same key type, key, extensions, MAC,
    signature and lengths, and consumes exactly the bytes of [b]; the
    positions it records are the start of the cell, the start of the MAC
    and the start of the signature. The same holds for INTRO_ESTABLISHED,
    whose parser returns the encoded object itself. *)
Theorem establish_intro_encode_then_parse :
  (forall avail obj b rest,
     hs_cell_establish_intro_encode avail obj = Ok b ->
     (auth_key_len obj < 65536)%N -> (sig_len obj < 65536)%N ->
     exists obj',
       hs_cell_establish_intro_parse (b ++ rest) = Ok (obj', length b) /\
       auth_key_type obj' = auth_key_type obj /\
       auth_key_len obj' = auth_key_len obj /\
       auth_key obj' = auth_key obj /\
       extensions obj' = extensions obj /\
       handshake_mac obj'
         = array_view TRUNNEL_SHA3_256_LEN (handshake_mac obj) /\
       sig_len obj' = sig_len obj /\
       sig obj' = sig obj /\
       trunnel_error_code_ obj' = false /\
       start_mac_data obj' = 0%nat /\
       (end_mac_data obj' + TRUNNEL_SHA3_256_LEN + 2 = end_sig_fields obj')%nat /\
       (end_sig_fields obj' + length (sig obj) = length b)%nat) /\
  (forall avail obj b rest,
     hs_cell_intro_established_encode avail obj = Ok b ->
     hs_cell_intro_established_parse (b ++ rest) = Ok (obj, length b)).
Proof.
  split.
  - intros avail obj b rest Henc Hk Hs.
    destruct (encode_inv _ _ _ Henc) as (Hchk & e & ce & room & He & Hce & -> & _).
    eexists. split; [by apply (parse_layout obj e ce room)|].
    cbn [auth_key_type auth_key_len auth_key extensions handshake_mac
         sig_len sig trunnel_error_code_ start_mac_data end_mac_data
         end_sig_fields].
    rewrite He, length_layout. unfold TRUNNEL_SHA3_256_LEN.
    repeat split; lia.
  - intros avail obj b rest.
    unfold hs_cell_intro_established_encode, hs_cell_intro_established_check.
    destruct obj as [[e|] [|]]; simpl; try discriminate.
    destruct (cell_extension_check e); [discriminate|].
    unfold put_extensions. simpl.
    destruct (cell_extension_encode (avail - 0) e) as [ce| |] eqn:Hce;
      try discriminate.
    cbn [rbind]. intros [= <-].
    unfold hs_cell_intro_established_parse, consumed_count,
      hs_cell_intro_established_parse_into, pbind, nested.
    rewrite (cell_extension_encode_parse _ _ _ _ Hce).
    destruct (Nat.leb_spec (length ce) (length (ce ++ rest))) as [_|Hgt].
    2:{ rewrite length_app in Hgt. lia. }
    rewrite drop_app_length. unfold pret. simpl. f_equal. f_equal.
    rewrite length_app. lia.
Qed.

(** X10. The buffer contract of the ESTABLISH_INTRO encoder. When the
    encoder writes [b] into a buffer of [avail] bytes, [b] fits the
    buffer; with any buffer of at least [length b] bytes it writes the
    same [b], and with any smaller buffer it returns -2 (truncated) and
    not a shorter encoding. *)
Theorem establish_intro_encode_room (avail : nat)
    (obj : hs_cell_establish_intro_t) (b : list byte) :
  hs_cell_establish_intro_encode avail obj = Ok b ->
  (length b <= avail)%nat /\
  (forall avail', (length b <= avail')%nat ->
     hs_cell_establish_intro_encode avail' obj = Ok b) /\
  (forall avail', (avail' < length b)%nat ->
     hs_cell_establish_intro_encode avail' obj = Err (-2)).
Proof.
  intros Henc.
  destruct (encode_inv _ _ _ Henc) as (Hchk & e & ce & room & He & Hce & -> & Hle).
  split; [done|]. split.
  - intros avail' Hge. by apply (encode_enough avail' obj e ce room).
  - intros avail' Hlt. by apply (encode_short avail' obj e ce room).
Qed.

End Encoding.

Section Parsing.
Context `{CellExtensionLaws}.

(** X11. What the ESTABLISH_INTRO parser hands to its callers. An object
    returned by the parser passes [hs_cell_establish_intro_check]; its key
    type is the first byte of the input, its key and signature have the
    lengths read from the input, which are 16-bit values, and its MAC has
    32 bytes. The recorded positions are in order: the MAC-covered data
    starts at 0 and ends 34 bytes before the signature, and the signature
    ends where the parser stopped, within the input. *)
Theorem establish_intro_parse_gives_valid_object (b : list byte)
    (obj : hs_cell_establish_intro_t) (n : nat) :
  hs_cell_establish_intro_parse b = Ok (obj, n) ->
  hs_cell_establish_intro_check obj = None /\
  (exists rest, b = auth_key_type obj :: rest) /\
  N.of_nat (length (auth_key obj)) = auth_key_len obj /\
  N.of_nat (length (sig obj)) = sig_len obj /\
  (auth_key_len obj < 65536)%N /\ (sig_len obj < 65536)%N /\
  length (handshake_mac obj) = TRUNNEL_SHA3_256_LEN /\
  start_mac_data obj = 0%nat /\
  (end_mac_data obj + TRUNNEL_SHA3_256_LEN + 2 = end_sig_fields obj)%nat /\
  (end_sig_fields obj + length (sig obj) = n)%nat /\
  (n <= length b)%nat.
Proof.
  unfold hs_cell_establish_intro_parse, consumed_count.
  destruct (hs_cell_establish_intro_parse_into b) as [[obj' r]| |] eqn:Hp;
    try discriminate.
  intros [= <- <-]. revert Hp. unfold hs_cell_establish_intro_parse_into.
  intros (t & r1 & ->%get_u8_inv & Hi)%pbind_inv.
  destruct (auth_key_type_in_range t) eqn:Ht; simpl in Hi; [|discriminate].
  apply pbind_inv in Hi as (klen & r2 & (b0 & b1 & -> & ->)%get_u16_inv & Hi).
  apply pbind_inv in Hi as (key & r3 & [-> Hkey]%get_bytes_inv & Hi).
  apply pbind_inv in Hi as ([e m] & r4 & Hext & Hi).
  pose proof Hext as (ce & Hce & Hchk & _)%nested_roundtrip.
  apply nested_inv in Hext as (_ & Hm & Hr4).
  apply pbind_inv in Hi as (mac & r5 & [-> Hmac]%get_bytes_inv & Hi).
  apply pbind_inv in Hi as (slen & r6 & (s0 & s1 & -> & ->)%get_u16_inv & Hi).
  apply pbind_inv in Hi as (sg & r7 & [-> Hsg]%get_bytes_inv & Hi).
  injection Hi as <- <-.
  assert (Hlen : length r3 = (m + length (mac ++ s0 :: s1 :: sg ++ r7))%nat).
  { rewrite Hr4, length_drop. lia. }
  unfold hs_cell_establish_intro_check.
  cbn [trunnel_error_code_ auth_key_type auth_key auth_key_len extensions
       sig sig_len handshake_mac check_extensions fst snd start_mac_data
       end_mac_data end_sig_fields].
  rewrite Ht, Hkey, Hsg, !N2Nat.id, !N.eqb_refl, Hchk. cbn [negb].
  split; [done|]. split; [by eexists|]. split; [done|]. split; [done|].
  split; [apply ntohs_bound|]. split; [apply ntohs_bound|].
  split; [done|]. split; [done|]. split; [lia|].
  simpl. rewrite !length_app in *. simpl in *. rewrite !length_app in *.
  simpl in *. unfold TRUNNEL_SHA3_256_LEN in *. lia.
Qed.

End Parsing.

(** X12. A failed setter blocks the encoder. Of the setters
    set_auth_key_type, set_auth_key_len, add_auth_key, set_extensions,
    set_sig_len and add_sig of the ESTABLISH_INTRO object, allocation
    failures apart, one fails (returns -1) exactly for a key type outside
    0, 1, 2 and for one more byte added to a key or a signature of 65535
    bytes. After a failed setter, whichever of these setters are called
    next, the object does not pass the check, the encoder returns -1 for
    every buffer, and [hs_cell_establish_intro_clear_errors] reports the
    error. *)
Theorem failed_setter_blocks_encoding `{CellExtension}
    (obj : hs_cell_establish_intro_t) (s : setter) :
  ((call_setter obj s).1 = -1 <->
   match s with
   | Set_auth_key_type val => auth_key_type_in_range val = false
   | Add_auth_key _ => N.of_nat (length (auth_key obj)) = UINT16_MAX
   | Add_sig _ => N.of_nat (length (sig obj)) = UINT16_MAX
   | _ => False
   end) /\
  ((call_setter obj s).1 = -1 ->
   forall (l : list setter) (avail : nat),
     let obj' := call_setters (call_setter obj s).2 l in
     hs_cell_establish_intro_check obj'
       = Some "A set function failed on this object"%string /\
     hs_cell_establish_intro_encode avail obj' = Err (-1) /\
     (hs_cell_establish_intro_clear_errors obj').1 = 1).
Proof.
  split.
  - destruct s; simpl;
      unfold hs_cell_establish_intro_set_auth_key_type,
        hs_cell_establish_intro_add_auth_key, hs_cell_establish_intro_add_sig;
      try (split; [discriminate|done]).
    + destruct (auth_key_type_in_range val); simpl; split; done.
    + destruct (N.eqb_spec (N.of_nat (length (auth_key obj))) UINT16_MAX);
        simpl; split; done.
    + destruct (N.eqb_spec (N.of_nat (length (sig obj))) UINT16_MAX);
        simpl; split; done.
  - intros Hfail l avail obj'.
    assert (Herr : trunnel_error_code_ obj' = true).
    { apply error_code_sticks. revert Hfail.
      destruct s; simpl;
        unfold hs_cell_establish_intro_set_auth_key_type,
          hs_cell_establish_intro_add_auth_key,
          hs_cell_establish_intro_add_sig;
        try discriminate; case_match; simpl; done. }
    unfold hs_cell_establish_intro_encode, hs_cell_establish_intro_check,
      hs_cell_establish_intro_clear_errors.
    by rewrite Herr.
Qed.

Lemma establish_intro_encode_then_parse_witness :
  exists obj obj',
    hs_cell_establish_intro_encode 41 obj = Ok sample_cell /\
    hs_cell_establish_intro_parse (sample_cell ++ [xff; xfe])
      = Ok (obj', length sample_cell) /\
    auth_key obj' = auth_key obj /\ sig obj' = sig obj /\
    handshake_mac obj' = array_view TRUNNEL_SHA3_256_LEN (handshake_mac obj).
Proof.
  set (obj := @Build_hs_cell_establish_intro_t cell_common 0%nat x02 2%N
                [xa1; xa2] (Some {| num := x00; fields := [] |}) 0%nat
                (replicate 32 x11) 1%N 0%nat [xee] false).
  exists obj.
  destruct (proj1 (@establish_intro_encode_then_parse _ cell_common_encode_laws)
              41%nat obj sample_cell [xff; xfe] eq_refl eq_refl eq_refl)
    as (obj' & Hp & _ & _ & Hk & _ & Hm & _ & Hs & _).
  exists obj'. split; [reflexivity|]. split; [exact Hp|].
  split; [exact Hk|]. split; [exact Hs|exact Hm].
Defined.

Lemma establish_intro_encode_room_witness :
  exists obj,
    hs_cell_establish_intro_encode 100 obj = Ok sample_cell /\
    hs_cell_establish_intro_encode 41 obj = Ok sample_cell /\
    hs_cell_establish_intro_encode 40 obj = Err (-2).
Proof.
  set (obj := @Build_hs_cell_establish_intro_t cell_common 0%nat x02 2%N
                [xa1; xa2] (Some {| num := x00; fields := [] |}) 0%nat
                (replicate 32 x11) 1%N 0%nat [xee] false).
  exists obj.
  destruct (@establish_intro_encode_room _ cell_common_encode_laws
              100%nat obj sample_cell eq_refl) as (_ & Hge & Hlt).
  split; [reflexivity|]. split; [apply Hge|apply Hlt]; vm_compute; lia.
Defined.

Lemma establish_intro_parse_gives_valid_object_witness :
  exists obj,
    hs_cell_establish_intro_parse (sample_cell ++ [xff]) = Ok (obj, 41%nat) /\
    hs_cell_establish_intro_check obj = None /\
    end_sig_fields obj = 40%nat /\ end_mac_data obj = 6%nat.
Proof.
  eexists. split; [vm_compute; reflexivity|].
  destruct (@establish_intro_parse_gives_valid_object _ cell_common_laws
              (sample_cell ++ [xff]) _ 41%nat eq_refl) as (Hchk & _).
  split; [exact Hchk|]. split; reflexivity.
Defined.

Lemma failed_setter_blocks_encoding_witness :
  let obj := (hs_cell_establish_intro_set_auth_key_type
                (hs_cell_establish_intro_new (H := cell_common)) x03).2 in
  hs_cell_establish_intro_encode 100
    (call_setters obj [Set_auth_key_type x02; Add_sig xee])
  = Err (-1).
Proof.
  apply (proj2 (@failed_setter_blocks_encoding cell_common
                  hs_cell_establish_intro_new (Set_auth_key_type x03))
           eq_refl [Set_auth_key_type x02; Add_sig xee] 100%nat).
Defined.

End TrunnelExtras.

Module HsCircuitApiFacts.
Import HsCircuit HsCircuitFacts HsCircuitApi.

Local Open Scope nat_scope.

Lemma opened_ext desc w w' :
  (forall ip, counted w' ip = counted w ip) ->
  opened_intro_circuits desc w' = opened_intro_circuits desc w.
Proof.
  intros Hc. apply Nat.le_antisymm; apply opened_mono; intros ip.
  - by rewrite Hc.
  - by rewrite <- Hc.
Qed.

(** The circuit as [hs_circ_launch_intro_point] leaves it. *)
Lemma launched_circuit service sl ip circ w :
  let w' := (hs_circ_launch_intro_point service sl ip (Some circ) w).2 in
  circuits w' !! circ =
    Some {| purpose := CIRCUIT_PURPOSE_S_ESTABLISH_INTRO;
            state := CIRCUIT_STATE_BUILDING;
            marked_for_close := false;
            hs_ident := Some {| identity_pk := service_identity_pk service |};
            is_internal := true |} /\
  forall id, id <> circ -> circuits w' !! id = circuits w !! id.
Proof.
  assert (Hreg : forall w0, circuits (register_intro_circ ip circ w0)
                            = circuits w0).
  { intros w0. unfold register_intro_circ.
    destruct (is_only_legacy ip); [destruct (legacy_key_digest ip)|]; done. }
  simpl. rewrite Hreg. simpl. split.
  - by rewrite lookup_alter_eq, lookup_insert_eq.
  - intros id Hne. by rewrite lookup_alter_ne, lookup_insert_ne.
Qed.

(** A key leads to the new circuit or to where it led before. *)
Lemma launched_circ_id service sl ip circ w ip' id :
  intro_point_circ_id
    (hs_circ_launch_intro_point service sl ip (Some circ) w).2 ip' = Some id ->
  id = circ \/ intro_point_circ_id w ip' = Some id.
Proof.
  simpl. unfold register_intro_circ, intro_point_circ_id.
  destruct (is_only_legacy ip) eqn:Hl; [destruct (legacy_key_digest ip)|];
    destruct (is_only_legacy ip'); try destruct (legacy_key_digest ip');
    simpl; try (by right);
    intros [[_ <-]|[_ Hid]]%lookup_insert_Some; auto.
Qed.

(** Changing the purpose of a circuit does not change what is counted. *)
Lemma counted_after_purpose circ p w ip :
  counted (update_circuit circ (change_purpose p) w) ip = counted w ip.
Proof.
  unfold counted.
  destruct (intro_point_circuit w ip) as [c|] eqn:Hc.
  - apply intro_point_circuit_id in Hc as (id & Hi & Hc).
    destruct (decide (id = circ)) as [->|Hne].
    + assert (Hc' : intro_point_circuit
                      (update_circuit circ (change_purpose p) w) ip
                    = Some (change_purpose p c)).
      { apply intro_point_circuit_id. exists circ. split; [done|].
        simpl. by rewrite lookup_alter_eq, Hc. }
      by rewrite Hc'.
    + assert (Hc' : intro_point_circuit
                      (update_circuit circ (change_purpose p) w) ip
                    = Some c).
      { apply intro_point_circuit_id. exists id. split; [done|].
        simpl. by rewrite lookup_alter_ne. }
      by rewrite Hc'.
  - destruct (intro_point_circuit (update_circuit _ _ _) ip) as [c'|] eqn:Hc';
      [|done].
    apply intro_point_circuit_id in Hc' as (id & Hi & Hc').
    rewrite circ_id_update in Hi. simpl in Hc'.
    destruct (decide (id = circ)) as [->|Hne].
    + rewrite lookup_alter_eq in Hc'.
      destruct (circuits w !! circ) as [c|] eqn:Hcw; [|done].
      assert (Hc0 : intro_point_circuit w ip = Some c)
        by (apply intro_point_circuit_id; eauto).
      congruence.
    + rewrite lookup_alter_ne in Hc' by done.
      assert (Hc0 : intro_point_circuit w ip = Some c')
        by (apply intro_point_circuit_id; eauto).
      congruence.
Qed.

Lemma wf_after_s_intro service desc circ w :
  wf_intro_circuits service desc w ->
  wf_intro_circuits service desc
    (update_circuit circ (change_purpose CIRCUIT_PURPOSE_S_INTRO) w).
Proof.
  intros Hwf ip c' Hin Hc'.
  apply intro_point_circuit_id in Hc' as (id & Hi & Hc').
  rewrite circ_id_update in Hi. simpl in Hc'.
  destruct (decide (id = circ)) as [->|Hne].
  - rewrite lookup_alter_eq in Hc'.
    destruct (circuits w !! circ) as [c|] eqn:Hcw; [|done].
    injection Hc' as <-.
    destruct (Hwf ip c Hin) as [_ Hident];
      [apply intro_point_circuit_id; eauto|].
    split; [by right|done].
  - rewrite lookup_alter_ne in Hc' by done.
    apply (Hwf ip c' Hin). apply intro_point_circuit_id. eauto.
Qed.

Lemma handle_introduce2_step `{HsCell} service circ ip subcred cell :
  hs_circ_handle_introduce2 service circ ip subcred cell
  = if introduce2_accepted service circ ip subcred cell
    then (0%Z, set_introduce2_count ip (uint64_incr (introduce2_count ip)))
    else ((-1)%Z, ip).
Proof.
  unfold hs_circ_handle_introduce2, introduce2_accepted.
  by destruct (hs_cell_parse_introduce2 _ circ service).
Qed.

End HsCircuitApiFacts.

Module HsCircuitExtras.
Import HsCircuit HsCircuitFacts HsCircuitApi HsCircuitApiFacts.

(** X13. Launching an intro circuit. Whatever the circuit subsystem
    answers, the launch counter grows by one (modulo 2^32), the registered
    intro circuits of the descriptor keep an intro purpose and the identity
    of the service, and no more of them are open than before. When no
    circuit is launched the result is -1 and the circuits are unchanged.
    When one is launched the result is 0 and the circuit is building,
    internal and tagged with the identity of the service; it is the
    circuit found for the intro point, unless the intro point is a legacy
    one whose key has no digest: then the result is still 0 but the
    circuit map is unchanged. *)
Theorem launch_registers_intro_circuit (service : hs_service_t)
    (desc : hs_service_descriptor_t) (sl sl' : hs_service_launch_t)
    (ip : hs_service_intro_point_t) (answer : option nat)
    (w w' : circuits_t) (ret : Z) :
  wf_intro_circuits service desc w ->
  hs_circ_launch_intro_point service sl ip answer w = (ret, sl', w') ->
  num_intro_circ_launched sl'
    = ((num_intro_circ_launched sl + 1) mod 2 ^ 32)%Z /\
  wf_intro_circuits service desc w' /\
  (opened_intro_circuits desc w' <= opened_intro_circuits desc w)%nat /\
  match answer with
  | None => ret = (-1)%Z /\ w' = w
  | Some circ =>
      ret = 0%Z /\
      (forall sending,
         launched w' {| ev_circ := circ; ev_ip := ip;
                        ev_sending := sending |}) /\
      (exists c, circuits w' !! circ = Some c /\
         purpose c = CIRCUIT_PURPOSE_S_ESTABLISH_INTRO /\
         state c = CIRCUIT_STATE_BUILDING /\
         marked_for_close c = false /\
         hs_ident c = Some {| identity_pk := service_identity_pk service |}) /\
      (is_only_legacy ip = false \/ legacy_key_digest ip <> None ->
         intro_point_circ_id w' ip = Some circ) /\
      (is_only_legacy ip = true -> legacy_key_digest ip = None ->
         circuitmap_v2 w' = circuitmap_v2 w /\
         circuitmap_v3 w' = circuitmap_v3 w)
  end.
Proof.
  intros Hwf Hrun. destruct answer as [circ|].
  2:{ injection Hrun as <- <- <-. simpl. unfold uint_incr. done. }
  pose proof (launched_circuit service sl ip circ w) as [Hnew Hold].
  pose proof (launched_circ_id service sl ip circ w) as Hid.
  assert (Hcounter : num_intro_circ_launched sl'
            = ((num_intro_circ_launched sl + 1) mod 2 ^ 32)%Z).
  { by injection Hrun as _ <- _. }
  assert (Hret : ret = 0%Z) by (by injection Hrun as <- _ _).
  assert (Hw' : w' = (hs_circ_launch_intro_point service sl ip
                        (Some circ) w).2) by (by rewrite Hrun).
  clear Hrun. rewrite <- Hw' in Hnew, Hold, Hid.
  split; [done|]. split; [|split; [|split; [done|split; [|split; [|split]]]]].
  - intros ip' c Hin Hc.
    apply intro_point_circuit_id in Hc as (id & Hi & Hc).
    destruct (decide (id = circ)) as [->|Hne].
    + rewrite Hnew in Hc. injection Hc as <-. simpl.
      split; [by left|]. by eexists.
    + apply Hid in Hi as [?|Hi]; [done|]. rewrite Hold in Hc by done.
      apply (Hwf ip' c Hin). apply intro_point_circuit_id. eauto.
  - apply opened_mono. intros ip'. unfold counted.
    destruct (intro_point_circuit w' ip') as [c|] eqn:Hc; [|done].
    apply intro_point_circuit_id in Hc as (id & Hi & Hc).
    destruct (decide (id = circ)) as [->|Hne].
    + rewrite Hnew in Hc. by injection Hc as <-.
    + apply Hid in Hi as [?|Hi]; [done|]. rewrite Hold in Hc by done.
      assert (Hc0 : intro_point_circuit w ip' = Some c)
        by (apply intro_point_circuit_id; eauto).
      by rewrite Hc0.
  - intros sending. eexists. by split; [exact Hnew|].
  - eexists. by split; [exact Hnew|].
  - intros Hkey. rewrite Hw'. simpl.
    unfold register_intro_circ, intro_point_circ_id.
    destruct (is_only_legacy ip).
    + destruct (legacy_key_digest ip); [|by destruct Hkey].
      simpl. by rewrite lookup_insert_eq.
    + simpl. by rewrite lookup_insert_eq.
  - intros Hl Hd. rewrite Hw'. simpl. unfold register_intro_circ.
    by rewrite Hl, Hd.
Qed.

(** X14. Handling INTRO_ESTABLISHED. The result is -1 exactly when the
    intro point is not a legacy one and the payload does not parse, and
    then the circuits are unchanged; the payload of a legacy intro point
    is never parsed. Otherwise the result is 0 and the circuit gets the
    purpose S_INTRO, with its state, mark and identifier kept. In both
    cases registered intro circuits that carry an intro purpose and the
    identity of the service still do, and as many of them are open as
    before. *)
Theorem intro_established_keeps_circuits `{HsCellIntroEstablished}
    (service : hs_service_t) (desc : hs_service_descriptor_t)
    (ip : hs_service_intro_point_t) (circ : nat) (payload : list byte)
    (w w' : circuits_t) (ret : Z) :
  wf_intro_circuits service desc w ->
  hs_circ_handle_intro_established service ip circ payload w = (ret, w') ->
  (ret = (-1)%Z <->
   is_only_legacy ip = false /\
   (hs_cell_parse_intro_established payload < 0)%Z) /\
  (ret = (-1)%Z -> w' = w) /\
  (ret <> (-1)%Z ->
   ret = 0%Z /\
   forall c, circuits w !! circ = Some c ->
     exists c', circuits w' !! circ = Some c' /\
       purpose c' = CIRCUIT_PURPOSE_S_INTRO /\
       state c' = state c /\
       marked_for_close c' = marked_for_close c /\
       hs_ident c' = hs_ident c) /\
  wf_intro_circuits service desc w' /\
  opened_intro_circuits desc w' = opened_intro_circuits desc w.
Proof.
  intros Hwf. unfold hs_circ_handle_intro_established.
  destruct (is_only_legacy ip);
    destruct (Z.ltb_spec (hs_cell_parse_intro_established payload) 0);
    cbn [negb andb]; intros [= <- <-].
  3:{ split; [done|]. split; [done|]. split; [done|]. done. }
  all: split; [split; [done|intros [? ?]; first [done|lia]]|].
  all: split; [done|].
  all: split;
    [intros _; split; [done|]; intros c Hc; simpl;
     rewrite lookup_alter_eq, Hc; by eexists|].
  all: split; [by apply wf_after_s_intro|].
  all: apply opened_ext; intros ip'; apply counted_after_purpose.
Qed.

(** X15. The INTRODUCE2 counter follows the accepted cells. For cells
    handled in order of arrival at an intro point, the result is 0 for
    each cell the parser accepts and -1 for each other one, and
    introduce2_count grows by the number of accepted cells, modulo 2^64:
    a cell that arrives again is counted again, and the counter is not
    held at introduce2_max. The limit, the replay cache, the established
    flag and the keys of the intro point are not written. *)
Theorem introduce2_count_follows_accepted_cells `{HsCell}
    (service : hs_service_t) (circ : origin_circuit_t)
    (ip : hs_service_intro_point_t) (subcred : list byte)
    (cells : list (list byte)) :
  (0 <= introduce2_count ip < 2 ^ 64)%Z ->
  let run := handle_introduce2_cells service circ ip subcred cells in
  let accepted := introduce2_accepted service circ ip subcred in
  run.1 = map (fun cell => if accepted cell then 0%Z else (-1)%Z) cells /\
  introduce2_count run.2
    = ((introduce2_count ip
        + Z.of_nat (length (filter (fun cell => accepted cell = true) cells)))
       mod 2 ^ 64)%Z /\
  introduce2_max run.2 = introduce2_max ip /\
  replay_cache run.2 = replay_cache ip /\
  circuit_established run.2 = circuit_established ip /\
  auth_key_pubkey run.2 = auth_key_pubkey ip /\
  enc_key_kp run.2 = enc_key_kp ip.
Proof.
  intros Hrange run accepted. subst run accepted. revert ip Hrange.
  induction cells as [|cell cells IH]; intros ip Hrange.
  - simpl. rewrite Z.add_0_r, Z.mod_small by done. done.
  - cbn [handle_introduce2_cells map]. rewrite filter_cons.
    rewrite handle_introduce2_step.
    destruct (introduce2_accepted service circ ip subcred cell) eqn:Ha.
    + set (ip1 := set_introduce2_count ip (uint64_incr (introduce2_count ip))).
      assert (Hrange1 : (0 <= introduce2_count ip1 < 2 ^ 64)%Z).
      { simpl. unfold uint64_incr. by apply Z.mod_pos_bound. }
      destruct (IH ip1 Hrange1) as (Hr & Hc & Hm & Hrc & He & Hk & Hek).
      destruct (handle_introduce2_cells service circ ip1 subcred cells)
        as [rets ip2].
      rewrite decide_True by done. cbn [fst snd length] in *.
      split; [by rewrite Hr|]. split; [|done].
      rewrite Hc. change (introduce2_count ip1)
        with (uint64_incr (introduce2_count ip)).
      unfold uint64_incr. rewrite Zplus_mod_idemp_l. f_equal.
      change (introduce2_accepted service circ ip1 subcred)
        with (introduce2_accepted service circ ip subcred). lia.
    + destruct (IH ip Hrange) as (Hr & Hc & Hrest).
      destruct (handle_introduce2_cells service circ ip subcred cells)
        as [rets ip2].
      rewrite decide_False by done. cbn [fst snd] in *.
      split; [by rewrite Hr|]. by split.
Qed.

Lemma launch_registers_intro_circuit_witness :
  exists w',
    hs_circ_launch_intro_point sample_service sample_launch (sample_ip x01)
      (Some 3%nat) sample_circuits
      = (0%Z, {| is_single_onion := false; num_intro_circ_launched := 3 |}, w')
    /\ wf_intro_circuits sample_service sample_desc w'
    /\ intro_point_circ_id w' (sample_ip x01) = Some 3%nat.
Proof.
  eexists. split; [reflexivity|].
  destruct (launch_registers_intro_circuit sample_service sample_desc
              sample_launch _ (sample_ip x01) (Some 3%nat) sample_circuits
              _ _ HsCircuitClaims.sample_circuits_wf eq_refl)
    as (_ & Hwf & _ & _ & _ & _ & Hid & _).
  split; [exact Hwf|]. apply Hid. by left.
Defined.

Lemma intro_established_keeps_circuits_witness :
  exists w',
    @hs_circ_handle_intro_established sample_intro_established
      sample_service (sample_ip x01) 1%nat [] sample_circuits = (0%Z, w')
    /\ wf_intro_circuits sample_service sample_desc w'
    /\ opened_intro_circuits sample_desc w'
       = opened_intro_circuits sample_desc sample_circuits.
Proof.
  eexists. split; [reflexivity|].
  destruct (@intro_established_keeps_circuits sample_intro_established
              sample_service sample_desc (sample_ip x01) 1%nat []
              sample_circuits _ _ HsCircuitClaims.sample_circuits_wf eq_refl)
    as (_ & _ & _ & Hwf & Hn).
  split; [exact Hwf|exact Hn].
Defined.

Lemma introduce2_count_follows_accepted_cells_witness :
  let run := @handle_introduce2_cells sample_hs_cell sample_service
               building_circuit (sample_ip x01) [x07]
               [[x01]; []; [x01]] in
  run.1 = [0%Z; (-1)%Z; 0%Z] /\ introduce2_count run.2 = 2%Z.
Proof.
  destruct (@introduce2_count_follows_accepted_cells sample_hs_cell
              sample_service building_circuit (sample_ip x01) [x07]
              [[x01]; []; [x01]]) as (Hr & Hc & _).
  - simpl. lia.
  - split; [exact Hr|exact Hc].
Defined.

End HsCircuitExtras.

Module SRAccessorExtras.
Import SR SRFacts SRApi SRStateFacts.

Local Open Scope Z_scope.

(** A PUT of a field of the state runs the setter on the memory state. *)
Lemma put_field_result `{Text} `{Voting} `{ConfParse} now w st
    (obj : sr_state_object_t) (data : query_data)
    (f : sr_state_t -> sr_state_t) :
  sr_state w = Some st ->
  state_query_put_ obj data w
    = with_state w (fun state => Returns (put_state w (f state))) ->
  exists r,
    state_query now SR_STATE_ACTION_PUT obj data w = Returns r /\
    sr_state r.2 = Some (f st).
Proof.
  intros Hs Hput. unfold state_query. rewrite Hput.
  rewrite (with_state_some _ _ _ Hs). cbn [obind snd fst].
  set (w1 := put_state w _).
  destruct (sr_disk_state w1) as [ds|] eqn:Hd.
  - rewrite (save_to_disk_result now w1 _ ds eq_refl Hd). cbn [obind snd].
    by eexists.
  - unfold disk_state_save_to_disk. rewrite Hd. cbn [obind snd]. by eexists.
Qed.

Lemma getters_of_state `{Text} `{Voting} `{ConfParse} now w st :
  sr_state w = Some st ->
  sr_state_get_previous_srv now w = Returns (previous_srv st) /\
  sr_state_get_current_srv now w = Returns (current_srv st) /\
  sr_state_get_phase now w = Returns (phase st) /\
  sr_state_srv_is_fresh w = Returns (is_srv_fresh st) /\
  forall fpr,
    sr_state_get_commit now fpr w = Returns (commits st !! digestmap_key fpr).
Proof.
  intros Hs. destruct (get_srv_values now w st Hs) as [-> ->].
  split; [done|]. split; [done|]. split; [|split].
  - unfold sr_state_get_phase, state_query, state_query_get_.
    by rewrite (with_state_some _ _ _ Hs).
  - unfold sr_state_srv_is_fresh. by rewrite (with_state_some _ _ _ Hs).
  - intros fpr. by apply get_commit_value.
Qed.

(** X16. The accessors of the SRVs. With a state in memory, setting the
    previous SRV (a value or NULL) returns, and the getter of the previous
    SRV then gives what was set, while the current SRV, the phase, the
    fresh flag and the commit of every fingerprint read as before; the
    same holds with previous and current swapped. Setting valid-after
    leaves both SRVs and the phase as they were: the phase is not computed
    again from the new time. Setting or clearing the fresh flag gives the
    flag that value and writes neither the disk state nor the file. *)
Theorem srv_accessors_round_trip `{Text} `{Voting} `{ConfParse}
    (now : Z) (w : world) (st : sr_state_t) :
  sr_state w = Some st ->
  (forall srv, exists w',
     sr_state_set_previous_srv now srv w = Returns w' /\
     sr_state_get_previous_srv now w' = Returns srv /\
     sr_state_get_current_srv now w' = Returns (current_srv st) /\
     sr_state_get_phase now w' = Returns (phase st) /\
     sr_state_srv_is_fresh w' = Returns (is_srv_fresh st) /\
     forall fpr,
       sr_state_get_commit now fpr w' = sr_state_get_commit now fpr w) /\
  (forall srv, exists w',
     sr_state_set_current_srv now srv w = Returns w' /\
     sr_state_get_current_srv now w' = Returns srv /\
     sr_state_get_previous_srv now w' = Returns (previous_srv st) /\
     sr_state_get_phase now w' = Returns (phase st) /\
     sr_state_srv_is_fresh w' = Returns (is_srv_fresh st) /\
     forall fpr,
       sr_state_get_commit now fpr w' = sr_state_get_commit now fpr w) /\
  (forall t, exists w',
     sr_state_set_valid_after now t w = Returns w' /\
     sr_state_get_phase now w' = Returns (phase st) /\
     sr_state_get_previous_srv now w' = Returns (previous_srv st) /\
     sr_state_get_current_srv now w' = Returns (current_srv st)) /\
  (exists w1 w0,
     sr_state_set_fresh_srv w = Returns w1 /\
     sr_state_unset_fresh_srv w = Returns w0 /\
     sr_state_srv_is_fresh w1 = Returns true /\
     sr_state_srv_is_fresh w0 = Returns false /\
     sr_disk_state w1 = sr_disk_state w /\ sr_file w1 = sr_file w /\
     sr_disk_state w0 = sr_disk_state w /\ sr_file w0 = sr_file w).
Proof.
  intros Hs.
  destruct (getters_of_state now w st Hs) as (_ & _ & _ & _ & Hcommit).
  split; [|split; [|split]].
  - intros srv.
    destruct (put_field_result now w st SR_STATE_OBJ_PREVSRV (SrvData srv)
                (fun s => set_previous_srv s srv) Hs eq_refl)
      as ([out w'] & Hq & Hs').
    exists w'. unfold sr_state_set_previous_srv. rewrite Hq.
    split; [done|].
    destruct (getters_of_state now w' _ Hs') as (-> & -> & -> & -> & Hc').
    repeat (split; [done|]). intros fpr. by rewrite Hc', Hcommit.
  - intros srv.
    destruct (put_field_result now w st SR_STATE_OBJ_CURSRV (SrvData srv)
                (fun s => set_current_srv s srv) Hs eq_refl)
      as ([out w'] & Hq & Hs').
    exists w'. unfold sr_state_set_current_srv. rewrite Hq.
    split; [done|].
    destruct (getters_of_state now w' _ Hs') as (-> & -> & -> & -> & Hc').
    repeat (split; [done|]). intros fpr. by rewrite Hc', Hcommit.
  - intros t.
    destruct (put_field_result now w st SR_STATE_OBJ_VALID_AFTER (TimeData t)
                (fun s => set_valid_after s t) Hs eq_refl)
      as ([out w'] & Hq & Hs').
    exists w'. unfold sr_state_set_valid_after. rewrite Hq.
    split; [done|].
    by destruct (getters_of_state now w' _ Hs') as (-> & -> & -> & _).
  - unfold sr_state_set_fresh_srv, sr_state_unset_fresh_srv,
      sr_state_srv_is_fresh.
    rewrite !(with_state_some _ _ _ Hs). by eexists _, _.
Qed.

Lemma srv_accessors_round_trip_witness :
  exists w',
    sr_state_set_previous_srv sample_now (Some (sample_srv 9 x3c))
      world_with_commit = Returns w' /\
    sr_state_get_previous_srv sample_now w'
      = Returns (Some (sample_srv 9 x3c)).
Proof.
  destruct (proj1 (srv_accessors_round_trip sample_now world_with_commit
                     _ eq_refl)
              (Some (sample_srv 9 x3c))) as (w' & Hset & Hget & _).
  by exists w'.
Defined.



End SRAccessorExtras.

Module HsCircuitRendExtras.
Import HsCircuit HsCircuitRend.

Local Open Scope Z_scope.

(** A joined circuit has no purpose that the set-up accepts. *)
Lemma joined_purpose_refused `{RendCrypto} (side side' : bool) :
  circuit_purpose_is_correct_for_rend
    (if side then CIRCUIT_PURPOSE_S_REND_JOINED
     else CIRCUIT_PURPOSE_C_REND_JOINED) side' = false.
Proof. by destruct side, side'. Qed.

Lemma purpose_correct_inv `{RendCrypto} p (side : bool) :
  circuit_purpose_is_correct_for_rend p side = true ->
  if side then p = CIRCUIT_PURPOSE_S_CONNECT_REND
  else p = CIRCUIT_PURPOSE_C_REND_READY \/
       p = CIRCUIT_PURPOSE_C_REND_READY_INTRO_ACKED.
Proof. destruct side, p; simpl; try done; auto. Qed.

(** X18. Joining a v3 rendezvous circuit. [hs_circuit_setup_e2e_rend_circ]
    returns 0 or -1. When it returns -1 the circuit is unchanged. When it
    returns 0, the circuit had the purpose S_CONNECT_REND on the service
    side, or C_REND_READY or C_REND_READY_INTRO_ACKED on the client side;
    its purpose is now the joined one of that side, the timed-out flag is
    cleared, one hop was appended to the path, open and with the default
    windows, no final hop is pending any more, and streams were attached
    on the client side only. A circuit that was joined is refused from
    then on: every further call returns -1 and leaves it unchanged. *)
Theorem e2e_rend_circ_joins_once `{RendCrypto} (circ circ' : rend_circuit_t)
    (ntor_key_seed : list byte) (is_service_side : bool) (ret : Z) :
  hs_circuit_setup_e2e_rend_circ circ ntor_key_seed is_service_side
    = (ret, circ') ->
  (ret = 0 \/ ret = -1) /\
  (ret = -1 -> circ' = circ) /\
  (ret = 0 ->
   (if is_service_side then purpose circ = CIRCUIT_PURPOSE_S_CONNECT_REND
    else purpose circ = CIRCUIT_PURPOSE_C_REND_READY \/
         purpose circ = CIRCUIT_PURPOSE_C_REND_READY_INTRO_ACKED) /\
   purpose circ' = (if is_service_side then CIRCUIT_PURPOSE_S_REND_JOINED
                    else CIRCUIT_PURPOSE_C_REND_JOINED) /\
   hs_circ_has_timed_out circ' = false /\
   (exists hop, cpath circ' = cpath circ ++ [hop] /\
      cpath_state hop = CPATH_STATE_OPEN /\
      package_window hop = circuit_initial_package_window /\
      deliver_window hop = CIRCWINDOW_START) /\
   (forall hop, build_state circ' <> Some (Some hop)) /\
   attached_streams circ'
     = (if is_service_side then attached_streams circ
        else S (attached_streams circ)) /\
   forall seed' side',
     hs_circuit_setup_e2e_rend_circ circ' seed' side' = ((-1)%Z, circ')).
Proof.
  unfold hs_circuit_setup_e2e_rend_circ.
  destruct (circuit_purpose_is_correct_for_rend (purpose circ)
              is_service_side) eqn:Hp; cbn [negb].
  2:{ intros [= <- <-]. split; [by right|]. by split. }
  apply purpose_correct_inv in Hp.
  destruct (create_rend_cpath ntor_key_seed is_service_side) as [hop|].
  2:{ intros [= <- <-]. split; [by right|]. by split. }
  intros [= <- <-]. split; [by left|]. split; [done|]. intros _.
  split; [done|]. split; [done|]. split; [done|].
  split; [by eexists|]. split.
  { intros hop'. simpl. by destruct (build_state circ). }
  split; [done|]. intros seed' side'. cbn [finalize_rend_circuit purpose].
  by rewrite joined_purpose_refused.
Qed.

(** X19. The legacy client side. With a purpose other than C_REND_READY
    and C_REND_READY_INTRO_ACKED, the set-up of the legacy client returns
    -1 before it looks at the pending hop, and the circuit is unchanged.
    Whenever it returns, the result is 0 or -1. On -1 the purpose, the
    path, the timed-out flag and the attached streams of the circuit are
    as before. On 0 the purpose is C_REND_JOINED, the pending hop was
    appended to the path, open, with the default windows and its
    handshake state cleared, no hop is pending any more, and the first
    DIGEST_LEN bytes of the computed secret are the digest that follows
    the key in the cell. *)
Theorem legacy_client_rend_circ `{RendCrypto} (circ : rend_circuit_t)
    (rend_cell_body : list byte) :
  (circuit_purpose_is_correct_for_rend (purpose circ) false = false ->
   hs_circuit_setup_e2e_rend_circ_legacy_client circ rend_cell_body
     = Returns ((-1)%Z, circ)) /\
  (forall ret circ',
     hs_circuit_setup_e2e_rend_circ_legacy_client circ rend_cell_body
       = Returns (ret, circ') ->
     (ret = 0 \/ ret = -1) /\
     (ret = -1 ->
      purpose circ' = purpose circ /\ cpath circ' = cpath circ /\
      hs_circ_has_timed_out circ' = hs_circ_has_timed_out circ /\
      attached_streams circ' = attached_streams circ) /\
     (ret = 0 ->
      (purpose circ = CIRCUIT_PURPOSE_C_REND_READY \/
       purpose circ = CIRCUIT_PURPOSE_C_REND_READY_INTRO_ACKED) /\
      purpose circ' = CIRCUIT_PURPOSE_C_REND_JOINED /\
      build_state circ' = Some None /\
      attached_streams circ' = S (attached_streams circ) /\
      (exists hop, cpath circ' = cpath circ ++ [hop] /\
         cpath_state hop = CPATH_STATE_OPEN /\
         package_window hop = circuit_initial_package_window /\
         deliver_window hop = CIRCWINDOW_START /\
         rend_dh_handshake_state hop = None) /\
      exists hop0 dh keys,
        build_state circ = Some (Some hop0) /\
        rend_dh_handshake_state hop0 = Some dh /\
        crypto_dh_compute_secret dh (take DH_KEY_LEN rend_cell_body)
          = Some keys /\
        take DIGEST_LEN keys
          = take DIGEST_LEN (drop DH_KEY_LEN rend_cell_body))).
Proof.
  unfold hs_circuit_setup_e2e_rend_circ_legacy_client. split.
  { by intros ->. }
  intros ret circ'.
  destruct (circuit_purpose_is_correct_for_rend (purpose circ) false) eqn:Hp;
    cbn [negb].
  2:{ intros [= <- <-]. split; [by right|]. by split. }
  apply purpose_correct_inv in Hp. unfold create_rend_cpath_legacy.
  destruct (build_state circ) as [[hop0|]|] eqn:Hb; try discriminate.
  cbn [obind].
  destruct (rend_dh_handshake_state hop0) as [dh|] eqn:Hdh; try discriminate.
  cbn [obind].
  destruct (crypto_dh_compute_secret dh _) as [keys|] eqn:Hkeys.
  2:{ cbn [obind fst snd]. intros [= <- <-]. split; [by right|]. by split. }
  destruct (circuit_init_cpath_crypto hop0 _ false false) as [r hop1].
  destruct (r <? 0).
  { cbn [obind fst snd]. intros [= <- <-]. split; [by right|]. by split. }
  destruct (decide (take DIGEST_LEN keys
                    = take DIGEST_LEN (drop DH_KEY_LEN rend_cell_body)))
    as [Hdigest|Hdigest].
  - rewrite bool_decide_eq_true_2 by done. cbn [negb obind fst snd].
    intros [= <- <-]. split; [by left|]. split; [done|]. intros _.
    split; [done|]. split; [done|]. split; [by simpl; rewrite Hb|].
    split; [done|]. split; [by eexists|]. by exists hop0, dh, keys.
  - rewrite bool_decide_eq_false_2 by done. cbn [negb obind fst snd].
    intros [= <- <-]. split; [by right|]. by split.
Qed.

Lemma e2e_rend_circ_joins_once_witness :
  exists circ',
    @hs_circuit_setup_e2e_rend_circ sample_rend_crypto sample_rend_circuit
      (replicate 32 x07) true = (0, circ') /\
    purpose circ' = CIRCUIT_PURPOSE_S_REND_JOINED /\
    @hs_circuit_setup_e2e_rend_circ sample_rend_crypto circ'
      (replicate 32 x07) true = (-1, circ').
Proof.
  eexists. split; [reflexivity|].
  destruct (@e2e_rend_circ_joins_once sample_rend_crypto sample_rend_circuit
              _ (replicate 32 x07) true 0 eq_refl)
    as (_ & _ & Hjoined).
  destruct (Hjoined eq_refl) as (_ & Hp & _ & _ & _ & _ & Hagain).
  split; [exact Hp|apply Hagain].
Defined.

Lemma legacy_client_rend_circ_witness :
  exists circ',
    @hs_circuit_setup_e2e_rend_circ_legacy_client sample_rend_crypto
      sample_legacy_circuit (replicate 128 x01 ++ replicate 20 x5a)
      = Returns (0, circ') /\
    purpose circ' = CIRCUIT_PURPOSE_C_REND_JOINED /\
    build_state circ' = Some None.
Proof.
  eexists. split; [reflexivity|].
  destruct (proj2 (@legacy_client_rend_circ sample_rend_crypto
                     sample_legacy_circuit
                     (replicate 128 x01 ++ replicate 20 x5a))
              0 _ eq_refl) as (_ & _ & Hjoined).
  destruct (Hjoined eq_refl) as (_ & Hp & Hb & _).
  split; [exact Hp|exact Hb].
Defined.

End HsCircuitRendExtras.
